(** * JSPolySynth: voice lifecycle of the polyphonic synthesizer

    A shallow embedding of [js/soundOscillator.js] and [js/synthesizer.js]
    (the revision with the [geA]/[geD]/[geS]/[geR] retarget setters), with
    the registry, timer and envelope properties proved about it.

    Conventions of the embedding:
    - a JavaScript number is a rational [Q] (exact arithmetic in place of
      IEEE doubles); the oscillator frequency, which goes through
      [Math.pow], is a real number [R];
    - a JavaScript array used as a sparse table ([noteOnList],
      [noteOffList]) is a [list (option _)]: a hole is [None], writing
      past the end extends the array with holes;
    - [SoundOscillator] objects live in a store ([nodes]); the note lists
      hold references (indices into the store), so that a voice that left
      every list can still be observed (for instance, as stopped);
    - an [AudioParam] is its last rendered [value] and the list of
      automation calls scheduled on it, in call order;
    - [setTimeout]/[clearTimeout] act on the host's list of pending
      timers; a timer fires when the host clock reaches its due time
      (the delay is taken as given, not rounded to whole milliseconds),
      earliest due first, first armed first among equal due times;
    - there is one clock: [audioContext.currentTime] is the host time in
      seconds; what [.value] reads changes only when the audio thread
      renders ([render]), never during a call;
    - a thrown [TypeError] is [None] in the [option] monad. *)

From Stdlib Require Import QArith Qminmax Reals Lia Lqa Lra ZifyNat.
From Stdlib Require Import String Ascii DecimalString.
From stdpp Require Import base option list sorting.

Local Open Scope nat_scope.

(** ** JavaScript arrays with holes *)

Abbreviation js_array A := (list (option A)).

(** [a[i]]: [None] is [undefined] (a hole, or past the end). *)
Definition js_get {A} (a : js_array A) (i : nat) : option A :=
  mjoin (a !! i).

(** [a[i] = x]: assignment past the end extends the array with holes. *)
Definition js_set {A} (a : js_array A) (i : nat) (x : A) : js_array A :=
  if decide (i < length a) then <[i := Some x]> a
  else a ++ replicate (i - length a) None ++ [Some x].

(** [i in a] *)
Definition js_in {A} (a : js_array A) (i : nat) : bool :=
  match js_get a i with Some _ => true | None => false end.

(** ** The audio graph: parameters with automation *)

Inductive AutomationEvent :=
  | SetValueAtTime (v t : Q)
  | LinearRampToValueAtTime (v t : Q)
  | ExponentialRampToValueAtTime (v t : Q).

Definition event_time (e : AutomationEvent) : Q :=
  match e with
  | SetValueAtTime _ t => t
  | LinearRampToValueAtTime _ t => t
  | ExponentialRampToValueAtTime _ t => t
  end.

Record AudioParam := mkParam {
  value : Q;                        (* what [.value] reads *)
  events : list AutomationEvent     (* scheduled automation, in call order *)
}.

Definition set_value (v : Q) (p : AudioParam) : AudioParam :=
  mkParam v (events p).

Definition schedule (e : AutomationEvent) (p : AudioParam) : AudioParam :=
  mkParam (value p) (events p ++ [e]).

Definition setValueAtTime (v t : Q) := schedule (SetValueAtTime v t).
Definition linearRampToValueAtTime (v t : Q) :=
  schedule (LinearRampToValueAtTime v t).
Definition exponentialRampToValueAtTime (v t : Q) :=
  schedule (ExponentialRampToValueAtTime v t).

(** Drops every scheduled event whose time is at or after [t]. *)
Definition cancelScheduledValues (t : Q) (p : AudioParam) : AudioParam :=
  mkParam (value p)
          (List.filter (fun e => negb (Qle_bool t (event_time e))) (events p)).

(** ** soundOscillator.js *)

Inductive OscillatorType := sine | square | sawtooth | triangle | custom.

Inductive BiquadFilterType :=
  | lowpass | highpass | bandpass | lowshelf | highshelf
  | peaking | notch | allpass.

Record OscillatorNode := mkOsc {
  osc_type : OscillatorType;
  osc_frequency : R;
  osc_detune : Q;
  osc_connected : bool;    (* connected to the voice's gain node *)
  osc_started : bool;
  osc_stopped : bool
}.

(** [audioContext.createOscillator()] with the Web Audio defaults. *)
Definition createOscillator : OscillatorNode :=
  mkOsc sine 440%R 0 false false false.

Definition with_detune (d : Q) (o : OscillatorNode) : OscillatorNode :=
  mkOsc (osc_type o) (osc_frequency o) d
        (osc_connected o) (osc_started o) (osc_stopped o).
Definition with_type (t : OscillatorType) (o : OscillatorNode) :=
  mkOsc t (osc_frequency o) (osc_detune o)
        (osc_connected o) (osc_started o) (osc_stopped o).
Definition with_frequency (f : R) (o : OscillatorNode) :=
  mkOsc (osc_type o) f (osc_detune o)
        (osc_connected o) (osc_started o) (osc_stopped o).
Definition osc_connect (o : OscillatorNode) :=
  mkOsc (osc_type o) (osc_frequency o) (osc_detune o)
        true (osc_started o) (osc_stopped o).
Definition osc_start (o : OscillatorNode) :=
  mkOsc (osc_type o) (osc_frequency o) (osc_detune o)
        (osc_connected o) true (osc_stopped o).
Definition osc_stop (o : OscillatorNode) :=
  mkOsc (osc_type o) (osc_frequency o) (osc_detune o)
        (osc_connected o) (osc_started o) true.

(** The loop of [SoundOscillator.setType]: [n] iterations remain, [i] is
    the loop counter, [evens] the running multiple. *)
Fixpoint setType_loop (n i : nat) (evens : Z) (detune : Q)
    (oscillators : list OscillatorNode) : list OscillatorNode :=
  match n with
  | O => oscillators
  | S n' =>
      let osc := createOscillator in
      if (0 <? i)%nat then
        if (i mod 2 =? 1)%nat then
          setType_loop n' (S i) evens detune
            (oscillators ++ [with_detune (detune * inject_Z evens) osc])
        else
          setType_loop n' (S i) (evens + 1)%Z detune
            (oscillators ++ [with_detune (detune * inject_Z (- evens)) osc])
      else setType_loop n' (S i) evens detune (oscillators ++ [osc])
  end.

(** [setType("synth")]; the sampler branch repeats the same loop. *)
Definition setType (voices : nat) (detune : Q) : list OscillatorNode :=
  setType_loop voices 0 1%Z detune [].

Record BiquadFilterNode := mkFilter {
  filter_type : BiquadFilterType;
  filter_frequency : Q;
  filter_Q : Q;
  filter_connected : bool   (* connected to the synthesizer's destination *)
}.

Record EnvelopeProgress := mkProgress {
  attackP : AudioParam;
  decayP : AudioParam;
  releaseP : AudioParam
}.

Record SoundOscillator := mkSO {
  so_voices : nat;
  so_detune : Q;
  oscillators : list OscillatorNode;
  gain : AudioParam;            (* gainNode.gain *)
  gain_connected : bool;        (* gainNode connected to filterNode *)
  filterNode : BiquadFilterNode;
  maxOscVol : Q;
  envelopeProgress : EnvelopeProgress
}.

(** [new SoundOscillator(voices, detune)]: a gain of 1, a default biquad
    filter and three constant sources of offset 1. *)
Definition newSoundOscillator (voices : nat) (detune : Q) : SoundOscillator :=
  mkSO voices detune (setType voices detune)
       (mkParam 1 []) false
       (mkFilter lowpass 350 1 false)
       1
       (mkProgress (mkParam 1 []) (mkParam 1 []) (mkParam 1 [])).

Definition createSOsc (voices : nat) (detune : Q) (oType : OscillatorType)
    (oVol : Q) (frequency : R) (fType : BiquadFilterType)
    (fFrequency fQValue : Q) : SoundOscillator :=
  let o := newSoundOscillator voices detune in
  let oscs := map (with_type oType) (oscillators o) in
  let oscs := map (with_frequency frequency) oscs in
  let oscs := map osc_connect oscs in
  let oscs := map osc_start oscs in
  mkSO (so_voices o) (so_detune o) oscs
       (set_value (1 # 1000) (gain o)) true
       (mkFilter fType fFrequency fQValue false)
       oVol
       (envelopeProgress o).

(** ** synthesizer.js: the state *)

(** The fields of [Synthesizer] that the note, panic, retarget and
    statistics methods read or write. *)
Record Synthesizer := mkSynth {
  noteOnList : js_array (list nat);
  noteOffList : js_array (list nat);
  timeOutList : list nat;
  _oscType : OscillatorType;
  _filterType : BiquadFilterType;
  _maxVolume : Q;
  _voices : nat;
  _detune : Q;
  _filterFrequency : Q;
  _filterBandwidth : Q;
  _geA : Q;
  _geD : Q;
  _geS : Q;
  _geR : Q
}.

(** A pending [setTimeout] of the release callback. *)
Record Timer := mkTimer {
  timer_id : nat;
  timer_delay : Q;      (* the delay argument of [setTimeout], ms *)
  timer_due : Q;        (* host time at which it fires, ms *)
  timer_note : nat      (* the [note] argument bound to the callback *)
}.

(** The synthesizer together with its collaborators: the audio graph's
    nodes, the host's pending timers and clock. *)
Record State := mkState {
  synth : Synthesizer;
  nodes : list SoundOscillator;
  timers : list Timer;          (* pending, in arming order *)
  next_timer : nat;
  clock : Q;                    (* host time, ms *)
  uncaught : nat                (* exceptions thrown by timer callbacks *)
}.

Definition with_lists (on off : js_array (list nat)) (tl : list nat)
    (s : Synthesizer) : Synthesizer :=
  mkSynth on off tl (_oscType s) (_filterType s) (_maxVolume s) (_voices s)
          (_detune s) (_filterFrequency s) (_filterBandwidth s)
          (_geA s) (_geD s) (_geS s) (_geR s).

Definition with_envelope (a d s_ r : Q) (s : Synthesizer) : Synthesizer :=
  mkSynth (noteOnList s) (noteOffList s) (timeOutList s) (_oscType s)
          (_filterType s) (_maxVolume s) (_voices s) (_detune s)
          (_filterFrequency s) (_filterBandwidth s) a d s_ r.

Definition with_synth (s : Synthesizer) (w : State) : State :=
  mkState s (nodes w) (timers w) (next_timer w) (clock w) (uncaught w).
Definition with_nodes (ns : list SoundOscillator) (w : State) : State :=
  mkState (synth w) ns (timers w) (next_timer w) (clock w) (uncaught w).
Definition with_timers (ts : list Timer) (w : State) : State :=
  mkState (synth w) (nodes w) ts (next_timer w) (clock w) (uncaught w).

(** [new Synthesizer(destination, oscTypeI, filterType)] *)
Definition newSynthesizer (oscTypeI : OscillatorType)
    (filterType : BiquadFilterType) : Synthesizer :=
  mkSynth [] [] [] oscTypeI filterType 1 1 0 24000 1 96 224 (1 # 4) 1080.

Definition init : State :=
  mkState (newSynthesizer sine lowpass) [] [] 0 0 0.

(** [audioContext.currentTime], in seconds. *)
Definition currentTime (w : State) : Q := clock w / 1000.

(** Dereferencing a voice. The note lists only ever hold references to
    allocated voices ([registry_wf] below), so the default is never read. *)
Global Instance SoundOscillator_inhabited : Inhabited SoundOscillator :=
  populate (newSoundOscillator 0 0).

Definition deref (w : State) (vid : nat) : SoundOscillator := nodes w !!! vid.

Definition with_gain (p : AudioParam) (o : SoundOscillator) :=
  mkSO (so_voices o) (so_detune o) (oscillators o) p (gain_connected o)
       (filterNode o) (maxOscVol o) (envelopeProgress o).
Definition with_progress (e : EnvelopeProgress) (o : SoundOscillator) :=
  mkSO (so_voices o) (so_detune o) (oscillators o) (gain o) (gain_connected o)
       (filterNode o) (maxOscVol o) e.
Definition with_oscillators (l : list OscillatorNode) (o : SoundOscillator) :=
  mkSO (so_voices o) (so_detune o) l (gain o) (gain_connected o)
       (filterNode o) (maxOscVol o) (envelopeProgress o).
Definition connect_destination (o : SoundOscillator) :=
  mkSO (so_voices o) (so_detune o) (oscillators o) (gain o) (gain_connected o)
       (mkFilter (filter_type (filterNode o)) (filter_frequency (filterNode o))
                 (filter_Q (filterNode o)) true)
       (maxOscVol o) (envelopeProgress o).

Definition on_gain (f : AudioParam -> AudioParam) (o : SoundOscillator) :=
  with_gain (f (gain o)) o.
Definition on_attackP (f : AudioParam -> AudioParam) (o : SoundOscillator) :=
  let e := envelopeProgress o in
  with_progress (mkProgress (f (attackP e)) (decayP e) (releaseP e)) o.
Definition on_decayP (f : AudioParam -> AudioParam) (o : SoundOscillator) :=
  let e := envelopeProgress o in
  with_progress (mkProgress (attackP e) (f (decayP e)) (releaseP e)) o.
Definition on_releaseP (f : AudioParam -> AudioParam) (o : SoundOscillator) :=
  let e := envelopeProgress o in
  with_progress (mkProgress (attackP e) (decayP e) (f (releaseP e))) o.

(** [soundOscillator.oscillators.forEach((osc) => {osc.stop(0)})] *)
Definition stop_oscillators (o : SoundOscillator) : SoundOscillator :=
  with_oscillators (map osc_stop (oscillators o)) o.

(** ** synthesizer.js: envelope helpers *)

(** [cancelAndHold(oscParam, now)], at audio time [ct]. *)
Definition cancelAndHold (now : bool) (ct : Q) (oscParam : AudioParam)
    : AudioParam :=
  let oldValue := value oscParam in
  let p := if now then cancelScheduledValues 0 oscParam else oscParam in
  linearRampToValueAtTime oldValue (if now then 0 else ct) p.

(** [decay(oscParam, attack, decay)] *)
Definition decay (s : Synthesizer) (ct : Q) (attack decay : Q)
    (oscParam : AudioParam) : AudioParam :=
  let p := cancelAndHold false ct oscParam in
  linearRampToValueAtTime (_geS s) (ct + (decay + attack) / 1000) p.

(** [attack(oscParam, attack)] *)
Definition attack (s : Synthesizer) (ct : Q) (attack : Q)
    (oscParam : AudioParam) : AudioParam :=
  let p := cancelAndHold true ct oscParam in
  let p := exponentialRampToValueAtTime (993 # 1000) (ct + attack / 1000) p in
  decay s ct attack (_geD s) p.

(** ** synthesizer.js: statistics *)

Definition checkNoteOn (w : State) (note : nat) : bool :=
  match js_get (noteOnList (synth w)) note with
  | Some l => (0 <? length l)%nat
  | None => false
  end.

Definition checkNoteOff (w : State) (note : nat) : bool :=
  match js_get (noteOffList (synth w)) note with
  | Some l => (0 <? length l)%nat
  | None => false
  end.

(** [for (let i in this.noteOnList)] visits the indices in ascending
    order; a hole fails [checkNoteOn] like an absent index does. *)
Definition getOnNoteIndexes (w : State) : list nat :=
  List.filter (checkNoteOn w) (seq 0 (length (noteOnList (synth w)))).

Definition getOffNoteIndexes (w : State) : list nat :=
  List.filter (checkNoteOff w) (seq 0 (length (noteOffList (synth w)))).

Record NoteStatInfo := mkInfo { voicesOn : nat; voicesReleasing : nat }.

(** [getNoteStatInfo(note)] of the current revision. *)
Definition getNoteStatInfo (w : State) (note : nat) : NoteStatInfo :=
  let onVoices := length (getOnNoteIndexes w) in
  let offVoices := length (getOffNoteIndexes w) in
  mkInfo onVoices offVoices.

(** [getNoteInfo(note)] of the earlier revision of synthesizer.js. *)
Definition getNoteInfo (w : State) (note : nat) : NoteStatInfo :=
  let onVoices :=
    match js_get (noteOnList (synth w)) note with
    | Some l => if (0 <? length l)%nat then length l else 0
    | None => 0
    end in
  let offVoices :=
    match js_get (noteOffList (synth w)) note with
    | Some l => if (0 <? length l)%nat then length l else 0
    | None => 0
    end in
  mkInfo onVoices offVoices.

(** ** The host: timers *)

(** [setTimeout(callback, delay, offList, note, timeOutList)]; a negative
    delay fires as soon as possible. *)
Definition setTimeout (delay : Q) (note : nat) (w : State) : nat * State :=
  let id := next_timer w in
  (id, mkState (synth w) (nodes w)
         (timers w ++ [mkTimer id delay (clock w + Qmax 0 delay) note])
         (S id) (clock w) (uncaught w)).

(** [window.clearTimeout(id)] *)
Definition clearTimeout (id : nat) (w : State) : State :=
  with_timers (List.filter (fun t => negb (timer_id t =? id)%nat) (timers w)) w.

(** The pending timer that fires next (the earliest due, the first armed
    among equals) and the timers that stay pending. *)
Fixpoint next_due (ts : list Timer) : option (Timer * list Timer) :=
  match ts with
  | [] => None
  | t :: ts' =>
      match next_due ts' with
      | None => Some (t, [])
      | Some (m, rest) =>
          if Qle_bool (timer_due t) (timer_due m) then Some (t, ts')
          else Some (m, t :: rest)
      end
  end.

(** A loop body that may throw, run over a list. *)
Fixpoint forEach {A B} (f : A -> B -> option A) (a : A) (l : list B)
    : option A :=
  match l with
  | [] => Some a
  | x :: l' => a' ← f a x; forEach f a' l'
  end.

(** ** synthesizer.js: note on, note off, release *)

(** [noteFreq(note)], with [Math.pow(2, x)] as the real power [2^x]. *)
Definition noteFreq (note : nat) : R :=
  (440 * Rpower 2 ((INR note - 69) / 12))%R.

Definition noteOn (w : State) (note : nat) : State :=
  let s := synth w in
  let ct := currentTime w in
  let createdOsc :=
    createSOsc (_voices s) (_detune s) (_oscType s) (_maxVolume s)
               (noteFreq note) (_filterType s) (_filterFrequency s)
               (_filterBandwidth s) in
  let vid := length (nodes w) in
  let on' :=
    match js_get (noteOnList s) note with
    | Some l => js_set (noteOnList s) note (l ++ [vid])
    | None => js_set (noteOnList s) note [vid]
    end in
  (* initialize the gain for enveloping, then schedule attack/decay *)
  let newOSCParam := gain createdOsc in
  let newOSCParam := cancelScheduledValues 0 newOSCParam in
  let newOSCParam := exponentialRampToValueAtTime (1 # 1000) 0 newOSCParam in
  let attackProgress := attackP (envelopeProgress createdOsc) in
  let decayProgress := decayP (envelopeProgress createdOsc) in
  let newOSCParam := cancelAndHold true ct newOSCParam in
  let newOSCParam := attack s ct (_geA s) newOSCParam in
  let attackProgress := cancelAndHold true ct attackProgress in
  let decayProgress := cancelAndHold true ct decayProgress in
  let attackProgress :=
    linearRampToValueAtTime 0 (ct + _geA s / 1000) attackProgress in
  let decayProgress :=
    setValueAtTime 1 (ct + _geA s / 1000) decayProgress in
  let decayProgress :=
    linearRampToValueAtTime 0 (ct + (_geA s + _geD s) / 1000) decayProgress in
  let createdOsc :=
    connect_destination
      (with_progress
         (mkProgress attackProgress decayProgress
                     (releaseP (envelopeProgress createdOsc)))
         (with_gain newOSCParam createdOsc)) in
  mkState (with_lists on' (noteOffList s) (timeOutList s) s)
          (nodes w ++ [createdOsc]) (timers w) (next_timer w)
          (clock w) (uncaught w).

(** The release callback given to [setTimeout], with its bound [note]. *)
Definition releaseTimeout (w : State) (note : nat) : option State :=
  let s := synth w in
  match js_get (noteOffList s) note with
  | None => Some w
  | Some offl =>
      (* offList[note][0].oscillators throws on an empty array *)
      vid ← offl !! 0;
      Some (mkState
              (with_lists (noteOnList s)
                          (js_set (noteOffList s) note (drop 1 offl))
                          (drop 1 (timeOutList s)) s)
              (alter stop_oscillators vid (nodes w))
              (timers w) (next_timer w) (clock w) (uncaught w))
  end.

(** What [release] schedules on the voice it picked: the gain ramp to the
    floor and the release-progress ramp, both over [releaseTime] ms. *)
Definition release_envelope (ct releaseTime : Q) (o : SoundOscillator)
    : SoundOscillator :=
  let o := on_gain (cancelAndHold true ct) o in
  let o := on_gain (exponentialRampToValueAtTime (1 # 10000)
                      (ct + releaseTime / 1000)) o in
  let o := on_releaseP (cancelAndHold true ct) o in
  on_releaseP (linearRampToValueAtTime 0 (ct + releaseTime / 1000)) o.

(** [release(note, releaseTime)]: always works on the last voice of
    [noteOffList[note]]. *)
Definition release (w : State) (note : nat) (releaseTime : Q) : option State :=
  let s := synth w in
  let ct := currentTime w in
  offl ← js_get (noteOffList s) note;
  let oscIndex := (length offl - 1)%nat in
  vid ← (if (0 <? length offl)%nat then offl !! oscIndex else None);
  let w := with_nodes (alter (release_envelope ct releaseTime) vid (nodes w)) w in
  let '(id, w) := setTimeout releaseTime note w in
  let s := synth w in
  Some (with_synth (with_lists (noteOnList s) (noteOffList s)
                               (timeOutList s ++ [id]) s) w).

Definition noteOff (w : State) (note : nat) : option State :=
  let s := synth w in
  if checkNoteOn w note then
    onl ← js_get (noteOnList s) note;
    vid ← last onl;                               (* noteOnList[note].pop() *)
    let on' := js_set (noteOnList s) note (removelast onl) in
    let off' :=
      match js_get (noteOffList s) note with
      | Some offl => js_set (noteOffList s) note (offl ++ [vid])
      | None => js_set (noteOffList s) note [vid]
      end in
    release (with_synth (with_lists on' off' (timeOutList s) s) w) note (_geR s)
  else Some w.

(** ** synthesizer.js: panic *)

Definition stop_voices (l : list nat) (ns : list SoundOscillator)
    : list SoundOscillator :=
  foldl (fun ns vid => alter stop_oscillators vid ns) ns l.

Definition panic_on (w : State) (i : nat) : State :=
  let s := synth w in
  if checkNoteOn w i then
    match js_get (noteOnList s) i with
    | Some l =>
        mkState (with_lists (js_set (noteOnList s) i []) (noteOffList s)
                            (timeOutList s) s)
                (stop_voices l (nodes w))
                (timers w) (next_timer w) (clock w) (uncaught w)
    | None => w
    end
  else w.

Definition panic_off (w : State) (i : nat) : State :=
  let s := synth w in
  if checkNoteOff w i then
    match js_get (noteOffList s) i with
    | Some l =>
        mkState (with_lists (noteOnList s) (js_set (noteOffList s) i [])
                            (timeOutList s) s)
                (stop_voices l (nodes w))
                (timers w) (next_timer w) (clock w) (uncaught w)
    | None => w
    end
  else w.

Definition clearTimeouts (w : State) : State :=
  foldl (fun w id => clearTimeout id w) w (timeOutList (synth w)).

Definition panic (w : State) : State :=
  let w := foldl panic_on w (seq 0 (length (noteOnList (synth w)))) in
  let w := foldl panic_off w (seq 0 (length (noteOffList (synth w)))) in
  let w := clearTimeouts w in
  with_synth (with_lists [] [] [] (synth w)) w.

(** ** synthesizer.js: the retarget setters *)

(** The body of the inner loop of [set geR], for index [i] of
    [noteOffList[note]]. *)
Definition geR_retarget (newRelease : Q) (note : nat) (w : State) (i : nat)
    : option State :=
  offl ← js_get (noteOffList (synth w)) note;
  vid ← offl !! i;
  let progress := value (releaseP (envelopeProgress (deref w vid))) in
  release w note (newRelease * progress).

Definition geR_note (newRelease : Q) (w : State) (note : nat) : option State :=
  match js_get (noteOffList (synth w)) note with
  | Some offl => forEach (geR_retarget newRelease note) w (seq 0 (length offl))
  | None => Some w
  end.

Definition set_geR (w : State) (newRelease : Q) : option State :=
  let s := synth w in
  let w := with_synth (with_envelope (_geA s) (_geD s) (_geS s) newRelease s) w in
  let w := clearTimeouts w in
  let s := synth w in
  let w := with_synth (with_lists (noteOnList s) (noteOffList s) [] s) w in
  let modNotes := getOffNoteIndexes w in
  forEach (geR_note newRelease) w modNotes.

(** The voices visited by
    [getOnNoteIndexes().forEach(note => noteOnList[note].forEach(...))]. *)
Definition held_voices (w : State) : list nat :=
  flat_map (fun note => default [] (js_get (noteOnList (synth w)) note))
           (getOnNoteIndexes w).

Definition forEachHeld (f : SoundOscillator -> SoundOscillator) (w : State)
    : State :=
  with_nodes (foldl (fun ns vid => alter f vid ns) (nodes w) (held_voices w)) w.

(** The loop body of [set geA], for one voice. *)
Definition geA_retarget (s : Synthesizer) (ct : Q) (value_ : Q)
    (noteGroup : SoundOscillator) : SoundOscillator :=
  let o := on_attackP (cancelAndHold true ct) noteGroup in
  let o := on_decayP (cancelAndHold true ct) o in
  let modValue := (value_ * value (attackP (envelopeProgress o)))%Q in
  let o := on_attackP (linearRampToValueAtTime 0 (ct + modValue / 1000)) o in
  let o := on_decayP (setValueAtTime 1 (ct + modValue / 1000)) o in
  let o := on_decayP (linearRampToValueAtTime 0 (ct + _geD s / 1000)) o in
  let o := on_gain (cancelAndHold true ct) o in
  if negb (Qle_bool modValue 0) then on_gain (attack s ct modValue) o
  else on_gain (decay s ct modValue
                  (_geD s * value (decayP (envelopeProgress o)))) o.

Definition set_geA (w : State) (value_ : Q) : State :=
  let s := synth w in
  let s := with_envelope value_ (_geD s) (_geS s) (_geR s) s in
  let w := with_synth s w in
  forEachHeld (geA_retarget s (currentTime w) value_) w.

(** The loop body of [set geD]. *)
Definition geD_retarget (s : Synthesizer) (ct : Q) (value_ : Q)
    (noteGroup : SoundOscillator) : SoundOscillator :=
  let aProgress := attackP (envelopeProgress noteGroup) in
  let aValue := (_geA s * value aProgress)%Q in
  let modValue := (value_ * value (decayP (envelopeProgress noteGroup)))%Q in
  let o := on_decayP (cancelAndHold true ct) noteGroup in
  let o :=
    if negb (Qle_bool (value aProgress) 0)
    then on_decayP (setValueAtTime 1 (ct + aValue / 1000)) o
    else o in
  let o := on_decayP (linearRampToValueAtTime 0 (ct + modValue / 1000)) o in
  on_gain (decay s ct aValue modValue) o.

Definition set_geD (w : State) (value_ : Q) : State :=
  let s := synth w in
  let s := with_envelope (_geA s) value_ (_geS s) (_geR s) s in
  let w := with_synth s w in
  forEachHeld (geD_retarget s (currentTime w) value_) w.

(** The loop body of [set geS]. *)
Definition geS_retarget (s : Synthesizer) (ct : Q)
    (noteGroup : SoundOscillator) : SoundOscillator :=
  let progress := decayP (envelopeProgress noteGroup) in
  let aProgress := attackP (envelopeProgress noteGroup) in
  let o := on_gain (cancelAndHold true ct) noteGroup in
  if Qeq_bool (value aProgress) 0
  then on_gain (decay s ct (_geA s * value aProgress)
                  (_geD s * value progress)) o
  else on_gain (attack s ct (_geA s * value aProgress)) o.

Definition set_geS (w : State) (value_ : Q) : State :=
  let s := synth w in
  let s := with_envelope (_geA s) (_geD s) value_ (_geR s) s in
  let w := with_synth s w in
  forEachHeld (geS_retarget s (currentTime w)) w.

(** ** The environment: time and audio rendering *)

(** The host reports an exception that escaped a callback. *)
Definition uncaught_error (w : State) : State :=
  mkState (synth w) (nodes w) (timers w) (next_timer w) (clock w)
          (S (uncaught w)).

(** Runs the timers due by [deadline], in firing order. A callback that
    throws leaves the state as it was and is counted in [uncaught]. *)
Fixpoint run_timers (fuel : nat) (deadline : Q) (w : State) : State :=
  match fuel with
  | O => w
  | S fuel' =>
      match next_due (timers w) with
      | Some (t, rest) =>
          if Qle_bool (timer_due t) deadline then
            let w1 := with_timers rest w in
            let w2 :=
              match releaseTimeout w1 (timer_note t) with
              | Some w' => w'
              | None => uncaught_error w1
              end in
            run_timers fuel' deadline w2
          else w
      | None => w
      end
  end.

(** [dt] milliseconds pass on the host: every timer due by then fires. *)
Definition wait (w : State) (dt : Q) : State :=
  if Qle_bool 0 dt then
    let w' := run_timers (length (timers w)) (clock w + dt) w in
    mkState (synth w') (nodes w') (timers w') (next_timer w')
            (clock w + dt) (uncaught w')
  else w.

(** The audio thread renders: the [.value] of the gain and of the three
    progress trackers of voice [vid] now read [g], [a], [d] and [r]. *)
Definition render (w : State) (vid : nat) (g a d r : Q) : State :=
  with_nodes
    (alter (fun o =>
              on_releaseP (set_value r)
                (on_decayP (set_value d)
                   (on_attackP (set_value a) (on_gain (set_value g) o))))
           vid (nodes w)) w.

(** ** synthesizer.js: plain parameter setters *)

Definition with_sound (oscType : OscillatorType) (filterType : BiquadFilterType)
    (maxVolume : Q) (voices : nat) (detune filterFrequency filterBandwidth : Q)
    (s : Synthesizer) : Synthesizer :=
  mkSynth (noteOnList s) (noteOffList s) (timeOutList s) oscType filterType
          maxVolume voices detune filterFrequency filterBandwidth
          (_geA s) (_geD s) (_geS s) (_geR s).

Definition set_oscType (w : State) (value_ : OscillatorType) : State :=
  let s := synth w in
  with_synth (with_sound value_ (_filterType s) (_maxVolume s) (_voices s)
                (_detune s) (_filterFrequency s) (_filterBandwidth s) s) w.

Definition set_filterType (w : State) (value_ : BiquadFilterType) : State :=
  let s := synth w in
  with_synth (with_sound (_oscType s) value_ (_maxVolume s) (_voices s)
                (_detune s) (_filterFrequency s) (_filterBandwidth s) s) w.

Definition set_maxVolume (w : State) (value_ : Q) : State :=
  let s := synth w in
  with_synth (with_sound (_oscType s) (_filterType s) value_ (_voices s)
                (_detune s) (_filterFrequency s) (_filterBandwidth s) s) w.

Definition set_voices (w : State) (value_ : nat) : State :=
  let s := synth w in
  with_synth (with_sound (_oscType s) (_filterType s) (_maxVolume s) value_
                (_detune s) (_filterFrequency s) (_filterBandwidth s) s) w.

Definition set_detune (w : State) (value_ : Q) : State :=
  let s := synth w in
  with_synth (with_sound (_oscType s) (_filterType s) (_maxVolume s) (_voices s)
                value_ (_filterFrequency s) (_filterBandwidth s) s) w.

Definition set_filterFrequency (w : State) (value_ : Q) : State :=
  let s := synth w in
  with_synth (with_sound (_oscType s) (_filterType s) (_maxVolume s) (_voices s)
                (_detune s) value_ (_filterBandwidth s) s) w.

Definition set_filterBandwidth (w : State) (value_ : Q) : State :=
  let s := synth w in
  with_synth (with_sound (_oscType s) (_filterType s) (_maxVolume s) (_voices s)
                (_detune s) (_filterFrequency s) value_ s) w.

(** A plain sound parameter together with the value assigned to it. *)
Inductive SoundParam :=
  | Voices (v : nat)
  | Detune (d : Q)
  | OscType (t : OscillatorType)
  | FilterType (t : BiquadFilterType)
  | FilterFrequency (f : Q)
  | FilterBandwidth (q : Q)
  | MaxVolume (v : Q).

Definition set_sound (w : State) (p : SoundParam) : State :=
  match p with
  | Voices v => set_voices w v
  | Detune d => set_detune w d
  | OscType t => set_oscType w t
  | FilterType t => set_filterType w t
  | FilterFrequency f => set_filterFrequency w f
  | FilterBandwidth q => set_filterBandwidth w q
  | MaxVolume v => set_maxVolume w v
  end.

(** ** Operations as events *)

Inductive Event :=
  | NoteOn (note : nat)
  | NoteOff (note : nat)
  | Panic
  | SetGeA (v : Q)
  | SetGeD (v : Q)
  | SetGeS (v : Q)
  | SetGeR (v : Q)
  | Wait (dt : Q)
  | Render (vid : nat) (g a d r : Q)
  | SetSound (p : SoundParam).

(** A handler that throws is abandoned; [noteOff] and [set geR] never do
    ([noteOff_total], [set_geR_total]). *)
Definition step (w : State) (e : Event) : State :=
  match e with
  | NoteOn n => noteOn w n
  | NoteOff n => default w (noteOff w n)
  | Panic => panic w
  | SetGeA v => set_geA w v
  | SetGeD v => set_geD w v
  | SetGeS v => set_geS w v
  | SetGeR v => default w (set_geR w v)
  | Wait dt => wait w dt
  | Render vid g a d r => render w vid g a d r
  | SetSound p => set_sound w p
  end.

Definition run (w : State) (es : list Event) : State := foldl step w es.

(** Playing notes and letting time pass, without touching a parameter. *)
Definition is_note_event (e : Event) : bool :=
  match e with
  | NoteOn _ | NoteOff _ | Wait _ => true
  | _ => false
  end.

(** Playing: notes, time passing, and the sound parameters (voices per
    note, detune, oscillator and filter settings, volume) set in between;
    the envelope parameters are left alone. *)
Definition is_play_event (e : Event) : bool :=
  match e with
  | NoteOn _ | NoteOff _ | Wait _ | SetSound _ => true
  | _ => false
  end.

(** The voices referenced from a table, in table order. *)
Definition table_voices (a : js_array (list nat)) : list nat :=
  mjoin (omap (fun slot => slot) a).

(** Every voice referenced from the held or the releasing table. *)
Definition registered (w : State) : list nat :=
  table_voices (noteOnList (synth w)) ++ table_voices (noteOffList (synth w)).

(** All oscillators of voice [vid] have been stopped. *)
Definition stopped_at (ns : list SoundOscillator) (vid : nat) : Prop :=
  ∃ o, ns !! vid = Some o ∧
       Forall (fun x => osc_stopped x = true) (oscillators o).

(** [o'] is the voice [o] after [osc.stop(0)] on each of its
    oscillators: the same oscillators in the same order, each one stopped
    and otherwise as it was, and nothing else of the voice differs. *)
Definition stopped_voice (o o' : SoundOscillator) : Prop :=
  Forall2 (fun x x' => x' = mkOsc (osc_type x) (osc_frequency x) (osc_detune x)
                                  (osc_connected x) (osc_started x) true)
          (oscillators o) (oscillators o') ∧
  so_voices o' = so_voices o ∧ so_detune o' = so_detune o ∧
  gain o' = gain o ∧ gain_connected o' = gain_connected o ∧
  filterNode o' = filterNode o ∧ maxOscVol o' = maxOscVol o ∧
  envelopeProgress o' = envelopeProgress o.

(** Voice [vid] exists in [ns], and in [ns'] it is that voice with every
    oscillator stopped. *)
Definition stops (ns ns' : list SoundOscillator) (vid : nat) : Prop :=
  ∃ o o', ns !! vid = Some o ∧ ns' !! vid = Some o' ∧ stopped_voice o o'.

(** From [ns] to [ns'] no voice is created or lost, and a voice that
    differs had its oscillators stopped and nothing else done to it. *)
Definition only_stops (ns ns' : list SoundOscillator) : Prop :=
  Forall2 (fun o o' => o' = o ∨ stopped_voice o o') ns ns'.

(** Every oscillator of voice [vid] has been started and none stopped. *)
Definition running_at (ns : list SoundOscillator) (vid : nat) : Prop :=
  ∃ o, ns !! vid = Some o ∧
       Forall (fun x => osc_started x = true ∧ osc_stopped x = false)
              (oscillators o).

Definition held (w : State) (note : nat) : list nat :=
  default [] (js_get (noteOnList (synth w)) note).

Definition releasing (w : State) (note : nat) : list nat :=
  default [] (js_get (noteOffList (synth w)) note).

(** The unison spread as a function of the oscillator index. *)
Definition evens_at (i : nat) : Z := Z.of_nat (Nat.max 1 ((i + 1) / 2)).

Definition detune_at (d : Q) (i : nat) : Q :=
  if (0 <? i)%nat then
    if (i mod 2 =? 1)%nat then (d * inject_Z (evens_at i))%Q
    else (d * inject_Z (- evens_at i))%Q
  else 0%Q.

(** ** synthesizer.js: more statistics *)

Record NoteOscGroup := mkGroup { group_note : nat; oscGroup : list nat }.

(** [getAllOscillatorsOnNote(note)] (the earlier revision calls it
    [getNoteOscillators]): [r[0]] and [r[1]] are assigned separately, so
    the result can start with a hole. *)
Definition getAllOscillatorsOnNote (w : State) (note : nat)
    : js_array NoteOscGroup :=
  let r := [] in
  let r := if checkNoteOn w note
           then js_set r 0 (mkGroup note (held w note)) else r in
  let r := if checkNoteOff w note
           then js_set r 1 (mkGroup note (releasing w note)) else r in
  r.

(** [getOnNoteInfo()] and [getOffNoteInfo()] of the earlier revision: one
    [getNoteInfo] record per note that has held (releasing) voices. *)
Definition getOnNoteInfo (w : State) : list NoteStatInfo :=
  foldl (fun r i => if checkNoteOn w i then r ++ [getNoteInfo w i] else r)
        [] (seq 0 (length (noteOnList (synth w)))).

Definition getOffNoteInfo (w : State) : list NoteStatInfo :=
  foldl (fun r i => if checkNoteOff w i then r ++ [getNoteInfo w i] else r)
        [] (seq 0 (length (noteOffList (synth w)))).

(** A number appended to a string: its decimal digits. *)
Definition number_to_string (n : nat) : string :=
  NilEmpty.string_of_uint (Nat.to_uint n).

(** The line feed of ['\n']. *)
Definition LF : string := String (Ascii.ascii_of_nat 10) EmptyString.

Definition logNoteInfo (w : State) (note : nat) : string :=
  let info := getNoteStatInfo w note in
  let r := "--------"%string in
  let r := (r ++ (LF ++ "# of voices on: " ++ number_to_string (voicesOn info)))%string in
  let r := (r ++ (LF ++ "# of voices releasing: "
                     ++ number_to_string (voicesReleasing info)))%string in
  let r := (r ++ (LF ++ "--------"))%string in
  r.

(** The loop body of [logNotesSummary], for note [i]. *)
Definition logNotesSummary_step (w : State) (r : string) (i : nat) : string :=
  if checkNoteOn w i || checkNoteOff w i then
    let r := (r ++ (LF ++ "Note: " ++ number_to_string i))%string in
    (r ++ (LF ++ logNoteInfo w i))%string
  else r.

Definition logNotesSummary (w : State) : string :=
  let r := ("--- Active Notes ---" ++ LF)%string in
  let r := foldl (logNotesSummary_step w) r (seq 0 128) in
  (r ++ (LF ++ LF ++ "--- End Summary ---"))%string.

(** ** synthesizer.js: insert effects *)

(** Where an effect node's output goes: to another effect, or to the
    global [masterGainNode]. *)
Inductive AudioTarget := ToEffect (node : nat) | ToMaster.

Global Instance AudioTarget_eq_dec : EqDecision AudioTarget.
Proof. solve_decision. Defined.

(** [effectList] and the connections of the effect nodes it refers to (an
    edge [(a, t)] is a connection from node [a] to [t]). The effect
    methods touch nothing else. *)
Record EffectRack := mkRack {
  effectList : list nat;
  connections : list (nat * AudioTarget)
}.

(** How a method that may throw ends, with the state it leaves. *)
Inductive Outcome := Returned (r : EffectRack) | Thrown (r : EffectRack).

(** [a.connect(t)]: connecting twice makes one connection. *)
Definition connect (a : nat) (t : AudioTarget) (r : EffectRack) : EffectRack :=
  if decide ((a, t) ∈ connections r) then r
  else mkRack (effectList r) (connections r ++ [(a, t)]).

(** [a.disconnect()]: drops every connection going out of [a]. *)
Definition disconnect (a : nat) (r : EffectRack) : EffectRack :=
  mkRack (effectList r)
         (List.filter (fun e => negb (fst e =? a)%nat) (connections r)).

Definition insertEffect (r : EffectRack) (a : nat) : EffectRack :=
  mkRack (effectList r ++ [a]) (connections r).

Definition removeEffect (r : EffectRack) (i : nat) : Outcome :=
  let len := length (effectList r) in
  if (0 <? len)%nat then
    match effectList r !! i with
    | Some a =>
        let r := disconnect a r in
        Returned (mkRack (delete i (effectList r)) (connections r))
    | None => Thrown r        (* undefined.disconnect() *)
    end
  else Returned r.            (* only logs *)

(** One iteration of the loop of [reconnectEffect], with [l] the length
    of the list: [effectList[l]] is past the end. *)
Definition reconnectEffect_step (l : nat) (r : EffectRack) (i : nat) : Outcome :=
  match effectList r !! i, effectList r !! (i - 1) with
  | Some a, Some b =>
      let r := connect a (ToEffect b) r in
      match effectList r !! l with
      | Some c =>
          let r := disconnect c r in
          Returned (connect c (ToEffect a) r)
      | None => Thrown r
      end
  | _, _ => Thrown r
  end.

(** A loop that stops at the first throw. *)
Fixpoint forEachOutcome (f : EffectRack -> nat -> Outcome) (r : EffectRack)
    (l : list nat) : Outcome :=
  match l with
  | [] => Returned r
  | i :: l' =>
      match f r i with
      | Returned r' => forEachOutcome f r' l'
      | Thrown r' => Thrown r'
      end
  end.

Definition reconnectEffect (r : EffectRack) (i : nat) : Outcome :=
  let first :=
    if (i =? 0)%nat then
      match effectList r !! 0 with
      | Some a => Returned (connect a ToMaster r)
      | None => Thrown r
      end
    else Returned r in
  match first with
  | Thrown r => Thrown r
  | Returned r =>
      let len := length (effectList r) in
      if (i <? len)%nat
      then forEachOutcome (reconnectEffect_step len) r (seq 1 (len - 1))
      else Returned r
  end.

(** A change to a voice that restarts no stopped oscillator. *)
Definition keeps_stopped (f : SoundOscillator → SoundOscillator) : Prop :=
  ∀ o, Forall (fun x => osc_stopped x = true) (oscillators o) →
       Forall (fun x => osc_stopped x = true) (oscillators (f o)).

(** ** Invariants *)

(** Registry membership: no voice is referenced twice (so none is both
    held and releasing, or twice in one stack, or under two notes); every
    referenced voice was created; and a created voice that is referenced
    from neither table has had its oscillators stopped. *)
Definition registry_wf (w : State) : Prop :=
  NoDup (registered w) ∧
  Forall (fun v => v < length (nodes w)) (registered w) ∧
  (∀ v, v < length (nodes w) → v ∉ registered w → stopped_at (nodes w) v).

(** Every voice referenced from a table is sounding: its oscillators
    have been started and none has been stopped. *)
Definition registered_running (w : State) : Prop :=
  ∀ v, v ∈ registered w → running_at (nodes w) v.

(** Voices are numbered in creation order; a held stack lists them oldest
    first. *)
Definition held_ascending (w : State) : Prop :=
  ∀ n l, js_get (noteOnList (synth w)) n = Some l → StronglySorted lt l.

(** [w'] has the tables of [w], the same voices, and no oscillator
    restarted. *)
Definition same_registry (w w' : State) : Prop :=
  noteOnList (synth w') = noteOnList (synth w) ∧
  noteOffList (synth w') = noteOffList (synth w) ∧
  length (nodes w') = length (nodes w) ∧
  (∀ v, stopped_at (nodes w) v → stopped_at (nodes w') v).

(** The pending timers are exactly those listed in [timeOutList], in the
    same order, which is also their firing order; each note has at least
    as many releasing voices as pending timers. *)
Definition timers_fifo (w : State) : Prop :=
  timeOutList (synth w) = map timer_id (timers w) ∧
  StronglySorted (fun t u => (timer_due t <= timer_due u)%Q) (timers w) ∧
  Forall (fun t => (timer_due t <= clock w + _geR (synth w))%Q) (timers w) ∧
  (0 <= _geR (synth w))%Q ∧
  (∀ n, length (List.filter (fun t => (timer_note t =? n)%nat) (timers w))
        ≤ length (releasing w n)).

(** The sound and envelope parameters of the synthesizer. *)
Definition parameters (s : Synthesizer) :=
  (_oscType s, _filterType s, _maxVolume s, _voices s, _detune s,
   _filterFrequency s, _filterBandwidth s, _geA s, _geD s, _geS s, _geR s).

(** A timer with id [id] is not cancelled by [clearTimeout] on [ids]. *)
Definition unlisted (ids : list nat) (t : Timer) : bool :=
  forallb (fun id => negb (timer_id t =? id)%nat) ids.

(** Each note has exactly as many pending timers as releasing voices. *)
Definition timers_exact (w : State) : Prop :=
  ∀ n, length (List.filter (fun t => (timer_note t =? n)%nat) (timers w))
       = length (releasing w n).

(** The progress that [set geR] reads for voice [vid]. *)
Definition release_progress (w : State) (vid : nat) : Q :=
  value (releaseP (envelopeProgress (deref w vid))).

(** The calls [release(note, newRelease * progress)] that [set geR]
    makes, in order: one per releasing voice, with the note of the voice
    and the duration computed from the voice's own progress. *)
Definition geR_calls (w : State) (newRelease : Q) : list (nat * Q) :=
  flat_map (fun note =>
              map (fun vid => (note, (newRelease * release_progress w vid)%Q))
                  (releasing w note))
           (getOffNoteIndexes w).

(** The voice on top of the releasing stack of [note], the one [release]
    works on. *)
Definition releasing_top (w : State) (note : nat) : nat :=
  default 0 (last (releasing w note)).

(** What one call [release(note, d)] does during [set geR] on [w], with
    [c] the pair of [note] and [d]. *)
Definition release_step (w : State) (a : State) (c : nat * Q) : State :=
  mkState (with_lists (noteOnList (synth a)) (noteOffList (synth a))
                      (timeOutList (synth a) ++ [next_timer a]) (synth a))
          (alter (release_envelope (currentTime a) (snd c))
                 (releasing_top w (fst c)) (nodes a))
          (timers a ++ [mkTimer (next_timer a) (snd c)
                                (clock a + Qmax 0 (snd c)) (fst c)])
          (S (next_timer a)) (clock a) (uncaught a).

(** The state in which the loops of [set geR] start: the new value is
    stored, the listed timers are cancelled, the list is empty. *)
Definition geR_start (w : State) (newRelease : Q) : State :=
  let s := synth w in
  let w := with_synth (with_envelope (_geA s) (_geD s) (_geS s) newRelease s) w in
  let w := clearTimeouts w in
  let s := synth w in
  with_synth (with_lists (noteOnList s) (noteOffList s) [] s) w.

(** What stays fixed while the loops of [set geR] run. *)
Definition geR_inv (w a : State) : Prop :=
  noteOffList (synth a) = noteOffList (synth w) ∧ clock a = clock w ∧
  ∀ vid, release_progress a vid = release_progress w vid.

(** The timers armed by a sequence of [release] calls, the first with id
    [start]. *)
Definition armed (start : nat) (now : Q) (calls : list (nat * Q)) : list Timer :=
  imap (fun i c => mkTimer (start + i) (snd c) (now + Qmax 0 (snd c)) (fst c))
       calls.

(** * Properties *)

(** ** Sparse arrays *)

Section js_arrays.
Context {A : Type}.
Implicit Types (a : js_array A) (x : A).

Lemma js_get_set_eq a i x : js_get (js_set a i x) i = Some x.
Proof.
  unfold js_get, js_set. case_decide as Hi.
  - by rewrite list_lookup_insert_eq.
  - rewrite lookup_app_r by lia. rewrite lookup_app_r; rewrite length_replicate; [|lia].
    by replace (i - length a - (i - length a)) with 0 by lia.
Qed.

Lemma js_get_set_ne a i j x : i ≠ j → js_get (js_set a i x) j = js_get a j.
Proof.
  intros Hne. unfold js_get, js_set. case_decide as Hi.
  - by rewrite list_lookup_insert_ne.
  - destruct (decide (j < length a)) as [Hj|Hj].
    + by rewrite lookup_app_l.
    + rewrite lookup_app_r by lia. rewrite (lookup_ge_None_2 a j) by lia.
      destruct (decide (j - length a < i - length a)) as [Hlt|Hge].
      * rewrite lookup_app_l by (rewrite length_replicate; lia).
        rewrite lookup_replicate_2 by lia. done.
      * rewrite lookup_app_r by (rewrite length_replicate; lia).
        rewrite length_replicate.
        destruct (j - length a - (i - length a)) as [|k] eqn:Hk; [lia|].
        done.
Qed.

Lemma js_get_set a i j x :
  js_get (js_set a i x) j = if decide (i = j) then Some x else js_get a j.
Proof.
  case_decide; [subst; apply js_get_set_eq | by apply js_get_set_ne].
Qed.

Lemma length_js_set a i x : length (js_set a i x) = Nat.max (length a) (S i).
Proof.
  unfold js_set. case_decide.
  - rewrite length_insert. lia.
  - rewrite !length_app, length_replicate. simpl. lia.
Qed.

Lemma js_get_lt a i y : js_get a i = Some y → i < length a.
Proof.
  unfold js_get. destruct (a !! i) eqn:E; [|done].
  intros _. by eapply lookup_lt_Some.
Qed.
End js_arrays.

(** ** Voices referenced from a table *)

Lemma js_set_cons {A} (s : option A) (a : js_array A) n x :
  js_set (s :: a) (S n) x = s :: js_set a n x.
Proof.
  unfold js_set. cbn [length].
  destruct (decide (S n < S (length a))), (decide (n < length a));
    try lia; done.
Qed.

Lemma table_voices_replicate_None k :
  table_voices (replicate k None) = [].
Proof. induction k; done. Qed.

Lemma table_voices_app a b :
  table_voices (a ++ b) = table_voices a ++ table_voices b.
Proof. unfold table_voices. by rewrite omap_app, join_app. Qed.

(** Writing slot [n] swaps the old contents of the slot for the new ones
    and leaves the other slots' voices alone. *)
Lemma table_voices_js_set (a : js_array (list nat)) n :
  ∃ rest,
    table_voices a ≡ₚ default [] (js_get a n) ++ rest ∧
    ∀ x, table_voices (js_set a n x) ≡ₚ x ++ rest.
Proof.
  revert n. induction a as [|s a IH]; intros n.
  - exists []. split; [done|]. intros x. unfold js_set. simpl.
    rewrite table_voices_app, table_voices_replicate_None. done.
  - destruct n as [|n].
    + exists (table_voices a). split.
      * destruct s; done.
      * intros x. done.
    + destruct (IH n) as (rest & H1 & H2).
      exists (default [] s ++ rest). split.
      * change (js_get (s :: a) (S n)) with (js_get a n).
        transitivity (default [] s ++ table_voices a); [by destruct s|].
        rewrite H1. rewrite !app_assoc. apply Permutation_app_tail.
        apply Permutation_app_comm.
      * intros x. rewrite js_set_cons.
        transitivity (default [] s ++ table_voices (js_set a n x));
          [by destruct s|].
        rewrite H2. rewrite !app_assoc. apply Permutation_app_tail.
        apply Permutation_app_comm.
Qed.

Lemma elem_of_table_voices (a : js_array (list nat)) v :
  v ∈ table_voices a ↔ ∃ n l, js_get a n = Some l ∧ v ∈ l.
Proof.
  unfold table_voices. rewrite list_elem_of_join. split.
  - intros (l & Hv & Hl). apply list_elem_of_omap in Hl as (s & Hs & ->).
    apply list_elem_of_lookup in Hs as [n Hn].
    exists n, l. split; [|done]. unfold js_get. by rewrite Hn.
  - intros (n & l & Hn & Hv). exists l. split; [done|].
    apply list_elem_of_omap. exists (Some l). split; [|done].
    unfold js_get in Hn. destruct (a !! n) as [s|] eqn:E; [|done].
    simpl in Hn. subst s. by eapply list_elem_of_lookup_2.
Qed.

(** ** What the note operations do to the state *)

Lemma checkNoteOn_true w n :
  checkNoteOn w n = true ↔ ∃ l v, js_get (noteOnList (synth w)) n = Some (l ++ [v]).
Proof.
  unfold checkNoteOn. split.
  - destruct (js_get _ n) as [l|]; [|done]. intros H%Nat.ltb_lt.
    destruct (last l) as [v|] eqn:E.
    + apply last_Some in E as [l' ->]. eauto.
    + apply last_None in E as ->. simpl in H. lia.
  - intros (l & v & ->). apply Nat.ltb_lt. rewrite length_app. simpl. lia.
Qed.

Lemma checkNoteOn_false w n :
  checkNoteOn w n = false ↔ held w n = [].
Proof.
  unfold checkNoteOn, held. destruct (js_get _ n) as [[|v l]|]; simpl;
    split; try done.
Qed.

Lemma checkNoteOff_true w n :
  checkNoteOff w n = true ↔
  ∃ v l, js_get (noteOffList (synth w)) n = Some (v :: l).
Proof.
  unfold checkNoteOff. split.
  - destruct (js_get _ n) as [[|v l]|]; [done| |done]. eauto.
  - by intros (v & l & ->).
Qed.

Lemma release_eq w n rt l v :
  js_get (noteOffList (synth w)) n = Some (l ++ [v]) →
  release w n rt =
  Some (mkState
          (with_lists (noteOnList (synth w)) (noteOffList (synth w))
                      (timeOutList (synth w) ++ [next_timer w]) (synth w))
          (alter (release_envelope (currentTime w) rt) v (nodes w))
          (timers w ++ [mkTimer (next_timer w) rt (clock w + Qmax 0 rt) n])
          (S (next_timer w)) (clock w) (uncaught w)).
Proof.
  intros H. unfold release. rewrite H. cbn [mbind option_bind].
  assert ((0 <? length (l ++ [v]))%nat = true) as ->.
  { apply Nat.ltb_lt. rewrite length_app. simpl. lia. }
  assert ((l ++ [v]) !! (length (l ++ [v]) - 1) = Some v) as ->.
  { rewrite length_app. simpl.
    replace (length l + 1 - 1) with (length l + 0) by lia.
    by rewrite lookup_app_r, Nat.add_0_r, Nat.sub_diag by lia. }
  done.
Qed.

Lemma noteOff_eq w n l v :
  js_get (noteOnList (synth w)) n = Some (l ++ [v]) →
  noteOff w n =
  Some (mkState
          (with_lists (js_set (noteOnList (synth w)) n l)
                      (js_set (noteOffList (synth w)) n (releasing w n ++ [v]))
                      (timeOutList (synth w) ++ [next_timer w]) (synth w))
          (alter (release_envelope (currentTime w) (_geR (synth w))) v (nodes w))
          (timers w ++ [mkTimer (next_timer w) (_geR (synth w))
                                (clock w + Qmax 0 (_geR (synth w))) n])
          (S (next_timer w)) (clock w) (uncaught w)).
Proof.
  intros H. unfold noteOff.
  assert (checkNoteOn w n = true) as -> by (apply checkNoteOn_true; eauto).
  rewrite H. cbn [mbind option_bind]. rewrite last_snoc. cbn [mbind option_bind].
  rewrite removelast_last.
  set (off' := match js_get (noteOffList (synth w)) n with
               | Some offl => js_set (noteOffList (synth w)) n (offl ++ [v])
               | None => js_set (noteOffList (synth w)) n [v]
               end).
  assert (off' = js_set (noteOffList (synth w)) n (releasing w n ++ [v])) as ->.
  { unfold off', releasing. by destruct (js_get (noteOffList (synth w)) n). }
  erewrite release_eq; [done|]. simpl. apply js_get_set_eq.
Qed.

Lemma noteOff_noop w n : checkNoteOn w n = false → noteOff w n = Some w.
Proof. intros H. unfold noteOff. by rewrite H. Qed.

Lemma noteOff_total w n : is_Some (noteOff w n).
Proof.
  destruct (checkNoteOn w n) eqn:E.
  - apply checkNoteOn_true in E as (l & v & E). erewrite noteOff_eq; eauto.
  - rewrite noteOff_noop; eauto.
Qed.

Lemma noteOn_lists w n :
  noteOnList (synth (noteOn w n))
    = js_set (noteOnList (synth w)) n (held w n ++ [length (nodes w)]) ∧
  noteOffList (synth (noteOn w n)) = noteOffList (synth w) ∧
  timeOutList (synth (noteOn w n)) = timeOutList (synth w) ∧
  timers (noteOn w n) = timers w ∧
  length (nodes (noteOn w n)) = S (length (nodes w)).
Proof.
  unfold noteOn, held. cbn -[createSOsc js_set attack cancelAndHold].
  rewrite length_app. cbn [length].
  destruct (js_get (noteOnList (synth w)) n); repeat split; lia.
Qed.

(** ** Note off *)

(** C4. [noteOff] on a note whose held stack is empty or was never
    initialised returns normally and leaves the whole state as it was:
    both tables, the timer list and the pending timers, and every
    voice's automation. *)
Theorem noteOff_without_held_voice w n :
  held w n = [] → noteOff w n = Some w.
Proof. intros H. apply noteOff_noop. by apply checkNoteOn_false. Qed.

(** Note 61 has no held voice while note 60 sounds. *)
Lemma noteOff_without_held_voice_witness :
  held (noteOn init 60) 61 = [] ∧
  noteOff (noteOn init 60) 61 = Some (noteOn init 60).
Proof.
  split; [reflexivity|].
  apply (noteOff_without_held_voice (noteOn init 60) 61). reflexivity.
Defined.

(** C10. For distinct notes [m] and [n], [noteOn(n)] and [noteOff(n)]
    leave the held stack and the releasing stack of [m] as they were. *)
Theorem note_ops_frame w n m :
  m ≠ n →
  (js_get (noteOnList (synth (noteOn w n))) m = js_get (noteOnList (synth w)) m ∧
   js_get (noteOffList (synth (noteOn w n))) m
     = js_get (noteOffList (synth w)) m) ∧
  (∃ w', noteOff w n = Some w' ∧
     js_get (noteOnList (synth w')) m = js_get (noteOnList (synth w)) m ∧
     js_get (noteOffList (synth w')) m = js_get (noteOffList (synth w)) m).
Proof.
  intros Hne. split.
  - destruct (noteOn_lists w n) as (-> & -> & _).
    split; [|done]. by apply js_get_set_ne.
  - destruct (checkNoteOn w n) eqn:E.
    + apply checkNoteOn_true in E as (l & v & E).
      eexists. split; [by apply noteOff_eq|]. simpl.
      split; by apply js_get_set_ne.
    + exists w. split; [by apply noteOff_noop|done].
Qed.

Lemma note_ops_frame_witness :
  let w := run init [NoteOn 60; NoteOn 64; NoteOff 64; NoteOn 64] in
  64 ≠ 60 ∧
  (js_get (noteOnList (synth (noteOn w 60))) 64 = js_get (noteOnList (synth w)) 64 ∧
   js_get (noteOffList (synth (noteOn w 60))) 64
     = js_get (noteOffList (synth w)) 64) ∧
  (∃ w', noteOff w 60 = Some w' ∧
     js_get (noteOnList (synth w')) 64 = js_get (noteOnList (synth w)) 64 ∧
     js_get (noteOffList (synth w')) 64 = js_get (noteOffList (synth w)) 64).
Proof.
  intros w. split; [lia|]. apply (note_ops_frame w 60 64). lia.
Defined.

(** ** Stopped voices *)

Lemma keeps_stopped_same f :
  (∀ o, oscillators (f o) = oscillators o) → keeps_stopped f.
Proof. intros H o. by rewrite H. Qed.

Lemma stop_oscillators_stopped o :
  Forall (fun x => osc_stopped x = true) (oscillators (stop_oscillators o)).
Proof. simpl. apply Forall_fmap. by apply Forall_true. Qed.

Lemma keeps_stopped_stop : keeps_stopped stop_oscillators.
Proof. intros o _. apply stop_oscillators_stopped. Qed.

Lemma stopped_at_alter f vid ns v :
  keeps_stopped f → stopped_at ns v → stopped_at (alter f vid ns) v.
Proof.
  intros Hf (o & Ho & Hs). destruct (decide (vid = v)) as [->|Hne].
  - exists (f o). rewrite list_lookup_alter_eq, Ho. split; [done|]. by apply Hf.
  - exists o. by rewrite list_lookup_alter_ne.
Qed.

Lemma stopped_at_alter_stop vid ns :
  vid < length ns → stopped_at (alter stop_oscillators vid ns) vid.
Proof.
  intros Hlt. destruct (lookup_lt_is_Some_2 ns vid Hlt) as [o Ho].
  exists (stop_oscillators o). rewrite list_lookup_alter_eq, Ho.
  split; [done|]. apply stop_oscillators_stopped.
Qed.

Lemma stopped_at_app ns ns' v : stopped_at ns v → stopped_at (ns ++ ns') v.
Proof.
  intros (o & Ho & Hs). exists o. split; [|done].
  rewrite lookup_app_l; [done|]. by eapply lookup_lt_Some.
Qed.

Lemma length_foldl_alter (f : SoundOscillator → SoundOscillator) l ns :
  length (foldl (fun ns vid => alter f vid ns) ns l) = length ns.
Proof.
  revert ns. induction l as [|x l IH]; intros ns; simpl; [done|].
  by rewrite IH, length_alter.
Qed.

Lemma stopped_at_foldl_alter f l ns v :
  keeps_stopped f → stopped_at ns v →
  stopped_at (foldl (fun ns vid => alter f vid ns) ns l) v.
Proof.
  intros Hf. revert ns. induction l as [|x l IH]; intros ns H; simpl; [done|].
  apply IH. by apply stopped_at_alter.
Qed.

Lemma length_stop_voices l ns : length (stop_voices l ns) = length ns.
Proof. apply length_foldl_alter. Qed.

Lemma stopped_at_stop_voices_mono l ns v :
  stopped_at ns v → stopped_at (stop_voices l ns) v.
Proof. apply stopped_at_foldl_alter, keeps_stopped_stop. Qed.

Lemma stopped_at_stop_voices l ns v :
  v ∈ l → v < length ns → stopped_at (stop_voices l ns) v.
Proof.
  unfold stop_voices. revert ns.
  induction l as [|x l IH]; intros ns Hin Hlt; simpl; [by inversion Hin|].
  apply elem_of_cons in Hin as [->|Hin].
  - apply (stopped_at_foldl_alter _ _ _ _ keeps_stopped_stop).
    by apply stopped_at_alter_stop.
  - apply IH; [done|]. by rewrite length_alter.
Qed.

Lemma release_envelope_oscillators ct rt o :
  oscillators (release_envelope ct rt o) = oscillators o.
Proof. done. Qed.

(** ** Stopping relates a voice to what it was *)

Lemma stop_oscillators_stopped_voice o : stopped_voice o (stop_oscillators o).
Proof.
  unfold stopped_voice, stop_oscillators. cbn. split; [|done].
  apply Forall2_fmap_r, Forall_Forall2_diag, Forall_true. done.
Qed.

Lemma Forall2_compose {A} (P Q R : A → A → Prop) l k m :
  (∀ x y z, P x y → Q y z → R x z) →
  Forall2 P l k → Forall2 Q k m → Forall2 R l m.
Proof.
  intros H Hlk. revert m. induction Hlk as [|x y l k Hxy _ IH]; intros m Hkm.
  - inversion Hkm. constructor.
  - inversion Hkm as [|? z ? m' Hyz Hkm']; subst. constructor; eauto.
Qed.

Lemma stopped_voice_trans o o' o'' :
  stopped_voice o o' → stopped_voice o' o'' → stopped_voice o o''.
Proof.
  intros (A & A1 & A2 & A3 & A4 & A5 & A6 & A7)
         (B & B1 & B2 & B3 & B4 & B5 & B6 & B7).
  split; [|repeat split; congruence].
  eapply Forall2_compose; [|exact A|exact B].
  cbn beta. by intros x y z -> ->.
Qed.

Lemma stopped_voice_refl o :
  Forall (fun x => osc_stopped x = true) (oscillators o) → stopped_voice o o.
Proof.
  intros H. split; [|done]. apply Forall_Forall2_diag.
  eapply Forall_impl; [exact H|]. cbn beta. intros [] E. cbn in *. by subst.
Qed.

Lemma only_stops_lookup ns ns' :
  only_stops ns ns' ↔
  length ns = length ns' ∧
  ∀ i o o', ns !! i = Some o → ns' !! i = Some o' →
            o' = o ∨ stopped_voice o o'.
Proof. apply Forall2_same_length_lookup. Qed.

Lemma only_stops_refl ns : only_stops ns ns.
Proof. apply Forall_Forall2_diag, Forall_true. by left. Qed.

Lemma only_stops_trans ns ns' ns'' :
  only_stops ns ns' → only_stops ns' ns'' → only_stops ns ns''.
Proof.
  apply Forall2_compose. intros o o' o'' [->| H1] [->| H2]; auto.
  right. by eapply stopped_voice_trans.
Qed.

Lemma only_stops_alter vid ns : only_stops ns (alter stop_oscillators vid ns).
Proof.
  apply only_stops_lookup. split; [by rewrite length_alter|].
  intros i o o' Ho. destruct (decide (i = vid)) as [->|Hne].
  - rewrite list_lookup_alter_eq, Ho. intros [= <-]. right.
    apply stop_oscillators_stopped_voice.
  - rewrite list_lookup_alter_ne, Ho by done. intros [= <-]. by left.
Qed.

Lemma only_stops_stop_voices l ns : only_stops ns (stop_voices l ns).
Proof.
  unfold stop_voices. revert ns. induction l as [|x l IH]; intros ns; cbn [foldl].
  - apply only_stops_refl.
  - eapply only_stops_trans; [apply only_stops_alter|apply IH].
Qed.

(** A voice found stopped after nothing but stopping was done to it is
    the voice it was, with every oscillator stopped. *)
Lemma only_stops_stops ns ns' v :
  only_stops ns ns' → stopped_at ns' v → stops ns ns' v.
Proof.
  intros [Hl H]%only_stops_lookup (o' & Ho' & Hs).
  destruct (lookup_lt_is_Some_2 ns v) as [o Ho].
  { rewrite Hl. by eapply lookup_lt_Some. }
  exists o, o'. split; [done|]. split; [done|].
  destruct (H v o o' Ho Ho') as [->|Hsv]; [|done]. by apply stopped_voice_refl.
Qed.

(** ** [same_registry] *)

Lemma same_registry_refl w : same_registry w w.
Proof. by repeat split. Qed.

Lemma same_registry_trans w1 w2 w3 :
  same_registry w1 w2 → same_registry w2 w3 → same_registry w1 w3.
Proof.
  intros (A1 & B1 & C1 & D1) (A2 & B2 & C2 & D2).
  repeat split; [congruence..|auto].
Qed.

Lemma same_registry_alter (f : SoundOscillator → SoundOscillator) vid w :
  keeps_stopped f → same_registry w (with_nodes (alter f vid (nodes w)) w).
Proof.
  intros Hf. repeat split; simpl; [by rewrite length_alter|].
  intros v. by apply stopped_at_alter.
Qed.

Lemma same_registry_registered w w' :
  same_registry w w' → registered w' = registered w.
Proof. intros (A & B & _). unfold registered. by rewrite A, B. Qed.

Lemma registry_wf_same w w' :
  same_registry w w' → registry_wf w → registry_wf w'.
Proof.
  intros Hs (H1 & H2 & H3). pose proof (same_registry_registered _ _ Hs) as E.
  destruct Hs as (A & B & C & D). unfold registry_wf. rewrite E, C.
  repeat split; [done..|]. intros v Hv Hn. apply D. by apply H3.
Qed.

Lemma held_ascending_same w w' :
  same_registry w w' → held_ascending w → held_ascending w'.
Proof. intros (A & _) H n l. rewrite A. apply H. Qed.

(** ** The setters and the renderer keep the registry *)

Lemma release_same w n rt w' : release w n rt = Some w' → same_registry w w'.
Proof.
  unfold release. destruct (js_get (noteOffList (synth w)) n) as [offl|]; [|done].
  cbn [mbind option_bind].
  destruct (if (0 <? length offl)%nat then offl !! (length offl - 1) else None)
    as [vid|]; [|done].
  cbn [mbind option_bind]. intros [= <-].
  repeat split; simpl; [by rewrite length_alter|].
  intros v. apply stopped_at_alter, keeps_stopped_same.
  apply release_envelope_oscillators.
Qed.

Lemma forEach_same {B} (f : State → B → option State) l w w' :
  (∀ a x a', f a x = Some a' → same_registry a a') →
  forEach f w l = Some w' → same_registry w w'.
Proof.
  intros Hf. revert w. induction l as [|x l IH]; intros w; simpl.
  - intros [= <-]. apply same_registry_refl.
  - destruct (f w x) as [a'|] eqn:E; [|done]. simpl. intros H.
    eapply same_registry_trans; [by eapply Hf|by apply IH].
Qed.

Lemma forEach_inv {B} (P : State → Prop) (f : State → B → option State) l w w' :
  (∀ a x a', P a → f a x = Some a' → P a') →
  P w → forEach f w l = Some w' → P w'.
Proof.
  intros Hf. revert w. induction l as [|x l IH]; intros w Hw; simpl.
  - by intros [= <-].
  - destruct (f w x) as [a'|] eqn:E; [|done]. simpl. apply IH. by eapply Hf.
Qed.

Lemma clearTimeouts_fields w :
  synth (clearTimeouts w) = synth w ∧ nodes (clearTimeouts w) = nodes w ∧
  next_timer (clearTimeouts w) = next_timer w ∧
  clock (clearTimeouts w) = clock w ∧ uncaught (clearTimeouts w) = uncaught w.
Proof.
  unfold clearTimeouts. generalize (timeOutList (synth w)). intros ids.
  revert w. induction ids as [|id ids IH]; intros w; simpl; [done|].
  destruct (IH (clearTimeout id w)) as (-> & -> & -> & -> & ->). done.
Qed.

Lemma geR_retarget_same v n w i w' :
  geR_retarget v n w i = Some w' → same_registry w w'.
Proof.
  unfold geR_retarget.
  destruct (js_get (noteOffList (synth w)) n) as [offl|]; [|done].
  cbn [mbind option_bind]. destruct (offl !! i); [|done].
  cbn [mbind option_bind]. apply release_same.
Qed.

Lemma geR_note_same v w n w' : geR_note v w n = Some w' → same_registry w w'.
Proof.
  unfold geR_note. destruct (js_get (noteOffList (synth w)) n).
  - apply forEach_same. intros a x a'. apply geR_retarget_same.
  - intros [= <-]. apply same_registry_refl.
Qed.

Lemma set_geR_same w v w' : set_geR w v = Some w' → same_registry w w'.
Proof.
  unfold set_geR. intros H.
  apply forEach_same in H; [|intros a x a'; apply geR_note_same].
  eapply same_registry_trans; [|exact H].
  destruct (clearTimeouts_fields
    (with_synth (with_envelope (_geA (synth w)) (_geD (synth w))
                               (_geS (synth w)) v (synth w)) w))
    as (Es & En & _).
  repeat split; simpl; rewrite ?Es, ?En; done.
Qed.

Lemma forEach_total {B} (I : State → Prop) (f : State → B → option State) l w :
  (∀ a x, I a → x ∈ l → ∃ a', f a x = Some a' ∧ I a') →
  I w → ∃ w', forEach f w l = Some w' ∧ I w'.
Proof.
  revert w. induction l as [|x l IH]; intros w Hf Hw; simpl; [eauto|].
  destruct (Hf w x Hw) as (a' & -> & Ha'); [left|]. simpl.
  apply IH; [|done]. intros a y Ha Hy. apply Hf; [done|by right].
Qed.

Lemma set_geR_total w v : is_Some (set_geR w v).
Proof.
  unfold set_geR.
  set (w0 := with_synth _ (clearTimeouts _)).
  destruct (forEach_total
              (fun a => noteOffList (synth a) = noteOffList (synth w0))
              (geR_note v) (getOffNoteIndexes w0) w0) as (w' & -> & _);
    [|done|done].
  intros a n Ha Hn. unfold getOffNoteIndexes in Hn.
  apply list_elem_of_In, filter_In in Hn as [_ Hn].
  apply checkNoteOff_true in Hn as (u & l & Hn).
  unfold geR_note. rewrite Ha, Hn.
  destruct (forEach_total
              (fun b => noteOffList (synth b) = noteOffList (synth w0))
              (geR_retarget v n) (seq 0 (length (u :: l))) a) as (a' & -> & Ha');
    [|done|eauto].
  intros b i Hb Hi. apply elem_of_seq in Hi.
  unfold geR_retarget. rewrite Hb, Hn. cbn [mbind option_bind].
  destruct (lookup_lt_is_Some_2 (u :: l) i) as [vid ->]; [lia|].
  cbn [mbind option_bind].
  destruct (last (u :: l)) as [z|] eqn:Hz; [|by apply last_None in Hz].
  apply last_Some in Hz as [l' Hz].
  erewrite release_eq; [|by rewrite Hb, Hn, Hz].
  eexists. split; [done|]. simpl. done.
Qed.

Lemma forEachHeld_same f w : keeps_stopped f → same_registry w (forEachHeld f w).
Proof.
  intros Hf. repeat split; simpl; [by rewrite length_foldl_alter|].
  intros v. by apply stopped_at_foldl_alter.
Qed.

Lemma geA_retarget_oscillators s ct v o :
  oscillators (geA_retarget s ct v o) = oscillators o.
Proof. unfold geA_retarget. by destruct (negb _). Qed.

Lemma geD_retarget_oscillators s ct v o :
  oscillators (geD_retarget s ct v o) = oscillators o.
Proof. unfold geD_retarget. by destruct (negb _). Qed.

Lemma geS_retarget_oscillators s ct o :
  oscillators (geS_retarget s ct o) = oscillators o.
Proof. unfold geS_retarget. by destruct (Qeq_bool _ _). Qed.

Lemma set_geA_same w v : same_registry w (set_geA w v).
Proof.
  unfold set_geA.
  eapply same_registry_trans;
    [|apply forEachHeld_same, keeps_stopped_same, geA_retarget_oscillators].
  by repeat split.
Qed.

Lemma set_geD_same w v : same_registry w (set_geD w v).
Proof.
  unfold set_geD.
  eapply same_registry_trans;
    [|apply forEachHeld_same, keeps_stopped_same, geD_retarget_oscillators].
  by repeat split.
Qed.

Lemma set_geS_same w v : same_registry w (set_geS w v).
Proof.
  unfold set_geS.
  eapply same_registry_trans;
    [|apply forEachHeld_same, keeps_stopped_same, geS_retarget_oscillators].
  by repeat split.
Qed.

Lemma render_same w vid g a d r : same_registry w (render w vid g a d r).
Proof. apply same_registry_alter, keeps_stopped_same. done. Qed.

Lemma set_sound_fields w p :
  nodes (set_sound w p) = nodes w ∧ timers (set_sound w p) = timers w ∧
  next_timer (set_sound w p) = next_timer w ∧
  clock (set_sound w p) = clock w ∧ uncaught (set_sound w p) = uncaught w ∧
  noteOnList (synth (set_sound w p)) = noteOnList (synth w) ∧
  noteOffList (synth (set_sound w p)) = noteOffList (synth w) ∧
  timeOutList (synth (set_sound w p)) = timeOutList (synth w) ∧
  _geR (synth (set_sound w p)) = _geR (synth w).
Proof. by destruct p. Qed.

Lemma set_sound_same w p : same_registry w (set_sound w p).
Proof. by destruct p. Qed.

(** ** Registry membership is invariant *)

Lemma registry_wf_init : registry_wf init.
Proof.
  repeat split; simpl; [apply NoDup_nil_2|apply Forall_nil_2|]. intros v; lia.
Qed.

Lemma noteOn_nodes w n : ∃ o, nodes (noteOn w n) = nodes w ++ [o].
Proof. unfold noteOn. eexists. reflexivity. Qed.

Lemma registered_noteOn w n :
  registered (noteOn w n) ≡ₚ length (nodes w) :: registered w.
Proof.
  unfold registered. destruct (noteOn_lists w n) as (-> & -> & _).
  destruct (table_voices_js_set (noteOnList (synth w)) n) as (rest & H1 & H2).
  rewrite H2, H1. fold (held w n).
  rewrite <- !app_assoc. simpl.
  rewrite <- Permutation_middle. done.
Qed.

Lemma registry_wf_noteOn w n : registry_wf w → registry_wf (noteOn w n).
Proof.
  intros (H1 & H2 & H3). pose proof (registered_noteOn w n) as E.
  destruct (noteOn_nodes w n) as [o Ho].
  unfold registry_wf. rewrite E, Ho, length_app. simpl.
  split; [|split].
  - apply NoDup_cons. split; [|done]. intros Hin.
    rewrite Forall_forall in H2. apply H2 in Hin. lia.
  - apply Forall_cons. split; [lia|].
    eapply Forall_impl; [exact H2|]. simpl. intros; lia.
  - intros v Hv Hn. rewrite E in Hn. apply not_elem_of_cons in Hn as [Hne Hn].
    apply stopped_at_app, H3; [lia|done].
Qed.

Lemma registered_noteOff w n l v :
  js_get (noteOnList (synth w)) n = Some (l ++ [v]) →
  ∀ w', noteOff w n = Some w' → registered w' ≡ₚ registered w.
Proof.
  intros Hn w'. rewrite (noteOff_eq _ _ _ _ Hn). intros [= <-].
  unfold registered. simpl.
  destruct (table_voices_js_set (noteOnList (synth w)) n) as (r1 & A1 & A2).
  destruct (table_voices_js_set (noteOffList (synth w)) n) as (r2 & B1 & B2).
  rewrite A2, B2, A1, B1, Hn. simpl. fold (releasing w n).
  rewrite <- !app_assoc. apply Permutation_app_head. simpl.
  rewrite (app_assoc r1). rewrite <- Permutation_middle.
  by rewrite <- app_assoc.
Qed.

Lemma registry_wf_noteOff w n w' :
  noteOff w n = Some w' → registry_wf w → registry_wf w'.
Proof.
  intros Hoff (H1 & H2 & H3). destruct (checkNoteOn w n) eqn:E.
  - apply checkNoteOn_true in E as (l & v & E).
    pose proof (registered_noteOff _ _ _ _ E _ Hoff) as P.
    rewrite (noteOff_eq _ _ _ _ E) in Hoff. injection Hoff as <-.
    unfold registry_wf. rewrite P. simpl. rewrite length_alter.
    repeat split; [done..|]. intros u Hu Hnu. rewrite P in Hnu.
    apply stopped_at_alter; [|by apply H3].
    apply keeps_stopped_same, release_envelope_oscillators.
  - rewrite noteOff_noop in Hoff by done. by injection Hoff as <-.
Qed.

Lemma releaseTimeout_cases w n w' :
  releaseTimeout w n = Some w' →
  w' = w ∨
  ∃ vid tl,
    js_get (noteOffList (synth w)) n = Some (vid :: tl) ∧
    w' = mkState
           (with_lists (noteOnList (synth w))
                       (js_set (noteOffList (synth w)) n tl)
                       (drop 1 (timeOutList (synth w))) (synth w))
           (alter stop_oscillators vid (nodes w))
           (timers w) (next_timer w) (clock w) (uncaught w).
Proof.
  unfold releaseTimeout.
  destruct (js_get (noteOffList (synth w)) n) as [[|vid tl]|]; [done| |].
  - intros [= <-]. right. eauto.
  - intros [= <-]. by left.
Qed.

Lemma registered_releaseTimeout w n vid tl :
  js_get (noteOffList (synth w)) n = Some (vid :: tl) →
  registered w ≡ₚ
  vid :: (table_voices (noteOnList (synth w))
          ++ table_voices (js_set (noteOffList (synth w)) n tl)).
Proof.
  intros Hn. unfold registered.
  destruct (table_voices_js_set (noteOffList (synth w)) n) as (r & B1 & B2).
  rewrite B2, B1, Hn. simpl. by rewrite <- Permutation_middle.
Qed.

Lemma registry_wf_releaseTimeout w n w' :
  releaseTimeout w n = Some w' → registry_wf w → registry_wf w'.
Proof.
  intros H (H1 & H2 & H3).
  apply releaseTimeout_cases in H as [->|(vid & tl & Hn & ->)]; [done|].
  pose proof (registered_releaseTimeout _ _ _ _ Hn) as P.
  rewrite P in H1, H2.
  apply NoDup_cons in H1 as [Hvid H1]. apply Forall_cons in H2 as [Hlt H2].
  unfold registry_wf, registered. simpl. rewrite length_alter.
  repeat split; [done..|]. intros u Hu Hnu.
  destruct (decide (u = vid)) as [->|Hne].
  - by apply stopped_at_alter_stop.
  - apply stopped_at_alter; [apply keeps_stopped_stop|]. apply H3; [done|].
    rewrite P. by apply not_elem_of_cons.
Qed.

(** ** Panic *)

(** The two stopping loops of [panic] share their shape: a step either
    finds nothing to stop in slot [i], or stops the slot's voices and
    empties the slot. *)
Section stop_loop.
Variable stepf : State → nat → State.
Variable tbl : State → js_array (list nat).
Hypothesis stepf_cases : ∀ w i,
  (nodes (stepf w i) = nodes w ∧ tbl (stepf w i) = tbl w ∧
   default [] (js_get (tbl w) i) = []) ∨
  (∃ l, js_get (tbl w) i = Some l ∧
        nodes (stepf w i) = stop_voices l (nodes w) ∧
        tbl (stepf w i) = js_set (tbl w) i []).

Lemma stop_loop_length idx w :
  length (nodes (foldl stepf w idx)) = length (nodes w).
Proof.
  revert w. induction idx as [|j idx IH]; intros w; simpl; [done|].
  rewrite IH. destruct (stepf_cases w j) as [(-> & _)|(l & _ & -> & _)];
    [done|apply length_stop_voices].
Qed.

Lemma stop_loop_mono idx w v :
  stopped_at (nodes w) v → stopped_at (nodes (foldl stepf w idx)) v.
Proof.
  revert w. induction idx as [|j idx IH]; intros w H; simpl; [done|].
  apply IH. destruct (stepf_cases w j) as [(-> & _)|(l & _ & -> & _)];
    [done|by apply stopped_at_stop_voices_mono].
Qed.

Lemma stop_loop_stops idx w i v :
  i ∈ idx → v ∈ default [] (js_get (tbl w) i) → v < length (nodes w) →
  stopped_at (nodes (foldl stepf w idx)) v.
Proof.
  revert w. induction idx as [|j idx IH]; intros w Hi Hv Hlt; simpl;
    [by inversion Hi|].
  destruct (decide (i = j)) as [->|Hne].
  - apply stop_loop_mono.
    destruct (stepf_cases w j) as [(_ & _ & E)|(l & E & -> & _)].
    + rewrite E in Hv. by inversion Hv.
    + rewrite E in Hv. by apply stopped_at_stop_voices.
  - apply elem_of_cons in Hi as [?|Hi]; [done|].
    apply IH; [done| |].
    + destruct (stepf_cases w j) as [(_ & -> & _)|(l & _ & _ & ->)];
        [done|]. by rewrite js_get_set_ne.
    + destruct (stepf_cases w j) as [(-> & _)|(l & _ & -> & _)];
        [done|by rewrite length_stop_voices].
Qed.

Lemma stop_loop_only_stops idx w :
  only_stops (nodes w) (nodes (foldl stepf w idx)).
Proof.
  revert w. induction idx as [|j idx IH]; intros w; cbn [foldl];
    [apply only_stops_refl|].
  eapply only_stops_trans; [|apply IH].
  destruct (stepf_cases w j) as [(-> & _)|(l & _ & -> & _)];
    [apply only_stops_refl|apply only_stops_stop_voices].
Qed.
End stop_loop.

Lemma panic_on_cases w i :
  (nodes (panic_on w i) = nodes w ∧
   noteOnList (synth (panic_on w i)) = noteOnList (synth w) ∧
   default [] (js_get (noteOnList (synth w)) i) = []) ∨
  (∃ l, js_get (noteOnList (synth w)) i = Some l ∧
        nodes (panic_on w i) = stop_voices l (nodes w) ∧
        noteOnList (synth (panic_on w i)) = js_set (noteOnList (synth w)) i []).
Proof.
  unfold panic_on. destruct (checkNoteOn w i) eqn:E.
  - destruct (js_get (noteOnList (synth w)) i) as [l|] eqn:El; [|by left].
    right. by exists l.
  - left. by apply checkNoteOn_false in E.
Qed.

Lemma panic_off_cases w i :
  (nodes (panic_off w i) = nodes w ∧
   noteOffList (synth (panic_off w i)) = noteOffList (synth w) ∧
   default [] (js_get (noteOffList (synth w)) i) = []) ∨
  (∃ l, js_get (noteOffList (synth w)) i = Some l ∧
        nodes (panic_off w i) = stop_voices l (nodes w) ∧
        noteOffList (synth (panic_off w i)) = js_set (noteOffList (synth w)) i []).
Proof.
  unfold panic_off, checkNoteOff.
  destruct (js_get (noteOffList (synth w)) i) as [[|v l]|] eqn:El;
    [by left| |by left].
  right. by eexists.
Qed.

Lemma panic_on_loop_fields idx w :
  noteOffList (synth (foldl panic_on w idx)) = noteOffList (synth w) ∧
  timeOutList (synth (foldl panic_on w idx)) = timeOutList (synth w) ∧
  timers (foldl panic_on w idx) = timers w.
Proof.
  revert w. induction idx as [|j idx IH]; intros w; simpl; [done|].
  destruct (IH (panic_on w j)) as (-> & -> & ->).
  unfold panic_on. destruct (checkNoteOn w j); [|done].
  by destruct (js_get (noteOnList (synth w)) j).
Qed.

Lemma panic_off_loop_fields idx w :
  timeOutList (synth (foldl panic_off w idx)) = timeOutList (synth w) ∧
  timers (foldl panic_off w idx) = timers w.
Proof.
  revert w. induction idx as [|j idx IH]; intros w; simpl; [done|].
  destruct (IH (panic_off w j)) as (-> & ->).
  unfold panic_off. destruct (checkNoteOff w j); [|done].
  by destruct (js_get (noteOffList (synth w)) j).
Qed.

Lemma panic_tables w :
  noteOnList (synth (panic w)) = [] ∧ noteOffList (synth (panic w)) = [] ∧
  timeOutList (synth (panic w)) = [].
Proof. done. Qed.

Lemma panic_length w : length (nodes (panic w)) = length (nodes w).
Proof.
  unfold panic. cbn [nodes with_synth].
  destruct (clearTimeouts_fields
    (foldl panic_off
       (foldl panic_on w (seq 0 (length (noteOnList (synth w)))))
       (seq 0 (length (noteOffList
          (synth (foldl panic_on w (seq 0 (length (noteOnList (synth w))))))))))
    ) as (_ & -> & _).
  rewrite (stop_loop_length _ _ panic_off_cases).
  by rewrite (stop_loop_length _ _ panic_on_cases).
Qed.

Lemma panic_mono w v :
  stopped_at (nodes w) v → stopped_at (nodes (panic w)) v.
Proof.
  intros H. unfold panic. cbn [nodes with_synth].
  match goal with |- context [clearTimeouts ?x] =>
    destruct (clearTimeouts_fields x) as (_ & -> & _) end.
  apply (stop_loop_mono _ _ panic_off_cases).
  by apply (stop_loop_mono _ _ panic_on_cases).
Qed.

(** [panic] stops every voice that was held or releasing. *)
Lemma panic_stops w v :
  v ∈ registered w → v < length (nodes w) → stopped_at (nodes (panic w)) v.
Proof.
  intros Hin Hlt. unfold panic. cbn [nodes with_synth].
  match goal with |- context [clearTimeouts ?x] =>
    destruct (clearTimeouts_fields x) as (_ & -> & _) end.
  apply elem_of_app in Hin as [Hin|Hin];
    apply elem_of_table_voices in Hin as (n & l & Hn & Hv).
  - apply (stop_loop_mono _ _ panic_off_cases).
    apply (stop_loop_stops _ _ panic_on_cases _ _ n); [|by rewrite Hn|done].
    apply elem_of_seq. pose proof (js_get_lt _ _ _ Hn). lia.
  - destruct (panic_on_loop_fields (seq 0 (length (noteOnList (synth w)))) w)
      as (Eoff & _).
    apply (stop_loop_stops _ _ panic_off_cases _ _ n).
    + apply elem_of_seq. rewrite Eoff. pose proof (js_get_lt _ _ _ Hn). lia.
    + by rewrite Eoff, Hn.
    + by rewrite (stop_loop_length _ _ panic_on_cases).
Qed.

(** [panic] does nothing to a voice but stop its oscillators. *)
Lemma panic_only_stops w : only_stops (nodes w) (nodes (panic w)).
Proof.
  unfold panic. cbn [nodes with_synth].
  match goal with |- context [clearTimeouts ?x] =>
    destruct (clearTimeouts_fields x) as (_ & -> & _) end.
  eapply only_stops_trans;
    [apply (stop_loop_only_stops _ _ panic_on_cases)
    |apply (stop_loop_only_stops _ _ panic_off_cases)].
Qed.

Lemma registry_wf_panic w : registry_wf w → registry_wf (panic w).
Proof.
  intros (H1 & H2 & H3).
  assert (registered (panic w) = []) as E by done.
  unfold registry_wf. rewrite E, panic_length.
  split; [apply NoDup_nil_2|]. split; [apply Forall_nil_2|].
  intros v Hv _.
  destruct (decide (v ∈ registered w)) as [Hin|Hnin].
  - by apply panic_stops.
  - apply panic_mono. by apply H3.
Qed.

(** ** Timers firing *)

Lemma run_timers_ind (P : State → Prop) :
  (∀ w ts, P w → P (with_timers ts w)) →
  (∀ w, P w → P (uncaught_error w)) →
  (∀ w n w', releaseTimeout w n = Some w' → P w → P w') →
  ∀ fuel deadline w, P w → P (run_timers fuel deadline w).
Proof.
  intros Ht Hu Hr fuel deadline.
  induction fuel as [|fuel IH]; intros w Hw; simpl; [done|].
  destruct (next_due (timers w)) as [[t rest]|]; [|done].
  destruct (Qle_bool (timer_due t) deadline); [|done].
  apply IH.
  destruct (releaseTimeout (with_timers rest w) (timer_note t)) as [w'|] eqn:E.
  - eapply Hr; [exact E|]. by apply Ht.
  - by apply Hu, Ht.
Qed.

Lemma releaseTimeout_only_stops w n w' :
  releaseTimeout w n = Some w' → only_stops (nodes w) (nodes w').
Proof.
  intros [->|(vid & tl & _ & ->)]%releaseTimeout_cases;
    [apply only_stops_refl|apply only_stops_alter].
Qed.

Lemma run_timers_only_stops fuel deadline w :
  only_stops (nodes w) (nodes (run_timers fuel deadline w)).
Proof.
  apply (run_timers_ind (fun a => only_stops (nodes w) (nodes a)));
    [done|done| |apply only_stops_refl].
  intros a n a' H Ha. eapply only_stops_trans; [exact Ha|].
  by eapply releaseTimeout_only_stops.
Qed.

Lemma wait_only_stops w dt : only_stops (nodes w) (nodes (wait w dt)).
Proof.
  unfold wait. destruct (Qle_bool 0 dt); [|apply only_stops_refl].
  apply run_timers_only_stops.
Qed.

Lemma registry_wf_ext w w' :
  synth w' = synth w → nodes w' = nodes w → registry_wf w → registry_wf w'.
Proof.
  intros Es En. unfold registry_wf, registered. by rewrite Es, En.
Qed.

Lemma registry_wf_wait w dt : registry_wf w → registry_wf (wait w dt).
Proof.
  intros Hw. unfold wait. destruct (Qle_bool 0 dt); [|done].
  eapply registry_wf_ext; [reflexivity..|]. cbn [synth nodes].
  apply (registry_wf_ext
           (run_timers (length (timers w)) (clock w + dt) w)); [done..|].
  apply run_timers_ind; [| |apply registry_wf_releaseTimeout|done].
  - intros a ts. by apply registry_wf_ext.
  - intros a. by apply registry_wf_ext.
Qed.

(** ** What the invariant says, slot by slot *)

Lemma table_voices_slot (a : js_array (list nat)) n l :
  js_get a n = Some l →
  ∃ rest, table_voices a ≡ₚ l ++ rest ∧
          ∀ m l', m ≠ n → js_get a m = Some l' → l' ⊆ rest.
Proof.
  intros Hn. destruct (table_voices_js_set a n) as (rest & H1 & H2).
  rewrite Hn in H1. exists rest. split; [done|].
  intros m l' Hne Hm v Hv. specialize (H2 []). simpl in H2. rewrite <- H2.
  apply elem_of_table_voices. exists m, l'. split; [|done].
  by rewrite js_get_set_ne.
Qed.

Lemma NoDup_table_slot (a : js_array (list nat)) n l :
  NoDup (table_voices a) → js_get a n = Some l → NoDup l.
Proof.
  intros Hnd Hn. destruct (table_voices_slot _ _ _ Hn) as (rest & H1 & _).
  rewrite H1 in Hnd. by apply NoDup_app in Hnd as (? & _).
Qed.

Lemma NoDup_table_notes (a : js_array (list nat)) n m l l' v :
  NoDup (table_voices a) → n ≠ m →
  js_get a n = Some l → js_get a m = Some l' → v ∈ l → v ∉ l'.
Proof.
  intros Hnd Hne Hn Hm Hv Hv'.
  destruct (table_voices_slot _ _ _ Hn) as (rest & H1 & H2).
  rewrite H1 in Hnd. apply NoDup_app in Hnd as (_ & Hd & _).
  apply (Hd v Hv). by apply (H2 m l').
Qed.

Lemma elem_of_held w n v :
  v ∈ held w n → v ∈ table_voices (noteOnList (synth w)).
Proof.
  unfold held. intros Hv. apply elem_of_table_voices.
  destruct (js_get (noteOnList (synth w)) n) as [l|] eqn:E;
    [eauto|by inversion Hv].
Qed.

Lemma elem_of_releasing w n v :
  v ∈ releasing w n → v ∈ table_voices (noteOffList (synth w)).
Proof.
  unfold releasing. intros Hv. apply elem_of_table_voices.
  destruct (js_get (noteOffList (synth w)) n) as [l|] eqn:E;
    [eauto|by inversion Hv].
Qed.

(** A voice is in at most one stack, once. *)
Lemma registry_wf_exclusive w :
  registry_wf w →
  (∀ n, NoDup (held w n) ∧ NoDup (releasing w n)) ∧
  (∀ n m v, v ∈ held w n → v ∉ releasing w m) ∧
  (∀ n m v, n ≠ m →
     (v ∈ held w n → v ∉ held w m) ∧
     (v ∈ releasing w n → v ∉ releasing w m)).
Proof.
  intros (Hnd & _). unfold registered in Hnd.
  apply NoDup_app in Hnd as (Hon & Hdisj & Hoff).
  split; [|split].
  - intros n. unfold held, releasing. split.
    + destruct (js_get (noteOnList (synth w)) n) eqn:E; simpl;
        [by apply (NoDup_table_slot (noteOnList (synth w)) n)|apply NoDup_nil_2].
    + destruct (js_get (noteOffList (synth w)) n) eqn:E; simpl;
        [by apply (NoDup_table_slot (noteOffList (synth w)) n)|apply NoDup_nil_2].
  - intros n m v Hv Hv'. apply (Hdisj v).
    + by eapply elem_of_held.
    + by eapply elem_of_releasing.
  - intros n m v Hne. unfold held, releasing. split; intros Hv Hv'.
    + destruct (js_get (noteOnList (synth w)) n) eqn:En; [|by inversion Hv].
      destruct (js_get (noteOnList (synth w)) m) eqn:Em; [|by inversion Hv'].
      by apply (NoDup_table_notes (noteOnList (synth w)) n m l l0 v).
    + destruct (js_get (noteOffList (synth w)) n) eqn:En; [|by inversion Hv].
      destruct (js_get (noteOffList (synth w)) m) eqn:Em; [|by inversion Hv'].
      by apply (NoDup_table_notes (noteOffList (synth w)) n m l l0 v).
Qed.

Lemma registry_wf_step w e : registry_wf w → registry_wf (step w e).
Proof.
  intros Hw. destruct e; simpl.
  - by apply registry_wf_noteOn.
  - destruct (noteOff w note) as [w'|] eqn:E; simpl; [|done].
    by eapply registry_wf_noteOff.
  - by apply registry_wf_panic.
  - eapply registry_wf_same; [apply set_geA_same|done].
  - eapply registry_wf_same; [apply set_geD_same|done].
  - eapply registry_wf_same; [apply set_geS_same|done].
  - destruct (set_geR w v) as [w'|] eqn:E; simpl; [|done].
    eapply registry_wf_same; [by eapply set_geR_same|done].
  - by apply registry_wf_wait.
  - eapply registry_wf_same; [apply render_same|done].
  - eapply registry_wf_same; [apply set_sound_same|done].
Qed.

Lemma registry_wf_run w es : registry_wf w → registry_wf (run w es).
Proof.
  revert w. induction es as [|e es IH]; intros w Hw; simpl; [done|].
  by apply IH, registry_wf_step.
Qed.

(** C5. Registry membership is preserved by every operation: note on,
    note off, panic, the four envelope setters, the plain sound setters,
    timers firing as time passes, and rendering. After the operation no
    voice is referenced
    twice: the stacks have no duplicates, no voice is both held and
    releasing, none sits under two notes; and every created voice that is
    in neither table has had its oscillators stopped. *)
Theorem registry_membership_invariant w e :
  registry_wf w →
  let w' := step w e in
  registry_wf w' ∧
  (∀ n, NoDup (held w' n) ∧ NoDup (releasing w' n)) ∧
  (∀ n m v, v ∈ held w' n → v ∉ releasing w' m) ∧
  (∀ n m v, n ≠ m →
     (v ∈ held w' n → v ∉ held w' m) ∧
     (v ∈ releasing w' n → v ∉ releasing w' m)) ∧
  (∀ v, v < length (nodes w') → v ∉ registered w' → stopped_at (nodes w') v).
Proof.
  intros Hw w'. pose proof (registry_wf_step w e Hw) as Hw'.
  fold w' in Hw'. split; [done|].
  destruct (registry_wf_exclusive w' Hw') as (A & B & C).
  repeat split; try done; try apply A; try (by apply C).
  by destruct Hw' as (_ & _ & ?).
Qed.

Lemma registry_membership_invariant_witness :
  let w := run init [NoteOn 60; NoteOn 60; NoteOff 60] in
  let w' := step w (NoteOff 60) in
  registry_wf w ∧
  registry_wf w' ∧
  (∀ n, NoDup (held w' n) ∧ NoDup (releasing w' n)) ∧
  (∀ n m v, v ∈ held w' n → v ∉ releasing w' m) ∧
  (∀ n m v, n ≠ m →
     (v ∈ held w' n → v ∉ held w' m) ∧
     (v ∈ releasing w' n → v ∉ releasing w' m)) ∧
  (∀ v, v < length (nodes w') → v ∉ registered w' → stopped_at (nodes w') v).
Proof.
  intros w w'.
  assert (registry_wf w) as Hw by apply registry_wf_run, registry_wf_init.
  split; [exact Hw|].
  exact (registry_membership_invariant w (NoteOff 60) Hw).
Defined.

(** ** Held stacks are in creation order *)

Lemma held_ascending_ext w w' :
  noteOnList (synth w') = noteOnList (synth w) →
  held_ascending w → held_ascending w'.
Proof. intros E H n l. rewrite E. apply H. Qed.

Lemma held_ascending_noteOn w n :
  registry_wf w → held_ascending w → held_ascending (noteOn w n).
Proof.
  intros (_ & Hb & _) Ha m l. destruct (noteOn_lists w n) as (-> & _).
  rewrite js_get_set. case_decide as E; [|apply Ha].
  intros [= <-]. apply StronglySorted_app_2.
  - intros u v Hu ->%list_elem_of_singleton.
    rewrite Forall_forall in Hb. apply Hb.
    apply elem_of_app. left. by eapply elem_of_held.
  - unfold held. destruct (js_get (noteOnList (synth w)) n) eqn:En; simpl;
      [by eapply Ha|constructor].
  - repeat constructor.
Qed.

Lemma held_ascending_noteOff w n w' :
  noteOff w n = Some w' → held_ascending w → held_ascending w'.
Proof.
  intros Hoff Ha. destruct (checkNoteOn w n) eqn:E.
  - apply checkNoteOn_true in E as (l & v & E).
    rewrite (noteOff_eq _ _ _ _ E) in Hoff. injection Hoff as <-.
    intros m l'. simpl. rewrite js_get_set. case_decide; [|apply Ha].
    intros [= <-]. by eapply StronglySorted_app_1_l, Ha.
  - rewrite noteOff_noop in Hoff by done. by injection Hoff as <-.
Qed.

Lemma held_ascending_releaseTimeout w n w' :
  releaseTimeout w n = Some w' → held_ascending w → held_ascending w'.
Proof.
  intros H. by apply releaseTimeout_cases in H as [->|(vid & tl & Hn & ->)].
Qed.

Lemma held_ascending_step w e :
  registry_wf w → held_ascending w → held_ascending (step w e).
Proof.
  intros Hw Ha. destruct e; simpl.
  - by apply held_ascending_noteOn.
  - destruct (noteOff w note) as [w'|] eqn:E; simpl; [|done].
    by eapply held_ascending_noteOff.
  - by intros n l.
  - eapply held_ascending_same; [apply set_geA_same|done].
  - eapply held_ascending_same; [apply set_geD_same|done].
  - eapply held_ascending_same; [apply set_geS_same|done].
  - destruct (set_geR w v) as [w'|] eqn:E; simpl; [|done].
    eapply held_ascending_same; [by eapply set_geR_same|done].
  - unfold wait. destruct (Qle_bool 0 dt); [|done].
    apply (held_ascending_ext
             (run_timers (length (timers w)) (clock w + dt) w)); [done|].
    apply run_timers_ind; [| |apply held_ascending_releaseTimeout|done].
    + intros a ts. by apply held_ascending_ext.
    + intros a. by apply held_ascending_ext.
  - eapply held_ascending_same; [apply render_same|done].
  - eapply held_ascending_same; [apply set_sound_same|done].
Qed.

Lemma held_ascending_run es :
  registry_wf (run init es) ∧ held_ascending (run init es).
Proof.
  unfold run. induction es as [|e es IH] using rev_ind.
  - split; [apply registry_wf_init|]. by intros n l.
  - rewrite foldl_app. simpl. destruct IH as [IH1 IH2].
    split; [by apply registry_wf_step|by apply held_ascending_step].
Qed.

(** C3. Voice stacks are LIFO. Voices are numbered in creation order. In
    any state the synthesizer can reach, if note [n] has a held voice
    then [noteOff(n)] returns normally, the held stack of [n] was
    [l ++ [v]] with [v] created after every voice of [l], it becomes [l],
    and [v] is appended to the releasing stack of [n]. In particular,
    after noteOn(60), noteOn(60), noteOff(60) the held stack of 60 is the
    first voice alone and its releasing stack the second voice alone. *)
Theorem noteOff_lifo es n :
  (let w := run init es in
   held w n ≠ [] →
   ∃ w' l v,
     noteOff w n = Some w' ∧
     held w n = l ++ [v] ∧ (∀ u, u ∈ l → u < v) ∧
     held w' n = l ∧
     releasing w' n = releasing w n ++ [v]) ∧
  (let w := run init [NoteOn 60; NoteOn 60; NoteOff 60] in
   length (nodes w) = 2 ∧ held w 60 = [0] ∧ releasing w 60 = [1]).
Proof.
  split; [|by vm_compute].
  intros w Hne.
  destruct (checkNoteOn w n) eqn:E; [|by apply checkNoteOn_false in E].
  apply checkNoteOn_true in E as (l & v & E).
  eexists _, l, v. split; [by apply noteOff_eq|].
  split; [unfold held; by rewrite E|]. split.
  - destruct (held_ascending_run es) as [_ Ha]. apply Ha in E.
    intros u Hu. eapply StronglySorted_app_1_elem_of; [exact E|done|].
    by apply list_elem_of_singleton.
  - unfold held, releasing. simpl. by rewrite !js_get_set_eq.
Qed.

Lemma noteOff_lifo_witness :
  let w := run init [NoteOn 60; NoteOn 64; NoteOn 60] in
  held w 60 ≠ [] ∧
  ∃ w' l v,
    noteOff w 60 = Some w' ∧
    held w 60 = l ++ [v] ∧ (∀ u, u ∈ l → u < v) ∧
    held w' 60 = l ∧
    releasing w' 60 = releasing w 60 ++ [v].
Proof.
  intros w.
  assert (held w 60 ≠ []) as Hne by (vm_compute; discriminate).
  split; [exact Hne|].
  exact (proj1 (noteOff_lifo [NoteOn 60; NoteOn 64; NoteOn 60] 60) Hne).
Defined.

(** ** Timers, while only notes are played *)

Lemma next_due_elem ts m rest : next_due ts = Some (m, rest) → m ∈ ts.
Proof.
  revert m rest. induction ts as [|t ts IH]; intros m rest; simpl; [done|].
  destruct (next_due ts) as [[m' rest']|].
  - destruct (Qle_bool (timer_due t) (timer_due m')); intros [= <- <-].
    + by left.
    + right. by eapply IH.
  - intros [= <- <-]. by left.
Qed.

Lemma next_due_sorted t ts :
  StronglySorted (fun t u => (timer_due t <= timer_due u)%Q) (t :: ts) →
  next_due (t :: ts) = Some (t, ts).
Proof.
  intros [Hall _]%StronglySorted_cons. simpl.
  destruct (next_due ts) as [[m rest]|] eqn:E.
  - apply next_due_elem in E. rewrite Forall_forall in Hall.
    apply Hall, Qle_bool_iff in E. by rewrite E.
  - destruct ts as [|u ts]; [done|]. simpl in E.
    destruct (next_due ts) as [[m' rest']|]; [|done].
    by destruct (Qle_bool (timer_due u) (timer_due m')).
Qed.

Lemma timers_fifo_ext w w' :
  timeOutList (synth w') = timeOutList (synth w) →
  noteOffList (synth w') = noteOffList (synth w) →
  _geR (synth w') = _geR (synth w) →
  timers w' = timers w → clock w' = clock w →
  timers_fifo w → timers_fifo w'.
Proof.
  intros E1 E2 E3 E4 E5. unfold timers_fifo, releasing.
  by rewrite E1, E2, E3, E4, E5.
Qed.

Lemma timers_fifo_init : timers_fifo init.
Proof.
  unfold timers_fifo. simpl.
  split; [done|]. split; [constructor|]. split; [constructor|].
  split; [done|]. intros n. done.
Qed.

Lemma timers_fifo_noteOn w n : timers_fifo w → timers_fifo (noteOn w n).
Proof. by apply timers_fifo_ext. Qed.

Lemma timers_fifo_noteOff w n w' :
  noteOff w n = Some w' → timers_fifo w → timers_fifo w'.
Proof.
  intros Hoff (T1 & T2 & T3 & T4 & T5). destruct (checkNoteOn w n) eqn:E.
  - apply checkNoteOn_true in E as (l & v & E).
    rewrite (noteOff_eq _ _ _ _ E) in Hoff. injection Hoff as <-.
    assert (Qmax 0 (_geR (synth w)) == _geR (synth w))%Q as Hmax
      by by apply Q.max_r.
    unfold timers_fifo, releasing. simpl. split; [|split; [|split; [|split]]].
    + by rewrite map_app, T1.
    + apply StronglySorted_app_2; [|done|repeat constructor].
      intros t u Ht ->%list_elem_of_singleton. simpl.
      rewrite Forall_forall in T3. specialize (T3 t Ht). by rewrite Hmax.
    + apply Forall_app. split; [done|]. repeat constructor. simpl.
      rewrite Hmax. apply Qle_refl.
    + done.
    + intros m. rewrite List.filter_app, length_app. simpl.
      rewrite js_get_set. specialize (T5 m). unfold releasing in T5.
      case_decide as Em.
      * subst m. rewrite Nat.eqb_refl. simpl. rewrite length_app. simpl. lia.
      * apply Nat.eqb_neq in Em. rewrite Em. simpl. lia.
  - rewrite noteOff_noop in Hoff by done. by injection Hoff as <-.
Qed.

(** The timer at the head of a FIFO list fires: its callback removes the
    oldest releasing voice of its note and its own id from
    [timeOutList]. *)
Lemma timers_fifo_fire w t ts :
  timers w = t :: ts → timers_fifo w →
  ∃ w', releaseTimeout (with_timers ts w) (timer_note t) = Some w' ∧
        timers w' = ts ∧ clock w' = clock w ∧ timers_fifo w'.
Proof.
  intros Et (T1 & T2 & T3 & T4 & T5). rewrite Et in *.
  pose proof (T5 (timer_note t)) as Hc. simpl in Hc.
  rewrite Nat.eqb_refl in Hc. simpl in Hc. unfold releasing in Hc.
  destruct (js_get (noteOffList (synth w)) (timer_note t)) as [[|vid tl]|] eqn:En;
    simpl in Hc; [lia| |lia].
  unfold releaseTimeout. simpl. rewrite En. simpl.
  eexists. split; [done|]. split; [done|]. split; [done|].
  apply StronglySorted_cons in T2 as [_ T2]. apply Forall_cons in T3 as [_ T3].
  unfold timers_fifo, releasing. simpl.
  split; [by rewrite T1|]. split; [done|]. split; [done|]. split; [done|].
  intros m. specialize (T5 m). simpl in T5. unfold releasing in T5.
  rewrite js_get_set. case_decide as Em.
  - subst m. rewrite Nat.eqb_refl, En in T5. simpl in *. rewrite drop_0. lia.
  - destruct (timer_note t =? m)%nat eqn:Eb;
      [by apply Nat.eqb_eq in Eb|done].
Qed.

Lemma timers_fifo_run_timers fuel deadline w :
  timers_fifo w →
  timers_fifo (run_timers fuel deadline w) ∧
  clock (run_timers fuel deadline w) = clock w.
Proof.
  revert w. induction fuel as [|fuel IH]; intros w Hw; cbn [run_timers]; [done|].
  destruct (timers w) as [|t ts] eqn:Et; [done|].
  rewrite next_due_sorted by (rewrite <- Et; apply Hw).
  destruct (Qle_bool (timer_due t) deadline); [|done].
  destruct (timers_fifo_fire w t ts Et Hw) as (w' & -> & _ & Ec & Hw').
  destruct (IH w' Hw') as [H1 H2]. split; [done|]. by rewrite H2.
Qed.

Lemma Qle_later (a b d g : Q) :
  (0 <= d)%Q → (a <= b + g)%Q → (a <= b + d + g)%Q.
Proof. intros. Lqa.lra. Qed.

Lemma timers_fifo_wait w dt : timers_fifo w → timers_fifo (wait w dt).
Proof.
  intros Hw. unfold wait. destruct (Qle_bool 0 dt) eqn:Edt; [|done].
  apply Qle_bool_iff in Edt.
  destruct (timers_fifo_run_timers (length (timers w)) (clock w + dt) w Hw)
    as [(T1 & T2 & T3 & T4 & T5) Ec].
  unfold timers_fifo, releasing. cbn [synth timers clock].
  split; [done|]. split; [done|]. split; [|by split].
  eapply Forall_impl; [exact T3|]. cbn beta. intros t Ht. rewrite Ec in Ht.
  by apply Qle_later.
Qed.

Lemma note_events_play es :
  forallb is_note_event es = true → forallb is_play_event es = true.
Proof.
  induction es as [|e es IH]; [done|]. cbn [forallb].
  intros [He Hes]%andb_prop. rewrite (IH Hes). by destruct e.
Qed.

Lemma timers_fifo_run es :
  forallb is_play_event es = true → timers_fifo (run init es).
Proof.
  unfold run. induction es as [|e es IH] using rev_ind; intros Hes.
  - apply timers_fifo_init.
  - rewrite forallb_app in Hes. apply andb_prop in Hes as [Hes He].
    rewrite foldl_app. cbn [foldl]. specialize (IH Hes).
    destruct e as [n|n| | | | | |dt| |p]; try discriminate He; cbn [step].
    + by apply timers_fifo_noteOn.
    + destruct (noteOff _ n) as [w'|] eqn:E; cbn [default]; [|done].
      by eapply timers_fifo_noteOff.
    + by apply timers_fifo_wait.
    + destruct (set_sound_fields (foldl step init es) p)
        as (_ & Et & _ & Ec & _ & _ & Eoff & El & Er).
      by apply (timers_fifo_ext (foldl step init es)).
Qed.

(** [clearTimeout] over a list of ids leaves only timers with other ids. *)
Lemma clearTimeouts_timers ids w t :
  t ∈ timers (foldl (fun w id => clearTimeout id w) w ids) →
  t ∈ timers w ∧ timer_id t ∉ ids.
Proof.
  revert w. induction ids as [|id ids IH]; intros w; simpl.
  - intros H. split; [done|]. by intros ?%elem_of_nil.
  - intros [H1 H2]%IH. simpl in H1.
    apply list_elem_of_In, filter_In in H1 as [H1 Hne].
    split; [by apply list_elem_of_In|].
    apply not_elem_of_cons. split; [|done].
    apply negb_true_iff, Nat.eqb_neq in Hne. done.
Qed.

Lemma clearTimeouts_all w :
  timeOutList (synth w) = map timer_id (timers w) →
  timers (clearTimeouts w) = [].
Proof.
  intros E. unfold clearTimeouts.
  destruct (timers (foldl _ w _)) as [|t ts] eqn:Et; [done|].
  destruct (clearTimeouts_timers (timeOutList (synth w)) w t) as [H1 H2].
  { rewrite Et. by left. }
  exfalso. apply H2. rewrite E. by apply list_elem_of_fmap_2.
Qed.

Lemma panic_timers w :
  timeOutList (synth w) = map timer_id (timers w) → timers (panic w) = [].
Proof.
  intros E. unfold panic. cbn [timers with_synth].
  apply clearTimeouts_all.
  destruct (panic_off_loop_fields
    (seq 0 (length (noteOffList
       (synth (foldl panic_on w (seq 0 (length (noteOnList (synth w)))))))))
    (foldl panic_on w (seq 0 (length (noteOnList (synth w)))))) as (-> & ->).
  by destruct (panic_on_loop_fields (seq 0 (length (noteOnList (synth w)))) w)
    as (_ & -> & ->).
Qed.

(** ** The unison spread *)

Ltac divmod_lia := zify; Z.div_mod_to_equations; lia.

Lemma evens_at_succ_odd i : 0 < i → i mod 2 = 1 → evens_at (S i) = evens_at i.
Proof. intros H0 H1. unfold evens_at. f_equal. divmod_lia. Qed.

Lemma evens_at_succ_even i :
  0 < i → i mod 2 ≠ 1 → evens_at (S i) = (evens_at i + 1)%Z.
Proof. intros H0 H1. unfold evens_at. divmod_lia. Qed.

Lemma setType_loop_spec n i d acc :
  setType_loop n i (evens_at i) d acc
  = acc ++ map (fun j => with_detune (detune_at d j) createOscillator) (seq i n).
Proof.
  revert i acc. induction n as [|n IH]; intros i acc; cbn [setType_loop seq map].
  - by rewrite app_nil_r.
  - unfold detune_at at 1.
    destruct (0 <? i)%nat eqn:H0.
    + pose proof (proj1 (Nat.ltb_lt _ _) H0) as H0'.
      destruct (i mod 2 =? 1)%nat eqn:H1.
      * pose proof (proj1 (Nat.eqb_eq _ _) H1) as H1'.
        rewrite <- (evens_at_succ_odd i) at 1 by done.
        by rewrite IH, <- app_assoc.
      * pose proof (proj1 (Nat.eqb_neq _ _) H1) as H1'.
        rewrite <- (evens_at_succ_even i) by done.
        by rewrite IH, <- app_assoc.
    + apply Nat.ltb_ge in H0. assert (i = 0) as -> by lia.
      change (evens_at 0) with (evens_at 1).
      by rewrite IH, <- app_assoc.
Qed.

Lemma setType_spec v d :
  setType v d
  = map (fun j => with_detune (detune_at d j) createOscillator) (seq 0 v).
Proof. unfold setType. change 1%Z with (evens_at 0). apply setType_loop_spec. Qed.

Lemma createSOsc_oscillators v d oType oVol f fType fF fQ :
  oscillators (createSOsc v d oType oVol f fType fF fQ)
  = map (fun j => mkOsc oType f (detune_at d j) true true false) (seq 0 v).
Proof.
  unfold createSOsc. simpl. rewrite setType_spec.
  rewrite !map_map. done.
Qed.

(** C7. For every voice count [v] and detune [d], the voice built by
    [createSOsc] has exactly [v] oscillators; oscillator 0 is undetuned,
    and for every k >= 1 oscillator 2k-1 carries +k*d and oscillator 2k
    carries -k*d. *)
Theorem createSOsc_detune_pattern v d oType oVol f fType fF fQ :
  let so := createSOsc v d oType oVol f fType fF fQ in
  length (oscillators so) = v ∧
  (1 ≤ v → osc_detune <$> oscillators so !! 0 = Some 0%Q) ∧
  ∀ k, 1 ≤ k →
    (2 * k - 1 < v →
       ∃ o, oscillators so !! (2 * k - 1) = Some o ∧
            (osc_detune o == inject_Z (Z.of_nat k) * d)%Q) ∧
    (2 * k < v →
       ∃ o, oscillators so !! (2 * k) = Some o ∧
            (osc_detune o == - (inject_Z (Z.of_nat k) * d))%Q).
Proof.
  intros so. subst so. rewrite createSOsc_oscillators.
  split; [by rewrite length_map, length_seq|].
  split.
  { intros Hv. rewrite list_lookup_fmap, lookup_seq_lt by lia. done. }
  intros k Hk. split; intros Hlt.
  - eexists. rewrite list_lookup_fmap, lookup_seq_lt by lia.
    split; [done|]. cbn [osc_detune Nat.add]. unfold detune_at.
    assert ((0 <? 2 * k - 1)%nat = true) as -> by (apply Nat.ltb_lt; lia).
    assert ((2 * k - 1) mod 2 = 1) as -> by divmod_lia.
    cbn [Nat.eqb]. unfold evens_at.
    replace (Nat.max 1 ((2 * k - 1 + 1) / 2)) with k by divmod_lia. ring.
  - eexists. rewrite list_lookup_fmap, lookup_seq_lt by lia.
    split; [done|]. cbn [osc_detune Nat.add]. unfold detune_at.
    assert ((0 <? 2 * k)%nat = true) as -> by (apply Nat.ltb_lt; lia).
    assert ((2 * k) mod 2 = 0) as -> by divmod_lia.
    cbn [Nat.eqb]. unfold evens_at.
    replace (Nat.max 1 ((2 * k + 1) / 2)) with k by divmod_lia.
    rewrite inject_Z_opp. ring.
Qed.

(** A five-oscillator voice detuned by 10 cents: 0, +10, -10, +20, -20. *)
Lemma createSOsc_detune_pattern_witness :
  let so := createSOsc 5 10 sine 1 440 lowpass 24000 1 in
  1 ≤ 2 ∧ 2 * 2 - 1 < 5 ∧ 2 * 2 < 5 ∧
  (∃ o, oscillators so !! (2 * 2 - 1) = Some o ∧
        (osc_detune o == inject_Z (Z.of_nat 2) * 10)%Q) ∧
  (∃ o, oscillators so !! (2 * 2) = Some o ∧
        (osc_detune o == - (inject_Z (Z.of_nat 2) * 10))%Q).
Proof.
  intros so.
  pose proof (createSOsc_detune_pattern 5 10 sine 1 440%R lowpass 24000 1)
    as (_ & _ & H).
  destruct (H 2 ltac:(lia)) as [H1 H2].
  split; [lia|]. split; [lia|]. split; [lia|].
  split; [apply H1; lia | apply H2; lia].
Defined.

(** ** Frequency of a note *)

Lemma noteFreq_69 : noteFreq 69 = 440%R.
Proof.
  unfold noteFreq. rewrite INR_IZR_INZ.
  change (Z.of_nat 69) with 69%Z.
  replace ((69 - 69) / 12)%R with 0%R by Lra.lra.
  rewrite Rpower_O by Lra.lra. Lra.lra.
Qed.

Lemma noteFreq_81 : noteFreq 81 = 880%R.
Proof.
  unfold noteFreq. rewrite INR_IZR_INZ.
  change (Z.of_nat 81) with 81%Z.
  replace ((81 - 69) / 12)%R with 1%R by Lra.lra.
  rewrite Rpower_1 by Lra.lra. Lra.lra.
Qed.

Lemma noteOn_created w note :
  ∃ o, nodes (noteOn w note) !! length (nodes w) = Some o ∧
       oscillators o =
       map (fun j => mkOsc (_oscType (synth w)) (noteFreq note)
                           (detune_at (_detune (synth w)) j) true true false)
           (seq 0 (_voices (synth w))).
Proof.
  unfold noteOn. eexists. cbn [nodes]. split.
  - rewrite lookup_app_r by lia. by rewrite Nat.sub_diag.
  - cbn [oscillators connect_destination with_progress with_gain].
    apply createSOsc_oscillators.
Qed.

(** C6. [noteOn(note)] creates a voice, pushed on top of the held stack of
    [note], all of whose oscillators run at 440 * 2^((note-69)/12) Hz
    (with real-number arithmetic for [Math.pow]); note 69 gives exactly
    440 Hz and note 81 gives 880 Hz, well within 1e-6. *)
Theorem noteOn_frequency w note :
  (∃ o, last (held (noteOn w note) note) = Some (length (nodes w)) ∧
        nodes (noteOn w note) !! length (nodes w) = Some o ∧
        length (oscillators o) = _voices (synth w) ∧
        Forall (fun x => osc_frequency x
                         = (440 * Rpower 2 ((INR note - 69) / 12))%R)
               (oscillators o)) ∧
  noteFreq 69 = 440%R ∧
  (Rabs (noteFreq 81 - 880) <= 1 / 1000000)%R.
Proof.
  split; [|split].
  - destruct (noteOn_created w note) as (o & Ho & Eo). exists o.
    split; [|split; [done|]].
    + destruct (noteOn_lists w note) as (E & _). unfold held at 1.
      rewrite E, js_get_set_eq. simpl. apply last_snoc.
    + rewrite Eo, length_map, length_seq. split; [done|].
      apply Forall_fmap, Forall_true. done.
  - apply noteFreq_69.
  - rewrite noteFreq_81. replace (880 - 880)%R with 0%R by Lra.lra.
    rewrite Rabs_R0. Lra.lra.
Qed.

(** ** Referenced voices are sounding *)

Lemma running_at_app ns ns' v : running_at ns v → running_at (ns ++ ns') v.
Proof.
  intros (o & Ho & Hs). exists o. split; [|done].
  rewrite lookup_app_l; [done|]. by eapply lookup_lt_Some.
Qed.

Lemma running_at_alter f vid ns v :
  (∀ o, oscillators (f o) = oscillators o) →
  running_at ns v → running_at (alter f vid ns) v.
Proof.
  intros Hf (o & Ho & Hs). destruct (decide (vid = v)) as [->|Hne].
  - exists (f o). rewrite list_lookup_alter_eq, Ho. split; [done|]. by rewrite Hf.
  - exists o. by rewrite list_lookup_alter_ne.
Qed.

Lemma registered_running_ext w w' :
  noteOnList (synth w') = noteOnList (synth w) →
  noteOffList (synth w') = noteOffList (synth w) →
  nodes w' = nodes w → registered_running w → registered_running w'.
Proof.
  intros E1 E2 E3. unfold registered_running, registered.
  by rewrite E1, E2, E3.
Qed.

Lemma registered_running_noteOn w n :
  registered_running w → registered_running (noteOn w n).
Proof.
  intros H v Hv. rewrite registered_noteOn in Hv.
  apply elem_of_cons in Hv as [->|Hv].
  - destruct (noteOn_created w n) as (o & Ho & Eo). exists o.
    split; [done|]. rewrite Eo. apply Forall_fmap, Forall_true. done.
  - destruct (noteOn_nodes w n) as [o ->]. by apply running_at_app, H.
Qed.

Lemma registered_running_noteOff w n w' :
  noteOff w n = Some w' → registered_running w → registered_running w'.
Proof.
  intros Hoff H. destruct (checkNoteOn w n) eqn:E.
  - apply checkNoteOn_true in E as (l & u & E).
    pose proof (registered_noteOff _ _ _ _ E _ Hoff) as P.
    rewrite (noteOff_eq _ _ _ _ E) in Hoff. injection Hoff as <-.
    intros v Hv. rewrite P in Hv. cbn [nodes].
    apply running_at_alter; [apply release_envelope_oscillators|by apply H].
  - rewrite noteOff_noop in Hoff by done. by injection Hoff as <-.
Qed.

Lemma registered_running_releaseTimeout w n w' :
  releaseTimeout w n = Some w' → registry_wf w →
  registered_running w → registered_running w'.
Proof.
  intros Hr (Hnd & _) H.
  apply releaseTimeout_cases in Hr as [->|(vid & tl & Hn & ->)]; [done|].
  pose proof (registered_releaseTimeout _ _ _ _ Hn) as P.
  rewrite P in Hnd. apply NoDup_cons in Hnd as [Hvid _].
  intros v Hv. unfold registered in Hv. cbn [synth noteOnList noteOffList with_lists] in Hv.
  destruct (H v) as (o & Ho & Hs).
  { rewrite P. by right. }
  exists o. cbn [nodes]. rewrite list_lookup_alter_ne; [done|].
  intros ->. by apply Hvid.
Qed.

Lemma registered_running_wait w dt :
  registry_wf w → registered_running w → registered_running (wait w dt).
Proof.
  intros Hw Hr. unfold wait. destruct (Qle_bool 0 dt); [|done].
  apply (registered_running_ext
           (run_timers (length (timers w)) (clock w + dt) w)); [done..|].
  apply (run_timers_ind (fun a => registry_wf a ∧ registered_running a));
    [| | |done].
  - intros a ts [A B]. split; [by apply (registry_wf_ext a)|].
    by apply (registered_running_ext a).
  - intros a [A B]. split; [by apply (registry_wf_ext a)|].
    by apply (registered_running_ext a).
  - intros a m a' E [A B].
    split; [by eapply registry_wf_releaseTimeout|].
    by eapply registered_running_releaseTimeout.
Qed.

Lemma registered_running_run es :
  forallb is_play_event es = true → registered_running (run init es).
Proof.
  unfold run. induction es as [|e es IH] using rev_ind; intros Hes.
  - intros v Hv. by apply elem_of_nil in Hv.
  - rewrite forallb_app in Hes. apply andb_prop in Hes as [Hes He].
    rewrite foldl_app. cbn [foldl]. specialize (IH Hes).
    pose proof (registry_wf_run init es registry_wf_init) as Hw. unfold run in Hw.
    destruct e as [n|n| | | | | |dt| |p]; try discriminate He; cbn [step].
    + by apply registered_running_noteOn.
    + destruct (noteOff _ n) as [w'|] eqn:E; cbn [default]; [|done].
      by eapply registered_running_noteOff.
    + by apply registered_running_wait.
    + destruct (set_sound_fields (foldl step init es) p)
        as (En & _ & _ & _ & _ & Eon & Eoff & _).
      by apply (registered_running_ext (foldl step init es)).
Qed.

(** C2. After any finite sequence of [noteOn] and [noteOff] calls, with
    any amount of time passing and any sound parameter (voices per note,
    detune, oscillator and filter settings, volume) set between them,
    every held and every releasing voice is sounding, and [panic()] stops
    every oscillator of each of them: the voice keeps the oscillators it
    had, each one now stopped and otherwise as it was, and nothing else
    of the voice changes; no voice is created or lost. [panic()] empties
    both tables and the timer list and leaves no timer pending, so that
    waiting afterwards runs no callback; tables and timers are those of a
    freshly constructed synthesizer. *)
Theorem panic_total es :
  forallb is_play_event es = true →
  let w := run init es in
  let w' := panic w in
  (∀ v, v ∈ registered w →
     running_at (nodes w) v ∧ stops (nodes w) (nodes w') v) ∧
  only_stops (nodes w) (nodes w') ∧
  (∀ n, held w' n = [] ∧ releasing w' n = []) ∧
  (noteOnList (synth w'), noteOffList (synth w'), timeOutList (synth w'),
   timers w')
  = (noteOnList (synth init), noteOffList (synth init),
     timeOutList (synth init), timers init) ∧
  (∀ dt, (0 <= dt)%Q →
     wait w' dt = mkState (synth w') (nodes w') [] (next_timer w')
                          (clock w' + dt) (uncaught w')).
Proof.
  intros Hes w w'.
  pose proof (timers_fifo_run es Hes) as (T1 & _). fold w in T1.
  destruct (held_ascending_run es) as [(_ & Hb & _) _]. fold w in Hb.
  pose proof (panic_timers w T1) as Et. fold w' in Et.
  split; [|split; [|split; [|split]]].
  - intros v Hv. split; [by apply registered_running_run|].
    apply only_stops_stops; [apply panic_only_stops|].
    apply panic_stops; [done|]. rewrite Forall_forall in Hb. by apply Hb.
  - apply panic_only_stops.
  - done.
  - by rewrite Et.
  - intros dt Hdt. unfold wait. apply Qle_bool_iff in Hdt. rewrite Hdt, Et.
    cbn [length run_timers]. by rewrite Et.
Qed.

Lemma panic_total_witness :
  let es := [SetSound (Voices 3); SetSound (Detune 10); NoteOn 60; NoteOn 64;
             NoteOff 64; Wait 500; NoteOn 67; NoteOff 60; Wait 600] in
  let w := run init es in
  let w' := panic w in
  forallb is_play_event es = true ∧
  held w 67 = [2] ∧ releasing w 60 = [0] ∧ map timer_note (timers w) = [60] ∧
  map (fun o => length (oscillators o)) (nodes w) = [3; 3; 3] ∧
  (∀ v, v ∈ registered w →
     running_at (nodes w) v ∧ stops (nodes w) (nodes w') v) ∧
  only_stops (nodes w) (nodes w') ∧
  (∀ n, held w' n = [] ∧ releasing w' n = []) ∧
  (noteOnList (synth w'), noteOffList (synth w'), timeOutList (synth w'),
   timers w')
  = (noteOnList (synth init), noteOffList (synth init),
     timeOutList (synth init), timers init) ∧
  (∀ dt, (0 <= dt)%Q →
     wait w' dt = mkState (synth w') (nodes w') [] (next_timer w')
                          (clock w' + dt) (uncaught w')).
Proof.
  intros es w w'. split; [reflexivity|].
  split; [by vm_compute|]. split; [by vm_compute|]. split; [by vm_compute|].
  split; [by vm_compute|].
  exact (panic_total es eq_refl).
Defined.

(** ** Note statistics *)

Lemma getNoteStatInfo_ignores_note w n m :
  getNoteStatInfo w n = getNoteStatInfo w m.
Proof. done. Qed.

(** The earlier revision's [getNoteInfo] does count the voices of the
    queried note. *)
Lemma getNoteInfo_counts w n :
  getNoteInfo w n = mkInfo (length (held w n)) (length (releasing w n)).
Proof.
  unfold getNoteInfo, held, releasing.
  destruct (js_get (noteOnList (synth w)) n) as [[|? ?]|],
           (js_get (noteOffList (synth w)) n) as [[|? ?]|]; done.
Qed.

(** C9 (the code departs from the claim). With two voices held and one
    releasing on note 60 and nothing on note 10, [getNoteStatInfo]
    answers "1 on, 1 releasing" for both notes: it counts the notes that
    have voices, not the voices of the queried note. *)
Theorem getNoteStatInfo_counts_notes :
  let w := run init [NoteOn 60; NoteOn 60; NoteOn 60; NoteOff 60] in
  length (held w 60) = 2 ∧ length (releasing w 60) = 1 ∧
  getNoteStatInfo w 60 = mkInfo 1 1 ∧
  length (held w 10) = 0 ∧ length (releasing w 10) = 0 ∧
  getNoteStatInfo w 10 = mkInfo 1 1 ∧
  getNoteInfo w 60 = mkInfo 2 1 ∧ getNoteInfo w 10 = mkInfo 0 0.
Proof. by vm_compute. Qed.

(** ** Retargeting the attack *)

(** What the loop body of [set geA] schedules for a voice whose attack
    progress reads [p]: the progress ramp ends [value * p] ms ahead, and
    so does the gain's attack ramp when that duration is positive. *)
Lemma geA_retarget_schedule s ct v o :
  let p := value (attackP (envelopeProgress o)) in
  let o' := geA_retarget s ct v o in
  last (events (attackP (envelopeProgress o')))
    = Some (LinearRampToValueAtTime 0 (ct + v * p / 1000)) ∧
  ((0 < v * p)%Q →
     ExponentialRampToValueAtTime (993 # 1000) (ct + v * p / 1000)
       ∈ events (gain o')).
Proof.
  intros p o'. subst o' p. unfold geA_retarget.
  set (m := (v * value (attackP (envelopeProgress
               (on_decayP (cancelAndHold true ct)
                  (on_attackP (cancelAndHold true ct) o)))))%Q).
  change m with (v * value (attackP (envelopeProgress o)))%Q.
  clear m. set (m := (v * value (attackP (envelopeProgress o)))%Q).
  split.
  - destruct (negb (Qle_bool m 0)); apply last_snoc.
  - intros Hpos.
    assert (Qle_bool m 0 = false) as ->.
    { apply not_true_is_false. intros H%Qle_bool_iff.
      exact (Qlt_not_le _ _ Hpos H). }
    cbn [negb on_gain gain with_gain attack decay cancelAndHold
         exponentialRampToValueAtTime linearRampToValueAtTime schedule
         events value].
    rewrite !elem_of_app. left. left. right. by left.
Qed.

Lemma foldl_alter_lookup (f : SoundOscillator → SoundOscillator)
    (l : list nat) (ns : list SoundOscillator) (v : nat) :
  NoDup l →
  foldl (fun ns vid => alter f vid ns) ns l !! v
  = if decide (v ∈ l) then f <$> ns !! v else ns !! v.
Proof.
  revert ns. induction l as [|x l IH]; intros ns Hnd; cbn [foldl].
  - rewrite decide_False; [done|]. by intros ?%elem_of_nil.
  - apply NoDup_cons in Hnd as [Hx Hnd]. rewrite IH by done.
    destruct (decide (v = x)) as [->|Hne].
    + rewrite decide_False by done. rewrite decide_True by by left.
      apply list_lookup_alter_eq.
    + rewrite list_lookup_alter_ne by done.
      destruct (decide (v ∈ l)) as [Hin|Hnin].
      * rewrite decide_True by by right. done.
      * rewrite decide_False; [done|]. by apply not_elem_of_cons.
Qed.

(** The setters' double loop visits the voices of the held table, in
    table order. *)
Lemma held_voices_table w :
  held_voices w = table_voices (noteOnList (synth w)).
Proof.
  unfold held_voices, getOnNoteIndexes, checkNoteOn.
  generalize (noteOnList (synth w)). intros a.
  induction a as [|s a IH] using rev_ind; [done|].
  rewrite length_app, Nat.add_comm. cbn [length Nat.add].
  rewrite seq_S, List.filter_app, flat_map_app, table_voices_app. f_equal.
  - rewrite <- IH. rewrite !flat_map_concat_map. f_equal.
    assert (∀ i, i < length a → js_get (a ++ [s]) i = js_get a i) as Hget.
    { intros i Hi. unfold js_get. by rewrite lookup_app_l. }
    rewrite (List.filter_ext_in _
      (fun i => match js_get a i with
                | Some l => (0 <? length l)%nat | None => false end)).
    + apply map_ext_in. intros i [Hi _]%filter_In. apply in_seq in Hi.
      rewrite Hget; [done|lia].
    + intros i Hi. apply in_seq in Hi. rewrite Hget; [done|lia].
  - cbn [List.filter Nat.add].
    assert (js_get (a ++ [s]) (length a) = s) as E.
    { unfold js_get. rewrite lookup_app_r by lia. by rewrite Nat.sub_diag. }
    rewrite E. destruct s as [[|x l]|]; cbn; by rewrite ?E.
Qed.

(** Under the registry invariant [set geA] applies its loop body exactly
    once to every held voice, so every held voice gets the proportional
    attack schedule of [geA_retarget_schedule]. *)
Lemma set_geA_retargets_held w x n v :
  registry_wf w → v ∈ held w n →
  nodes (set_geA w x) !! v
  = geA_retarget (with_envelope x (_geD (synth w)) (_geS (synth w))
                                (_geR (synth w)) (synth w))
                 (currentTime w) x <$> nodes w !! v.
Proof.
  intros (Hnd & _) Hv. unfold set_geA, forEachHeld. cbn [nodes with_nodes with_synth].
  assert (held_voices
            (with_synth (with_envelope x (_geD (synth w)) (_geS (synth w))
                                       (_geR (synth w)) (synth w)) w)
          = table_voices (noteOnList (synth w))) as ->
    by (by rewrite held_voices_table).
  unfold registered in Hnd. apply NoDup_app in Hnd as (Hnd & _).
  rewrite foldl_alter_lookup by done.
  rewrite decide_True; [done|]. by eapply elem_of_held.
Qed.

(** ** Retargeting the release *)

Lemma release_nodes w n rt w' :
  release w n rt = Some w' →
  noteOffList (synth w') = noteOffList (synth w) ∧
  ∃ l vid, js_get (noteOffList (synth w)) n = Some (l ++ [vid]) ∧
           nodes w' = alter (release_envelope (currentTime w) rt) vid (nodes w).
Proof.
  intros H. destruct (js_get (noteOffList (synth w)) n) as [offl|] eqn:En;
    [|by unfold release in H; rewrite En in H].
  destruct (last offl) as [vid|] eqn:El.
  - apply last_Some in El as [l ->]. rewrite (release_eq _ _ _ _ _ En) in H.
    injection H as <-. split; [done|]. by exists l, vid.
  - apply last_None in El as ->. unfold release in H. by rewrite En in H.
Qed.

(** In general: [set geR] leaves alone every voice that is not the last
    of a releasing stack, whatever its release progress. *)
Lemma set_geR_touches_top_only w v w' vid :
  (∀ n l, js_get (noteOffList (synth w)) n = Some l → last l ≠ Some vid) →
  set_geR w v = Some w' →
  nodes w' !! vid = nodes w !! vid.
Proof.
  intros Htop. unfold set_geR.
  set (w0 := with_synth _ (clearTimeouts _)).
  assert (noteOffList (synth w0) = noteOffList (synth w) ∧ nodes w0 = nodes w)
    as [Eoff En].
  { subst w0. cbn [synth nodes with_synth noteOffList with_lists].
    match goal with |- context [clearTimeouts ?x] =>
      destruct (clearTimeouts_fields x) as (-> & -> & _) end. done. }
  set (P := fun a : State =>
              noteOffList (synth a) = noteOffList (synth w) ∧
              nodes a !! vid = nodes w !! vid).
  intros H. apply (forEach_inv P) in H; [by destruct H| |].
  - intros a n a' Ha. unfold geR_note.
    destruct (js_get (noteOffList (synth a)) n); [|by intros [= <-]].
    apply forEach_inv; [|done]. clear -Htop. intros a i a' [Ha1 Ha2].
    unfold geR_retarget.
    destruct (js_get (noteOffList (synth a)) n) as [offl|]; [|done].
    cbn [mbind option_bind]. destruct (offl !! i); [|done].
    cbn [mbind option_bind].
    intros (Eo & l & u & El & Eu)%release_nodes.
    split; [congruence|]. rewrite Eu, list_lookup_alter_ne; [done|].
    intros ->. rewrite Ha1 in El. apply (Htop _ _ El). apply last_snoc.
  - split; [done|]. by rewrite En.
Qed.

(** C1 (the code departs from the claim). Two voices release on note 60;
    the older, voice 1, reads a release progress of 3/4 when [geR] is set
    to 2000. The claim wants its gain ramp rescheduled to end 1500 ms
    later. [set geR] reads the progress of each releasing voice but hands
    it to [release], which always works on the last voice of the stack:
    voice 1 keeps its old automation, with no event 1500 ms ahead, while
    voice 0 is rescheduled twice. Only the two cleanup timers get the
    proportional delays 1500 and 2000. *)
Theorem set_geR_skips_older_releasing_voice :
  let w := run init [NoteOn 60; NoteOn 60; NoteOff 60; Wait 270; NoteOff 60;
                     Render 1 (1 # 2) 0 0 (3 # 4); Render 0 (1 # 4) 0 (1 # 2) 1] in
  let w' := step w (SetGeR 2000) in
  releasing w 60 = [1; 0] ∧
  value (releaseP (envelopeProgress (deref w 1))) = 3 # 4 ∧
  gain (deref w' 1) = gain (deref w 1) ∧
  releaseP (envelopeProgress (deref w' 1))
    = releaseP (envelopeProgress (deref w 1)) ∧
  Forall (fun e => ¬ (event_time e == currentTime w + 2000 * (3 # 4) / 1000)%Q)
         (events (gain (deref w' 1))) ∧
  (∃ t, last (events (gain (deref w' 0)))
          = Some (ExponentialRampToValueAtTime (1 # 10000) t) ∧
        (t == currentTime w + 2000 * 1 / 1000)%Q) ∧
  (∃ d1 d2, map timer_delay (timers w') = [d1; d2] ∧
            (d1 == 2000 * (3 # 4))%Q ∧ (d2 == 2000 * 1)%Q).
Proof.
  intros w w'.
  split; [by vm_compute|]. split; [by vm_compute|].
  split; [by vm_compute|]. split; [by vm_compute|].
  split; [|split].
  - assert (events (gain (deref w' 1))
            = [LinearRampToValueAtTime (1 # 1000) 0;
               ExponentialRampToValueAtTime (1 # 10000) (0 / 1000 + 1080 / 1000)])
      as -> by by vm_compute.
    repeat constructor; intros H; vm_compute in H; discriminate H.
  - eexists. split; [by vm_compute|]. by vm_compute.
  - eexists _, _. split; [by vm_compute|]. split; by vm_compute.
Qed.

(** ** Timers: the host loop and the first retarget *)

Lemma next_due_spec ts m rest :
  next_due ts = Some (m, rest) →
  length ts = S (length rest) ∧
  Forall (fun t => (timer_due m <= timer_due t)%Q) ts ∧
  rest ⊆ ts.
Proof.
  revert m rest. induction ts as [|t ts IH]; intros m rest; simpl; [done|].
  destruct (next_due ts) as [[m' rest']|] eqn:E.
  - destruct (IH _ _ eq_refl) as (Hl & Hall & Hsub).
    destruct (Qle_bool (timer_due t) (timer_due m')) eqn:Ele;
      intros [= <- <-].
    + split; [done|]. split; [|by intros u Hu; right].
      apply Qle_bool_iff in Ele. constructor; [apply Qle_refl|].
      eapply Forall_impl; [exact Hall|]. cbn beta. intros u Hu.
      by eapply Qle_trans.
    + split; [simpl; lia|].
      split; [|intros u [->|Hu]%elem_of_cons; [by left|right; by apply Hsub]].
      constructor; [|done].
      destruct (Qlt_le_dec (timer_due m') (timer_due t)) as [Hlt|Hle];
        [by apply Qlt_le_weak|].
      apply Qle_bool_iff in Hle. congruence.
  - intros [= <- <-]. destruct ts as [|u ts].
    + split; [done|]. split; [|by intros u Hu; inversion Hu].
      repeat constructor. apply Qle_refl.
    + simpl in E. destruct (next_due ts) as [[? ?]|]; [|done].
      by destruct (Qle_bool _ _).
Qed.

Lemma releaseTimeout_timers w n w' :
  releaseTimeout w n = Some w' → timers w' = timers w.
Proof.
  intros H. by apply releaseTimeout_cases in H as [->|(vid & tl & _ & ->)].
Qed.

(** The fuel given by [wait] is enough: when it returns, no pending timer
    is due. *)
Lemma run_timers_complete fuel deadline w :
  length (timers w) ≤ fuel →
  Forall (fun t => (deadline < timer_due t)%Q)
         (timers (run_timers fuel deadline w)).
Proof.
  revert w. induction fuel as [|fuel IH]; intros w Hlen; cbn [run_timers].
  - destruct (timers w); [constructor|simpl in Hlen; lia].
  - destruct (next_due (timers w)) as [[m rest]|] eqn:E.
    + destruct (next_due_spec _ _ _ E) as (Hl & Hall & _).
      destruct (Qle_bool (timer_due m) deadline) eqn:Ele.
      * apply IH.
        destruct (releaseTimeout (with_timers rest w) (timer_note m)) as [w'|] eqn:Er.
        -- rewrite (releaseTimeout_timers _ _ _ Er). simpl. lia.
        -- simpl. lia.
      * eapply Forall_impl; [exact Hall|]. cbn beta. intros t Ht.
        eapply Qlt_le_trans; [|exact Ht].
        apply Qnot_le_lt. intros H%Qle_bool_iff. congruence.
    + destruct (timers w); [constructor|]. simpl in E.
      destruct (next_due l) as [[? ?]|]; [|done]. by destruct (Qle_bool _ _).
Qed.

Lemma wait_fires_all_due w dt :
  (0 <= dt)%Q →
  Forall (fun t => (clock w + dt < timer_due t)%Q) (timers (wait w dt)).
Proof.
  intros H%Qle_bool_iff. unfold wait. rewrite H. cbn [timers].
  by apply run_timers_complete.
Qed.

Lemma release_timers w n rt w' :
  release w n rt = Some w' →
  timers w' = timers w ++ [mkTimer (next_timer w) rt (clock w + Qmax 0 rt) n] ∧
  next_timer w' = S (next_timer w).
Proof.
  unfold release. destruct (js_get (noteOffList (synth w)) n) as [offl|]; [|done].
  cbn [mbind option_bind].
  destruct (if (0 <? length offl)%nat then offl !! (length offl - 1) else None)
    as [vid|]; [|done].
  cbn [mbind option_bind]. by intros [= <-].
Qed.

(** As long as [timeOutList] lists the pending timers, which is the case
    until a retarget has made timers fire out of list order
    ([timers_fifo_run]), [set geR] does cancel them all: every timer
    pending afterwards was armed by the setter itself. *)
Lemma set_geR_cancels_listed w v w' :
  timeOutList (synth w) = map timer_id (timers w) →
  set_geR w v = Some w' →
  Forall (fun t => next_timer w ≤ timer_id t) (timers w').
Proof.
  intros E. unfold set_geR.
  set (w0 := clearTimeouts _).
  assert (timers w0 = []) as Et by by apply clearTimeouts_all.
  assert (next_timer w0 = next_timer w) as En.
  { subst w0. match goal with |- context [clearTimeouts ?x] =>
      destruct (clearTimeouts_fields x) as (_ & _ & En & _) end.
    by rewrite En. }
  set (P := fun a : State =>
              next_timer w ≤ next_timer a ∧
              Forall (fun t => next_timer w ≤ timer_id t) (timers a)).
  intros H. apply (forEach_inv P) in H; [by destruct H| |].
  - intros a n a' Ha. unfold geR_note.
    destruct (js_get (noteOffList (synth a)) n); [|by intros [= <-]].
    apply forEach_inv; [|done]. clear. intros a i a' [Ha1 Ha2].
    unfold geR_retarget.
    destruct (js_get (noteOffList (synth a)) n) as [offl|]; [|done].
    cbn [mbind option_bind]. destruct (offl !! i); [|done].
    cbn [mbind option_bind]. intros [Ht Hn]%release_timers.
    split; [lia|]. rewrite Ht. apply Forall_app. split; [done|].
    repeat constructor. done.
  - split; cbn [next_timer timers with_synth]; [lia|]. rewrite Et. constructor.
Qed.

(** C8 (the code departs from the claim). A timer callback removes the
    first id of [timeOutList], not its own. After a first retarget the
    timers fire out of list order, the list loses track of a pending
    timer (id 2), and the next [set geR] does not cancel it: it is still
    pending after the setter, next to the newly armed timer 4, and it
    stops voice 0 at 1500 ms while the retargeted release runs until
    1900 ms. When timer 4 fires its callback finds an empty stack and
    throws. *)
Theorem set_geR_leaves_stale_timer :
  let w := run init [NoteOn 50; NoteOn 60; NoteOff 60; Wait 500; NoteOff 50;
                     Render 0 (1 # 4) 0 0 1; Render 1 (1 # 10) 0 0 (29 # 54);
                     SetGeR 1000; Wait 600; Render 0 (1 # 10) 0 0 (2 # 5)] in
  let w1 := step w (SetGeR 2000) in
  let w2 := step w1 (Wait 400) in
  let w3 := step w2 (Wait 400) in
  (* before the second retarget: timer 2 is pending but not listed *)
  map timer_id (timers w) = [2] ∧ timeOutList (synth w) = [3] ∧
  releasing w 50 = [0] ∧
  (* after it: timer 2 survives beside the new timer 4 *)
  map timer_id (timers w1) = [2; 4] ∧ timeOutList (synth w1) = [4] ∧
  map (fun o => map osc_stopped (oscillators o)) (nodes w1) !! 0 = Some [false] ∧
  (* timer 2 fires first and stops the voice; timer 4 is still pending *)
  map timer_id (timers w2) = [4] ∧ releasing w2 50 = [] ∧
  stopped_at (nodes w2) 0 ∧
  (* timer 4 then throws *)
  uncaught w2 = 0 ∧ uncaught w3 = 1.
Proof.
  intros w w1 w2 w3.
  repeat (split; [by vm_compute|]).
  split; [|by vm_compute].
  eexists. split; [by vm_compute|]. repeat constructor.
Qed.

(** The same lost id limits [panic] once a retarget is part of the
    history: the unlisted timer 2 survives [panic] and, 400 ms later,
    stops a voice that was created and released after it. *)
Lemma panic_misses_unlisted_timer :
  let w := run init [NoteOn 50; NoteOn 60; NoteOff 60; Wait 500; NoteOff 50;
                     Render 0 (1 # 4) 0 0 1; Render 1 (1 # 10) 0 0 (29 # 54);
                     SetGeR 1000; Wait 600] in
  let w1 := panic w in
  let w2 := run w1 [NoteOn 50; NoteOff 50] in
  let w3 := wait w2 400 in
  map timer_id (timers w1) = [2] ∧
  releasing w2 50 = [2] ∧ map timer_delay (timers w2) = [1000%Q; 1000%Q] ∧
  releasing w3 50 = [] ∧ stopped_at (nodes w3) 2 ∧
  map timer_id (timers w3) = [4].
Proof.
  intros w w1 w2 w3.
  repeat (split; [by vm_compute|]).
  split; [|by vm_compute].
  eexists. split; [by vm_compute|]. repeat constructor.
Qed.

(** * Further properties of the code *)

(** ** A new voice *)

(** X1. [createSOsc] wires the voice it returns: every oscillator has
    the requested type and frequency, is connected to the gain node and
    started, and none is stopped; the gain reads 0.001 with nothing
    scheduled and feeds the filter; the filter has the requested type,
    frequency and Q and is not yet connected to a destination; the three
    progress trackers read 1. *)
Theorem createSOsc_wiring v d oType oVol f fType fF fQ :
  let so := createSOsc v d oType oVol f fType fF fQ in
  Forall (fun x => osc_type x = oType ∧ osc_frequency x = f ∧
                   osc_connected x = true ∧ osc_started x = true ∧
                   osc_stopped x = false) (oscillators so) ∧
  gain so = mkParam (1 # 1000) [] ∧ gain_connected so = true ∧
  filterNode so = mkFilter fType fF fQ false ∧ maxOscVol so = oVol ∧
  so_voices so = v ∧ so_detune so = d ∧
  envelopeProgress so = mkProgress (mkParam 1 []) (mkParam 1 []) (mkParam 1 []).
Proof.
  intros so. split; [|done]. subst so. rewrite createSOsc_oscillators.
  apply Forall_fmap, Forall_true. done.
Qed.

Lemma noteOn_fields w n :
  timers (noteOn w n) = timers w ∧ next_timer (noteOn w n) = next_timer w ∧
  clock (noteOn w n) = clock w ∧ uncaught (noteOn w n) = uncaught w ∧
  noteOffList (synth (noteOn w n)) = noteOffList (synth w) ∧
  timeOutList (synth (noteOn w n)) = timeOutList (synth w).
Proof. done. Qed.

(** X2. [noteOn(note)] creates exactly one voice and pushes it on top of
    the held stack of [note]. The new voice has [voices] oscillators, all
    running, and its filter is connected to the destination. Nothing
    else moves: the voices that existed, the releasing table, the timer
    list, the pending timers and the clock are as before. *)
Theorem noteOn_effect w n :
  let w' := noteOn w n in
  held w' n = held w n ++ [length (nodes w)] ∧
  (∃ o, nodes w' = nodes w ++ [o] ∧
        filter_connected (filterNode o) = true ∧
        length (oscillators o) = _voices (synth w) ∧
        Forall (fun x => osc_started x = true ∧ osc_stopped x = false)
               (oscillators o)) ∧
  noteOffList (synth w') = noteOffList (synth w) ∧
  timeOutList (synth w') = timeOutList (synth w) ∧
  timers w' = timers w ∧ clock w' = clock w.
Proof.
  intros w'. subst w'. split; [|split].
  - destruct (noteOn_lists w n) as (E & _). unfold held at 1.
    by rewrite E, js_get_set_eq.
  - destruct (noteOn_created w n) as (o & Ho & Eo).
    destruct (noteOn_nodes w n) as [o' Ho'].
    rewrite Ho', lookup_app_r, Nat.sub_diag in Ho by lia.
    injection Ho as ->. exists o. split; [done|].
    assert (filter_connected (filterNode o) = true) as Hc.
    { unfold noteOn in Ho'. cbn [nodes] in Ho'.
      apply app_inv_head in Ho'. injection Ho' as <-. done. }
    split; [done|]. rewrite Eo, length_map, length_seq. split; [done|].
    apply Forall_fmap, Forall_true. done.
  - by destruct (noteOn_fields w n) as (? & ? & ? & ? & ? & ?).
Qed.

(** X3. The envelope that [noteOn] schedules on the new voice, with [ct]
    the audio time of the call: the gain holds its 0.001, rises
    exponentially to 0.993 until [ct + geA], then falls linearly to [geS]
    until [ct + geA + geD]; the attack progress runs from 1 to 0 until
    [ct + geA]; the decay progress is set to 1 at [ct + geA] and runs to
    0 until [ct + geA + geD]; the release progress has nothing
    scheduled. *)
Theorem noteOn_envelope w n :
  let s := synth w in
  let ct := currentTime w in
  ∃ o, nodes (noteOn w n) !! length (nodes w) = Some o ∧
    gain o =
      mkParam (1 # 1000)
        [LinearRampToValueAtTime (1 # 1000) 0;
         ExponentialRampToValueAtTime (993 # 1000) (ct + _geA s / 1000);
         LinearRampToValueAtTime (1 # 1000) ct;
         LinearRampToValueAtTime (_geS s) (ct + (_geD s + _geA s) / 1000)] ∧
    attackP (envelopeProgress o) =
      mkParam 1 [LinearRampToValueAtTime 1 0;
                 LinearRampToValueAtTime 0 (ct + _geA s / 1000)] ∧
    decayP (envelopeProgress o) =
      mkParam 1 [LinearRampToValueAtTime 1 0;
                 SetValueAtTime 1 (ct + _geA s / 1000);
                 LinearRampToValueAtTime 0 (ct + (_geA s + _geD s) / 1000)] ∧
    releaseP (envelopeProgress o) = mkParam 1 [].
Proof.
  intros s ct. eexists. split.
  - unfold noteOn. cbn [nodes]. rewrite lookup_app_r by lia.
    rewrite Nat.sub_diag. reflexivity.
  - done.
Qed.

Lemma noteOff_stacks w n l v w' :
  js_get (noteOnList (synth w)) n = Some (l ++ [v]) →
  noteOff w n = Some w' →
  held w' n = l ∧ releasing w' n = releasing w n ++ [v] ∧
  ∀ m, m ≠ n → held w' m = held w m ∧ releasing w' m = releasing w m.
Proof.
  intros E H. rewrite (noteOff_eq _ _ _ _ E) in H. injection H as <-.
  unfold held, releasing. cbn [synth noteOnList noteOffList with_lists].
  rewrite !js_get_set_eq. split; [done|]. split; [done|].
  intros m Hm. by rewrite !js_get_set_ne by done.
Qed.

(** X4. [noteOn(note)] followed by [noteOff(note)] gives the held stack
    of [note] back as it was and adds the voice just created to its
    releasing stack; the stacks of the other notes are untouched. *)
Theorem noteOn_noteOff_roundtrip w n :
  ∃ w', noteOff (noteOn w n) n = Some w' ∧
        held w' n = held w n ∧
        releasing w' n = releasing w n ++ [length (nodes w)] ∧
        ∀ m, m ≠ n → held w' m = held w m ∧ releasing w' m = releasing w m.
Proof.
  destruct (noteOn_lists w n) as (Eon & Eoff & _).
  assert (js_get (noteOnList (synth (noteOn w n))) n
          = Some (held w n ++ [length (nodes w)])) as E
    by by rewrite Eon, js_get_set_eq.
  destruct (noteOff_total (noteOn w n) n) as [w' Hw']. exists w'.
  split; [done|].
  destruct (noteOff_stacks _ _ _ _ _ E Hw') as (H1 & H2 & H3).
  split; [done|]. split; [by rewrite H2; unfold releasing; rewrite Eoff|].
  intros m Hm. destruct (H3 m Hm) as [-> ->]. unfold held, releasing.
  rewrite Eon, Eoff. by rewrite js_get_set_ne by done.
Qed.

(** ** Releasing a voice *)

Lemma cancelScheduledValues_0 p :
  Forall (fun e => (0 <= event_time e)%Q) (events p) →
  events (cancelScheduledValues 0 p) = [].
Proof.
  unfold cancelScheduledValues. cbn [events]. induction (events p) as [|e l IH].
  - done.
  - intros [He Hl]%Forall_cons. cbn [List.filter].
    apply Qle_bool_iff in He. rewrite He. cbn [negb]. by apply IH.
Qed.

Lemma cancelAndHold_now ct p :
  Forall (fun e => (0 <= event_time e)%Q) (events p) →
  cancelAndHold true ct p
  = mkParam (value p) [LinearRampToValueAtTime (value p) 0].
Proof.
  intros H. unfold cancelAndHold, linearRampToValueAtTime, schedule.
  by rewrite cancelScheduledValues_0.
Qed.

(** X5. [noteOff(note)] on a note whose top held voice is [v]: the gain
    of [v] is held at the value it reads and ramps exponentially to
    0.0001 until [geR] ms ahead, replacing whatever automation was
    scheduled from time 0 on; its release progress ramps to 0 over the
    same time; its oscillators keep running; and exactly one timer is
    armed, for [note], with delay [geR], its id appended to
    [timeOutList]. *)
Theorem noteOff_release_schedule w n l v o :
  js_get (noteOnList (synth w)) n = Some (l ++ [v]) →
  nodes w !! v = Some o →
  let ct := currentTime w in
  let geR := _geR (synth w) in
  ∃ w' o',
    noteOff w n = Some w' ∧ nodes w' !! v = Some o' ∧
    value (gain o') = value (gain o) ∧
    last (events (gain o'))
      = Some (ExponentialRampToValueAtTime (1 # 10000) (ct + geR / 1000)) ∧
    last (events (releaseP (envelopeProgress o')))
      = Some (LinearRampToValueAtTime 0 (ct + geR / 1000)) ∧
    (Forall (fun e => (0 <= event_time e)%Q) (events (gain o)) →
     events (gain o')
     = [LinearRampToValueAtTime (value (gain o)) 0;
        ExponentialRampToValueAtTime (1 # 10000) (ct + geR / 1000)]) ∧
    oscillators o' = oscillators o ∧
    timers w' = timers w ++ [mkTimer (next_timer w) geR (clock w + Qmax 0 geR) n] ∧
    timeOutList (synth w') = timeOutList (synth w) ++ [next_timer w].
Proof.
  intros E Ho ct geR. eexists _, _. split; [by apply noteOff_eq|].
  cbn [nodes]. rewrite list_lookup_alter_eq, Ho. cbn [fmap option_fmap option_map].
  split; [done|]. split; [done|]. split; [apply last_snoc|].
  split; [apply last_snoc|]. split; [|done].
  intros Hnn. unfold release_envelope.
  cbn [gain on_gain on_releaseP with_gain with_progress envelopeProgress].
  by rewrite cancelAndHold_now.
Qed.

Lemma noteOff_release_schedule_witness :
  let w := noteOn init 60 in
  ∃ o,
    js_get (noteOnList (synth w)) 60 = Some ([] ++ [0]) ∧
    nodes w !! 0 = Some o ∧
    ∃ w' o',
      noteOff w 60 = Some w' ∧ nodes w' !! 0 = Some o' ∧
      value (gain o') = value (gain o) ∧
      last (events (gain o'))
        = Some (ExponentialRampToValueAtTime (1 # 10000)
                  (currentTime w + _geR (synth w) / 1000)) ∧
      last (events (releaseP (envelopeProgress o')))
        = Some (LinearRampToValueAtTime 0 (currentTime w + _geR (synth w) / 1000)) ∧
      (Forall (fun e => (0 <= event_time e)%Q) (events (gain o)) →
       events (gain o')
       = [LinearRampToValueAtTime (value (gain o)) 0;
          ExponentialRampToValueAtTime (1 # 10000)
            (currentTime w + _geR (synth w) / 1000)]) ∧
      oscillators o' = oscillators o ∧
      timers w' = timers w ++ [mkTimer (next_timer w) (_geR (synth w))
                                 (clock w + Qmax 0 (_geR (synth w))) 60] ∧
      timeOutList (synth w') = timeOutList (synth w) ++ [next_timer w].
Proof.
  intros w. destruct (noteOn_created init 60) as (o & Ho & _).
  exists o.
  assert (js_get (noteOnList (synth w)) 60 = Some ([] ++ [0])) as E
    by reflexivity.
  split; [exact E|]. split; [exact Ho|].
  exact (noteOff_release_schedule w 60 [] 0 o E Ho).
Defined.

(** X6. The release callback of a timer bound to [note]: when the
    releasing table has no entry for [note] it does nothing; when the
    entry is an empty stack it throws; otherwise it stops every
    oscillator of the oldest releasing voice (the voice keeps the
    oscillators it had, each one now stopped, and nothing else of it
    changes), leaves every other voice as it is, removes that voice from
    the stack and drops the first id of [timeOutList]. It never touches
    the held table or the pending timers. *)
Theorem releaseTimeout_behaviour w n :
  (js_get (noteOffList (synth w)) n = None → releaseTimeout w n = Some w) ∧
  (js_get (noteOffList (synth w)) n = Some [] → releaseTimeout w n = None) ∧
  (∀ v tl, js_get (noteOffList (synth w)) n = Some (v :: tl) →
     v < length (nodes w) →
     ∃ w', releaseTimeout w n = Some w' ∧
           releasing w' n = tl ∧ stops (nodes w) (nodes w') v ∧
           (∀ u, u ≠ v → nodes w' !! u = nodes w !! u) ∧
           length (nodes w') = length (nodes w) ∧
           timeOutList (synth w') = drop 1 (timeOutList (synth w)) ∧
           noteOnList (synth w') = noteOnList (synth w) ∧
           (∀ m, m ≠ n → releasing w' m = releasing w m) ∧
           timers w' = timers w).
Proof.
  split; [|split].
  - intros E. unfold releaseTimeout. by rewrite E.
  - intros E. unfold releaseTimeout. by rewrite E.
  - intros v tl E Hv. unfold releaseTimeout. rewrite E. cbn.
    eexists. split; [done|]. unfold releasing. cbn [synth nodes noteOffList with_lists].
    rewrite js_get_set_eq, drop_0. split; [done|].
    split.
    { apply only_stops_stops; [apply only_stops_alter|].
      by apply stopped_at_alter_stop. }
    split; [by intros u Hu; rewrite list_lookup_alter_ne|].
    split; [by rewrite length_alter|].
    split; [done|]. split; [done|]. split; [|done].
    intros m Hm. by rewrite js_get_set_ne.
Qed.

Lemma releaseTimeout_behaviour_witness :
  let w := run init [SetSound (Voices 3); NoteOn 60; NoteOn 60; NoteOff 60;
                     NoteOff 60] in
  js_get (noteOffList (synth w)) 60 = Some [1; 0] ∧ 1 < length (nodes w) ∧
  map (fun o => length (oscillators o)) (nodes w) = [3; 3] ∧
  ∃ w', releaseTimeout w 60 = Some w' ∧
        releasing w' 60 = [0] ∧ stops (nodes w) (nodes w') 1 ∧
        (∀ u, u ≠ 1 → nodes w' !! u = nodes w !! u) ∧
        length (nodes w') = length (nodes w) ∧
        timeOutList (synth w') = drop 1 (timeOutList (synth w)) ∧
        noteOnList (synth w') = noteOnList (synth w) ∧
        (∀ m, m ≠ 60 → releasing w' m = releasing w m) ∧
        timers w' = timers w.
Proof.
  intros w.
  assert (js_get (noteOffList (synth w)) 60 = Some [1; 0]) as E by by vm_compute.
  assert (1 < length (nodes w)) as Hlt by (vm_compute; lia).
  split; [exact E|]. split; [exact Hlt|]. split; [by vm_compute|].
  exact (proj2 (proj2 (releaseTimeout_behaviour w 60)) 1 [0] E Hlt).
Defined.

(** ** Released voices are cleaned up *)

Lemma timers_exact_ext w w' :
  noteOffList (synth w') = noteOffList (synth w) → timers w' = timers w →
  timers_exact w → timers_exact w'.
Proof. intros E1 E2 H n. unfold releasing. rewrite E1, E2. apply H. Qed.

Lemma timers_exact_noteOff w n w' :
  noteOff w n = Some w' → timers_exact w → timers_exact w'.
Proof.
  intros Hoff T. destruct (checkNoteOn w n) eqn:E.
  - apply checkNoteOn_true in E as (l & v & E).
    rewrite (noteOff_eq _ _ _ _ E) in Hoff. injection Hoff as <-.
    intros m. unfold releasing. cbn [synth timers noteOffList with_lists].
    rewrite List.filter_app, length_app. cbn [List.filter timer_note].
    rewrite js_get_set. specialize (T m). unfold releasing in T.
    case_decide as Em.
    + subst m. rewrite Nat.eqb_refl. simpl.
      rewrite length_app. simpl. lia.
    + apply Nat.eqb_neq in Em. rewrite Em. simpl. lia.
  - rewrite noteOff_noop in Hoff by done. by injection Hoff as <-.
Qed.

(** Firing the head timer of a FIFO list keeps the timers exact, runs
    its callback without an exception and leaves the held table, the
    voices' number and the parameters alone. *)
Lemma timers_exact_fire w t ts :
  timers w = t :: ts → timers_exact w →
  ∃ w', releaseTimeout (with_timers ts w) (timer_note t) = Some w' ∧
        timers_exact w' ∧ uncaught w' = uncaught w ∧
        noteOnList (synth w') = noteOnList (synth w) ∧
        length (nodes w') = length (nodes w).
Proof.
  intros Et T. pose proof (T (timer_note t)) as Hc. rewrite Et in Hc.
  simpl in Hc. rewrite Nat.eqb_refl in Hc. simpl in Hc.
  unfold releasing in Hc.
  destruct (js_get (noteOffList (synth w)) (timer_note t)) as [[|vid tl]|] eqn:En;
    simpl in Hc; [lia| |lia].
  unfold releaseTimeout. simpl. rewrite En. simpl.
  eexists. split; [done|]. split; [|split; [done|split; [done|]]].
  - intros m. specialize (T m). rewrite Et in T. simpl in T.
    unfold releasing in *. simpl.
    rewrite js_get_set, drop_0. case_decide as Em.
    + subst m. rewrite Nat.eqb_refl, En in T. simpl in *. lia.
    + destruct (timer_note t =? m)%nat eqn:Eb;
        [by apply Nat.eqb_eq in Eb|done].
  - simpl. by rewrite length_alter.
Qed.

Lemma cleanup_run_timers fuel deadline w :
  timers_fifo w → timers_exact w →
  Forall (fun t => (timer_due t <= deadline)%Q) (timers w) →
  length (timers w) ≤ fuel →
  let w' := run_timers fuel deadline w in
  timers w' = [] ∧ timers_fifo w' ∧ timers_exact w' ∧
  uncaught w' = uncaught w ∧
  noteOnList (synth w') = noteOnList (synth w) ∧
  length (nodes w') = length (nodes w).
Proof.
  revert w. induction fuel as [|fuel IH]; intros w Hf He Hd Hl; cbn [run_timers].
  - destruct (timers w) eqn:Et; [done|]. cbn [length] in Hl. lia.
  - destruct (timers w) as [|t ts] eqn:Et;
      [cbn [next_due]; done|].
    rewrite next_due_sorted by (rewrite <- Et; apply Hf).
    apply Forall_cons in Hd as [Hdt Hd]. apply Qle_bool_iff in Hdt. rewrite Hdt.
    destruct (timers_fifo_fire w t ts Et Hf) as (w1 & E1 & Ets & _ & Hf1).
    destruct (timers_exact_fire w t ts Et He) as (w1' & E1' & He1 & Hu & Hon & Hn).
    rewrite E1 in E1'. injection E1' as <-. rewrite E1.
    destruct (IH w1 Hf1 He1) as (A & B & C & D & E & F).
    + by rewrite Ets.
    + rewrite Ets. cbn [length] in Hl. lia.
    + cbv zeta. split; [done|]. split; [done|]. split; [done|].
      split; [congruence|]. split; congruence.
Qed.

Lemma timers_exact_run es :
  forallb is_play_event es = true →
  timers_exact (run init es) ∧ _geR (synth (run init es)) = 1080%Q.
Proof.
  unfold run. induction es as [|e es IH] using rev_ind; intros Hes.
  - split; [|done]. by intros n.
  - rewrite forallb_app in Hes. apply andb_prop in Hes as [Hes He].
    rewrite foldl_app. cbn [foldl].
    pose proof (timers_fifo_run es Hes) as Hf. unfold run in Hf.
    destruct (IH Hes) as [IH1 IH2].
    destruct e as [n|n| | | | | |dt| |p]; try discriminate He; cbn [step].
    + split; [by apply (timers_exact_ext (foldl step init es))|done].
    + destruct (noteOff _ n) as [w'|] eqn:E; cbn [default]; [|done].
      split; [by eapply timers_exact_noteOff|].
      destruct (checkNoteOn (foldl step init es) n) eqn:Ec.
      * apply checkNoteOn_true in Ec as (l & v & Ec).
        rewrite (noteOff_eq _ _ _ _ Ec) in E. by injection E as <-.
      * rewrite noteOff_noop in E by done. by injection E as <-.
    + unfold wait. destruct (Qle_bool 0 dt); [|done].
      cbn [synth]. set (w := foldl step init es) in *.
      assert (∀ fuel d a, timers_fifo a → timers_exact a → _geR (synth a) = 1080%Q →
                timers_exact (run_timers fuel d a) ∧
                _geR (synth (run_timers fuel d a)) = 1080%Q) as Hrun.
      { clear. induction fuel as [|fuel IHf]; intros d a Hf He Hg;
          cbn [run_timers]; [done|].
        destruct (timers a) as [|t ts] eqn:Et; [done|].
        rewrite next_due_sorted by (rewrite <- Et; apply Hf).
        destruct (Qle_bool (timer_due t) d); [|done].
        destruct (timers_fifo_fire a t ts Et Hf) as (w1 & E1 & _ & _ & Hf1).
        destruct (timers_exact_fire a t ts Et He) as (w1' & E1' & He1 & _).
        rewrite E1 in E1'. injection E1' as <-. rewrite E1.
        apply IHf; [done..|].
        apply releaseTimeout_cases in E1 as [->|(vid & tl & _ & ->)]; done. }
      destruct (Hrun (length (timers w)) (clock w + dt)%Q w Hf IH1 IH2) as [A B].
      split; [|done].
      by apply (timers_exact_ext
                  (run_timers (length (timers w)) (clock w + dt)%Q w)).
    + destruct (set_sound_fields (foldl step init es) p)
        as (_ & Et & _ & _ & _ & _ & Eoff & _ & Er).
      split; [by apply (timers_exact_ext (foldl step init es))|].
      by rewrite Er.
Qed.

Lemma table_voices_empty (a : js_array (list nat)) :
  (∀ n, default [] (js_get a n) = []) → table_voices a = [].
Proof.
  intros H. destruct (table_voices a) as [|v l] eqn:E; [done|].
  assert (v ∈ table_voices a) as Hv by (rewrite E; by left).
  apply elem_of_table_voices in Hv as (n & l' & Hn & Hv).
  specialize (H n). rewrite Hn in H. cbn in H. subst l'. by inversion Hv.
Qed.

(** X7. Release ends in cleanup. After any sequence of note-on and
    note-off calls, with time passing and sound parameters set in
    between, waiting the release time (1080 ms, the default [geR], or
    longer) fires every pending timer without an exception: no timer is
    left, [timeOutList] and every releasing stack are empty, and every
    voice that was releasing, sounding until then, has every oscillator
    stopped: it keeps the oscillators it had, each one now stopped, and
    nothing else of it changes. No voice is created or lost, no voice
    changes in any other way, and the held table is untouched. *)
Theorem released_voices_cleaned_up es dt :
  forallb is_play_event es = true →
  (1080 <= dt)%Q →
  let w := run init es in
  let w' := wait w dt in
  timers w' = [] ∧ timeOutList (synth w') = [] ∧
  (∀ n, releasing w' n = []) ∧
  noteOnList (synth w') = noteOnList (synth w) ∧
  (∀ v, v ∈ table_voices (noteOffList (synth w)) →
     running_at (nodes w) v ∧ stops (nodes w) (nodes w') v) ∧
  only_stops (nodes w) (nodes w') ∧
  uncaught w' = uncaught w.
Proof.
  intros Hes Hdt w w'.
  pose proof (timers_fifo_run es Hes) as Hf. fold w in Hf.
  destruct (timers_exact_run es Hes) as [He Hg]. fold w in He, Hg.
  destruct (held_ascending_run es) as [Hwf _]. fold w in Hwf.
  assert (0 <= dt)%Q as H0 by (eapply Qle_trans; [|exact Hdt]; done).
  assert (Forall (fun t => (timer_due t <= clock w + dt)%Q) (timers w)) as Hd.
  { destruct Hf as (_ & _ & T3 & _). eapply Forall_impl; [exact T3|].
    cbn beta. intros t Ht. rewrite Hg in Ht.
    eapply Qle_trans; [exact Ht|]. by apply Qplus_le_r. }
  destruct (cleanup_run_timers (length (timers w)) (clock w + dt)%Q w Hf He Hd)
    as (A & B & C & D & E & F); [done|].
  assert (wait w dt
          = mkState (synth (run_timers (length (timers w)) (clock w + dt) w))
                    (nodes (run_timers (length (timers w)) (clock w + dt) w))
                    (timers (run_timers (length (timers w)) (clock w + dt) w))
                    (next_timer (run_timers (length (timers w)) (clock w + dt) w))
                    (clock w + dt)
                    (uncaught (run_timers (length (timers w)) (clock w + dt) w)))
    as Ew.
  { unfold wait. apply Qle_bool_iff in H0. by rewrite H0. }
  assert (∀ n, releasing w' n = []) as Hrel.
  { intros n. specialize (C n). rewrite A in C. cbn in C.
    subst w'. rewrite Ew. unfold releasing in *. cbn [synth].
    destruct (default [] _); [done|discriminate C]. }
  pose proof (wait_only_stops w dt) as Hos.
  pose proof (registered_running_run es Hes) as Hrun. fold w in Hrun.
  subst w'. rewrite Ew in *. cbn [timers synth uncaught nodes] in *.
  split; [done|]. split; [by destruct B as (-> & _); rewrite A|].
  split; [done|]. split; [done|]. split; [|done].
  intros v Hv.
  split. { apply Hrun. unfold registered. apply elem_of_app. by right. }
  apply only_stops_stops; [done|].
  pose proof (registry_wf_wait w dt Hwf) as (_ & _ & H3). rewrite Ew in H3.
  cbn [nodes] in H3. apply H3.
  - rewrite F. destruct Hwf as (_ & Hb & _). rewrite Forall_forall in Hb.
    apply Hb. apply elem_of_app. by right.
  - unfold registered. cbn [synth]. rewrite E.
    rewrite (table_voices_empty (noteOffList _)) by apply Hrel.
    rewrite app_nil_r. destruct Hwf as (Hnd & _). unfold registered in Hnd.
    apply NoDup_app in Hnd as (_ & Hdisj & _). intros Hin. by apply (Hdisj v).
Qed.

Lemma released_voices_cleaned_up_witness :
  let es := [SetSound (Voices 2); NoteOn 60; NoteOn 64; NoteOff 60; Wait 300;
             NoteOff 64] in
  let w := run init es in
  let w' := wait w 1080 in
  forallb is_play_event es = true ∧ (1080 <= 1080)%Q ∧
  table_voices (noteOffList (synth w)) = [0; 1] ∧
  map (fun o => length (oscillators o)) (nodes w) = [2; 2] ∧
  timers w' = [] ∧ timeOutList (synth w') = [] ∧
  (∀ n, releasing w' n = []) ∧
  noteOnList (synth w') = noteOnList (synth w) ∧
  (∀ v, v ∈ table_voices (noteOffList (synth w)) →
     running_at (nodes w) v ∧ stops (nodes w) (nodes w') v) ∧
  only_stops (nodes w) (nodes w') ∧
  uncaught w' = uncaught w.
Proof.
  intros es w w'.
  assert (1080 <= 1080)%Q as H by apply Qle_refl.
  split; [reflexivity|]. split; [exact H|].
  split; [by vm_compute|]. split; [by vm_compute|].
  exact (released_voices_cleaned_up es 1080 eq_refl H).
Defined.

(** ** Panic, in any state *)

Lemma clearTimeouts_filter ids w :
  timers (foldl (fun w id => clearTimeout id w) w ids)
  = List.filter (unlisted ids) (timers w).
Proof.
  revert w. induction ids as [|id ids IH]; intros w; cbn [foldl].
  - unfold unlisted. cbn [forallb]. induction (timers w) as [|t l IHl]; [done|].
    cbn [List.filter]. by rewrite <- IHl.
  - rewrite IH. unfold clearTimeout. cbn [timers with_timers].
    induction (timers w) as [|t l IHl]; [done|].
    cbn [List.filter]. unfold unlisted at 2. cbn [forallb].
    destruct (negb (timer_id t =? id)%nat); cbn [List.filter andb].
    + fold (unlisted ids t). destruct (unlisted ids t); by rewrite IHl.
    + done.
Qed.

Lemma panic_on_parameters w i :
  parameters (synth (panic_on w i)) = parameters (synth w) ∧
  next_timer (panic_on w i) = next_timer w ∧ clock (panic_on w i) = clock w ∧
  uncaught (panic_on w i) = uncaught w.
Proof.
  unfold panic_on. destruct (checkNoteOn w i); [|done].
  by destruct (js_get (noteOnList (synth w)) i).
Qed.

Lemma panic_off_parameters w i :
  parameters (synth (panic_off w i)) = parameters (synth w) ∧
  next_timer (panic_off w i) = next_timer w ∧ clock (panic_off w i) = clock w ∧
  uncaught (panic_off w i) = uncaught w.
Proof.
  unfold panic_off. destruct (checkNoteOff w i); [|done].
  by destruct (js_get (noteOffList (synth w)) i).
Qed.

Lemma foldl_parameters (f : State → nat → State) idx w :
  (∀ a i, parameters (synth (f a i)) = parameters (synth a) ∧
          next_timer (f a i) = next_timer a ∧ clock (f a i) = clock a ∧
          uncaught (f a i) = uncaught a) →
  parameters (synth (foldl f w idx)) = parameters (synth w) ∧
  next_timer (foldl f w idx) = next_timer w ∧ clock (foldl f w idx) = clock w ∧
  uncaught (foldl f w idx) = uncaught w.
Proof.
  intros Hf. revert w. induction idx as [|i idx IH]; intros w; cbn [foldl]; [done|].
  destruct (IH (f w i)) as (-> & -> & -> & ->). apply Hf.
Qed.

Lemma panic_parameters w :
  parameters (synth (panic w)) = parameters (synth w) ∧
  next_timer (panic w) = next_timer w ∧ clock (panic w) = clock w ∧
  uncaught (panic w) = uncaught w.
Proof.
  unfold panic. cbn [synth next_timer clock uncaught with_synth].
  match goal with |- context [clearTimeouts ?x] =>
    destruct (clearTimeouts_fields x) as (-> & _ & -> & -> & ->) end.
  change (parameters (with_lists [] [] [] ?s)) with (parameters s).
  match goal with |- context [foldl panic_off ?x ?l] =>
    destruct (foldl_parameters panic_off l x panic_off_parameters)
      as (-> & -> & -> & ->) end.
  apply (foldl_parameters panic_on), panic_on_parameters.
Qed.

Lemma panic_fixpoint w :
  noteOnList (synth w) = [] → noteOffList (synth w) = [] →
  timeOutList (synth w) = [] → panic w = w.
Proof.
  destruct w as [[on off tol] ns ts nt c u]. cbn [synth noteOnList noteOffList timeOutList].
  intros -> -> ->. reflexivity.
Qed.

(** X8. [panic()] in any state in which the registry is well formed:
    every held and every releasing voice has every oscillator stopped
    (the voice keeps the oscillators it had, each one now stopped, and
    nothing else of it changes); no voice is created or lost, none
    changes in any other way, and a stopped voice stays stopped; both
    tables and the timer list are emptied; the sound and envelope
    parameters, the clock and the timer counter are not reset; and a
    second [panic()] changes nothing. *)
Theorem panic_any_state w :
  registry_wf w →
  let w' := panic w in
  (∀ v, v ∈ registered w → stops (nodes w) (nodes w') v) ∧
  only_stops (nodes w) (nodes w') ∧
  (∀ v, stopped_at (nodes w) v → stopped_at (nodes w') v) ∧
  noteOnList (synth w') = [] ∧ noteOffList (synth w') = [] ∧
  timeOutList (synth w') = [] ∧
  length (nodes w') = length (nodes w) ∧
  parameters (synth w') = parameters (synth w) ∧
  clock w' = clock w ∧ next_timer w' = next_timer w ∧
  panic w' = w'.
Proof.
  intros (_ & Hb & _) w'. subst w'.
  destruct (panic_parameters w) as (Ep & En & Ec & _).
  split; [|split; [|split; [|repeat split; try done]]].
  - intros v Hv. apply only_stops_stops; [apply panic_only_stops|].
    apply panic_stops; [done|].
    rewrite Forall_forall in Hb. by apply Hb.
  - apply panic_only_stops.
  - apply panic_mono.
  - apply panic_length.
Qed.

Lemma panic_any_state_witness :
  let w := run init [SetSound (Voices 3); NoteOn 60; NoteOn 64; NoteOff 60;
                     SetGeR 500; NoteOn 200] in
  let w' := panic w in
  registry_wf w ∧
  registered w = [1; 2; 0] ∧
  map (fun o => length (oscillators o)) (nodes w) = [3; 3; 3] ∧
  (∀ v, v ∈ registered w → stops (nodes w) (nodes w') v) ∧
  only_stops (nodes w) (nodes w') ∧
  (∀ v, stopped_at (nodes w) v → stopped_at (nodes w') v) ∧
  noteOnList (synth w') = [] ∧ noteOffList (synth w') = [] ∧
  timeOutList (synth w') = [] ∧
  length (nodes w') = length (nodes w) ∧
  parameters (synth w') = parameters (synth w) ∧
  clock w' = clock w ∧ next_timer w' = next_timer w ∧
  panic w' = w'.
Proof.
  intros w w'.
  assert (registry_wf w) as Hw by apply registry_wf_run, registry_wf_init.
  split; [exact Hw|]. split; [by vm_compute|]. split; [by vm_compute|].
  exact (panic_any_state w Hw).
Defined.

(** X9. [panic()] cancels exactly the timers whose ids are in
    [timeOutList]: the timers pending afterwards are the pending timers
    with an unlisted id, in their order. When the list names every
    pending timer none is left; a pending timer that the list has lost
    stays pending. *)
Theorem panic_cancels_listed w :
  timers (panic w) = List.filter (unlisted (timeOutList (synth w))) (timers w) ∧
  (Forall (fun t => timer_id t ∈ timeOutList (synth w)) (timers w) →
   timers (panic w) = []) ∧
  (∀ t, t ∈ timers w → timer_id t ∉ timeOutList (synth w) →
        t ∈ timers (panic w)).
Proof.
  assert (timers (panic w)
          = List.filter (unlisted (timeOutList (synth w))) (timers w)) as E.
  { unfold panic. cbn [timers with_synth]. unfold clearTimeouts.
    rewrite clearTimeouts_filter.
    match goal with |- context [foldl panic_off ?x ?l] =>
      destruct (panic_off_loop_fields l x) as (-> & ->) end.
    match goal with |- context [foldl panic_on ?x ?l] =>
      by destruct (panic_on_loop_fields l x) as (_ & -> & ->) end. }
  assert (∀ t, unlisted (timeOutList (synth w)) t = true
               ↔ timer_id t ∉ timeOutList (synth w)) as Hu.
  { intros t. unfold unlisted. rewrite forallb_forall. split.
    - intros H Hin. apply list_elem_of_In, H in Hin.
      by rewrite Nat.eqb_refl in Hin.
    - intros H id Hin. apply negb_true_iff, Nat.eqb_neq. intros <-.
      by apply H, list_elem_of_In. }
  split; [done|]. rewrite E. split.
  - clear E. intros Hall. induction (timers w) as [|t l IH]; [done|].
    apply Forall_cons in Hall as [Ht Hl]. cbn [List.filter].
    destruct (unlisted _ t) eqn:Et; [apply Hu in Et; by destruct Et|by apply IH].
  - intros t Ht Hn. apply list_elem_of_In, filter_In.
    split; [by apply list_elem_of_In|by apply Hu].
Qed.

Lemma panic_cancels_listed_witness :
  let w := run init [NoteOn 50; NoteOn 60; NoteOff 60; Wait 500; NoteOff 50;
                     Render 0 (1 # 4) 0 0 1; Render 1 (1 # 10) 0 0 (29 # 54);
                     SetGeR 1000; Wait 600] in
  let t := mkTimer 2 (1000 * 1) (500 + Qmax 0 (1000 * 1)) 50 in
  t ∈ timers w ∧ (timer_id t ∉ timeOutList (synth w)) ∧ t ∈ timers (panic w).
Proof.
  intros w t.
  assert (t ∈ timers w) as H1 by (vm_compute; by left).
  assert (timer_id t ∉ timeOutList (synth w)) as H2.
  { vm_compute. intros H. apply list_elem_of_In in H.
    destruct H as [H|[]]. discriminate H. }
  split; [exact H1|]. split; [exact H2|].
  exact (proj2 (proj2 (panic_cancels_listed w)) t H1 H2).
Defined.

(** ** What [set geR] does, call by call *)

Lemma release_envelope_progress ct d o :
  value (releaseP (envelopeProgress (release_envelope ct d o)))
  = value (releaseP (envelopeProgress o)).
Proof. done. Qed.

Lemma release_as_step w a n d l u :
  geR_inv w a →
  js_get (noteOffList (synth w)) n = Some (l ++ [u]) →
  release a n d = Some (release_step w a (n, d)) ∧
  geR_inv w (release_step w a (n, d)).
Proof.
  intros (Eo & Ec & Ep) En.
  assert (releasing_top w n = u) as Et.
  { unfold releasing_top, releasing. rewrite En.
    change (default [] (Some (l ++ [u]))) with (l ++ [u]).
    by rewrite last_snoc. }
  split.
  - rewrite (release_eq a n d l u) by by rewrite Eo.
    unfold release_step. cbn [fst snd]. by rewrite Et.
  - split; [done|]. split; [done|]. intros vid.
    rewrite <- Ep. unfold release_progress, deref, release_step. cbn [nodes fst snd].
    rewrite list_lookup_total_alter. case_decide as Hd; [|done].
    destruct Hd as [<- _]. apply release_envelope_progress.
Qed.

Lemma forEach_foldl {B} (I : State → Prop) (f : State → B → option State)
    (g : State → B → State) l w :
  (∀ a x, I a → x ∈ l → f a x = Some (g a x) ∧ I (g a x)) →
  I w → forEach f w l = Some (foldl g w l) ∧ I (foldl g w l).
Proof.
  revert w. induction l as [|x l IH]; intros w Hf Hw; cbn [forEach foldl]; [done|].
  destruct (Hf w x Hw) as [-> Hw']; [by left|]. cbn [mbind option_bind].
  apply IH; [|done]. intros a y Ha Hy. apply Hf; [done|by right].
Qed.

(** The inner loop of [set geR]: one [release] call per voice of the
    stack, each with the progress of its own voice. *)
Lemma geR_note_steps w v a n l u :
  geR_inv w a →
  js_get (noteOffList (synth w)) n = Some (l ++ [u]) →
  geR_note v a n
  = Some (foldl (release_step w) a
            (map (fun vid => (n, (v * release_progress w vid)%Q)) (l ++ [u]))) ∧
  geR_inv w (foldl (release_step w) a
            (map (fun vid => (n, (v * release_progress w vid)%Q)) (l ++ [u]))).
Proof.
  intros Ha En. unfold geR_note.
  assert (js_get (noteOffList (synth a)) n = Some (l ++ [u])) as ->
    by by destruct Ha as (-> & _).
  set (offl := l ++ [u]) in *.
  destruct (forEach_foldl (geR_inv w) (geR_retarget v n)
              (fun b i => release_step w b
                            (n, (v * release_progress w (offl !!! i))%Q))
              (seq 0 (length offl)) a) as [E HI]; [|done|].
  - intros b i Hb Hi. apply elem_of_seq in Hi. unfold geR_retarget.
    assert (js_get (noteOffList (synth b)) n = Some offl) as ->
      by by destruct Hb as (-> & _).
    cbn [mbind option_bind].
    destruct (lookup_lt_is_Some_2 offl i) as [vid Hvid]; [lia|].
    rewrite Hvid. cbn [mbind option_bind].
    rewrite (list_lookup_total_correct _ _ _ Hvid).
    fold (release_progress b vid).
    destruct Hb as (Hb1 & Hb2 & Hb3). rewrite Hb3.
    by apply (release_as_step w b n _ l u).
  - assert (∀ b, foldl (fun b i => release_step w b
                            (n, (v * release_progress w (offl !!! i))%Q))
                   b (seq 0 (length offl))
                 = foldl (release_step w) b
                     (map (fun vid => (n, (v * release_progress w vid)%Q)) offl))
      as Efold.
    { intros b. rewrite foldl_fmap.
      rewrite <- (foldl_fmap (fun b vid => release_step w b
                                (n, (v * release_progress w vid)%Q))
                    b (seq 0 (length offl)) (fun i => offl !!! i)).
      f_equal. clear. induction offl as [|x offl IH] using rev_ind; [done|].
      rewrite length_app, Nat.add_comm. cbn [length Nat.add].
      rewrite seq_S, fmap_app. cbn [fmap list_fmap Nat.add].
      rewrite lookup_total_app_r, Nat.sub_diag by lia. cbn. f_equal.
      rewrite <- IH at 2. apply list_fmap_ext. intros i j Hj.
      apply lookup_seq in Hj as [-> Hj]. by rewrite lookup_total_app_l. }
    by rewrite <- Efold.
Qed.

Lemma geR_start_fields w v :
  noteOnList (synth (geR_start w v)) = noteOnList (synth w) ∧
  noteOffList (synth (geR_start w v)) = noteOffList (synth w) ∧
  timeOutList (synth (geR_start w v)) = [] ∧
  nodes (geR_start w v) = nodes w ∧
  timers (geR_start w v)
    = List.filter (unlisted (timeOutList (synth w))) (timers w) ∧
  next_timer (geR_start w v) = next_timer w ∧
  clock (geR_start w v) = clock w ∧ uncaught (geR_start w v) = uncaught w ∧
  _geR (synth (geR_start w v)) = v.
Proof.
  unfold geR_start. cbn [synth nodes timers next_timer clock uncaught with_synth].
  match goal with |- context [clearTimeouts ?x] =>
    destruct (clearTimeouts_fields x) as (Es & En & Et & Ec & Eu);
    pose proof (clearTimeouts_filter (timeOutList (synth x)) x) as Ef end.
  unfold clearTimeouts. rewrite Ef. unfold clearTimeouts in *.
  rewrite Es, En, Et, Ec, Eu. done.
Qed.

Lemma foldl_flat_map {A B C} (h : A → C → A) (G : B → list C) (L : list B) a :
  foldl (fun a n => foldl h a (G n)) a L = foldl h a (flat_map G L).
Proof.
  revert a. induction L as [|n L IH]; intros a; cbn [foldl flat_map]; [done|].
  by rewrite foldl_app, IH.
Qed.

(** [set geR] never throws, and it is a sequence of [release] calls. *)
Lemma set_geR_steps w v :
  set_geR w v = Some (foldl (release_step w) (geR_start w v) (geR_calls w v)).
Proof.
  change (set_geR w v)
    with (forEach (geR_note v) (geR_start w v) (getOffNoteIndexes (geR_start w v))).
  destruct (geR_start_fields w v) as (_ & Eoff & _ & En & _ & _ & Ec & _).
  assert (geR_inv w (geR_start w v)) as Hinv.
  { split; [done|]. split; [done|]. intros vid.
    unfold release_progress, deref. by rewrite En. }
  assert (getOffNoteIndexes (geR_start w v) = getOffNoteIndexes w) as ->.
  { unfold getOffNoteIndexes, checkNoteOff. by rewrite Eoff. }
  destruct (forEach_foldl (geR_inv w) (geR_note v)
              (fun a n => foldl (release_step w) a
                 (map (fun vid => (n, (v * release_progress w vid)%Q))
                      (releasing w n)))
              (getOffNoteIndexes w) (geR_start w v)) as [E _]; [|done|].
  - intros a n Ha Hn. unfold getOffNoteIndexes in Hn.
    apply list_elem_of_In, filter_In in Hn as [_ Hn].
    apply checkNoteOff_true in Hn as (x & l' & Hn).
    destruct (last (x :: l')) as [u|] eqn:El; [|by apply last_None in El].
    apply last_Some in El as [l El]. rewrite El in Hn.
    unfold releasing at 1 2. rewrite Hn.
    by apply geR_note_steps.
  - rewrite E. f_equal. unfold geR_calls. apply foldl_flat_map.
Qed.

Lemma armed_cons start now c calls :
  armed start now (c :: calls)
  = mkTimer start (snd c) (now + Qmax 0 (snd c)) (fst c)
    :: armed (S start) now calls.
Proof.
  unfold armed. rewrite imap_cons. rewrite Nat.add_0_r. f_equal.
  apply imap_ext. intros i x _. cbn. f_equal. lia.
Qed.

Lemma armed_fields start now calls :
  map timer_id (armed start now calls) = seq start (length calls) ∧
  map timer_delay (armed start now calls) = map snd calls ∧
  map timer_note (armed start now calls) = map fst calls ∧
  Forall (fun t => timer_due t = (now + Qmax 0 (timer_delay t))%Q)
         (armed start now calls).
Proof.
  revert start. induction calls as [|c calls IH]; intros start.
  - repeat split. constructor.
  - rewrite armed_cons. destruct (IH (S start)) as (A & B & C & D).
    cbn [map length seq timer_id timer_delay timer_note].
    rewrite A, B, C. repeat split. by constructor.
Qed.

Lemma release_steps_fields w a calls :
  let a' := foldl (release_step w) a calls in
  noteOnList (synth a') = noteOnList (synth a) ∧
  noteOffList (synth a') = noteOffList (synth a) ∧
  parameters (synth a') = parameters (synth a) ∧
  clock a' = clock a ∧ uncaught a' = uncaught a ∧
  next_timer a' = next_timer a + length calls ∧
  timeOutList (synth a')
    = timeOutList (synth a) ++ seq (next_timer a) (length calls) ∧
  timers a' = timers a ++ armed (next_timer a) (clock a) calls ∧
  nodes a' = foldl (fun ns c => alter (release_envelope (currentTime a) (snd c))
                                      (releasing_top w (fst c)) ns)
                   (nodes a) calls.
Proof.
  revert a. induction calls as [|c calls IH]; intros a; cbn [foldl].
  - cbv zeta. rewrite !app_nil_r, Nat.add_0_r. done.
  - destruct (IH (release_step w a c)) as (A & B & C & D & E & F & G & H & I).
    cbv zeta. rewrite A, B, C, D, E, F, G, H, I. rewrite armed_cons.
    unfold release_step at 1 2 3 4 5 6 7 8 9 10 11.
    cbn [synth nodes timers next_timer clock uncaught noteOnList noteOffList
         timeOutList with_lists length seq].
    rewrite <- !app_assoc. cbn [app].
    split; [done|]. split; [done|]. split; [by destruct (synth a)|].
    split; [done|]. split; [done|]. split; [lia|]. split; [done|]. split; [done|].
    done.
Qed.

Lemma releasing_voices_table w :
  flat_map (releasing w) (getOffNoteIndexes w)
  = table_voices (noteOffList (synth w)).
Proof.
  unfold releasing, getOffNoteIndexes, checkNoteOff.
  generalize (noteOffList (synth w)). intros a.
  induction a as [|s a IH] using rev_ind; [done|].
  rewrite length_app, Nat.add_comm. cbn [length Nat.add].
  rewrite seq_S, List.filter_app, flat_map_app, table_voices_app. f_equal.
  - rewrite <- IH. rewrite !flat_map_concat_map. f_equal.
    assert (∀ i, i < length a → js_get (a ++ [s]) i = js_get a i) as Hget.
    { intros i Hi. unfold js_get. by rewrite lookup_app_l. }
    rewrite (List.filter_ext_in _
      (fun i => match js_get a i with
                | Some l => (0 <? length l)%nat | None => false end)).
    + apply map_ext_in. intros i [Hi _]%filter_In. apply in_seq in Hi.
      rewrite Hget; [done|lia].
    + intros i Hi. apply in_seq in Hi. rewrite Hget; [done|lia].
  - cbn [List.filter Nat.add].
    assert (js_get (a ++ [s]) (length a) = s) as E.
    { unfold js_get. rewrite lookup_app_r by lia. by rewrite Nat.sub_diag. }
    rewrite E. destruct s as [[|x l]|]; cbn; by rewrite ?E.
Qed.

Lemma map_flat_map {A B C} (f : B → C) (G : A → list B) (L : list A) :
  map f (flat_map G L) = flat_map (fun x => map f (G x)) L.
Proof.
  induction L as [|x L IH]; cbn [flat_map map]; [done|].
  by rewrite map_app, IH.
Qed.

Lemma geR_calls_durations w v :
  map snd (geR_calls w v)
  = map (fun vid => (v * release_progress w vid)%Q)
        (table_voices (noteOffList (synth w))).
Proof.
  rewrite <- releasing_voices_table. unfold geR_calls.
  rewrite !map_flat_map. apply flat_map_ext. intros n.
  rewrite map_map. done.
Qed.

Lemma geR_calls_notes w v n d :
  (n, d) ∈ geR_calls w v ↔
  ∃ vid, vid ∈ releasing w n ∧ d = (v * release_progress w vid)%Q.
Proof.
  unfold geR_calls. rewrite list_elem_of_In, in_flat_map. split.
  - intros (m & Hm & Hin). apply in_map_iff in Hin as (vid & E & Hv).
    injection E as E1 E2. subst m d. exists vid. by rewrite list_elem_of_In.
  - intros (vid & Hv & ->). exists n. split.
    + unfold getOffNoteIndexes. apply filter_In.
      unfold releasing in Hv. unfold checkNoteOff.
      destruct (js_get (noteOffList (synth w)) n) as [l|] eqn:E;
        [|by apply elem_of_nil in Hv].
      split.
      * apply in_seq. unfold js_get in E.
        destruct (noteOffList (synth w) !! n) as [o|] eqn:E'; [|done].
        apply lookup_lt_Some in E'. lia.
      * cbn in Hv. destruct l; [by apply elem_of_nil in Hv|done].
    + apply in_map_iff. exists vid. by rewrite <- list_elem_of_In.
Qed.

(** X10. [set geR = v] never throws. It stores [v], cancels the timers
    listed in [timeOutList] and arms one new timer for every releasing
    voice, in the order of the releasing table: the timer of a voice gets
    the delay [v] times that voice's own release progress and a fresh id,
    and [timeOutList] ends up holding exactly the new ids.  The held and
    releasing tables are as before. *)
Theorem set_geR_rearms w v :
  ∃ w' new,
    set_geR w v = Some w' ∧
    _geR (synth w') = v ∧
    noteOnList (synth w') = noteOnList (synth w) ∧
    noteOffList (synth w') = noteOffList (synth w) ∧
    timers w'
      = List.filter (unlisted (timeOutList (synth w))) (timers w) ++ new ∧
    map timer_delay new
      = map (fun vid => (v * release_progress w vid)%Q)
            (table_voices (noteOffList (synth w))) ∧
    map timer_id new = seq (next_timer w) (length new) ∧
    timeOutList (synth w') = map timer_id new ∧
    Forall (fun t => timer_due t = (clock w + Qmax 0 (timer_delay t))%Q ∧
                     ∃ vid, vid ∈ releasing w (timer_note t) ∧
                       timer_delay t = (v * release_progress w vid)%Q) new.
Proof.
  destruct (geR_start_fields w v) as (Son & Soff & Sl & Sn & St & Sk & Sc & Su & Sr).
  destruct (release_steps_fields w (geR_start w v) (geR_calls w v))
    as (A & B & C & D & _ & F & G & H & _).
  cbv zeta in *.
  destruct (armed_fields (next_timer w) (clock w) (geR_calls w v))
    as (Ai & Ad & An & Adue).
  exists (foldl (release_step w) (geR_start w v) (geR_calls w v)),
         (armed (next_timer w) (clock w) (geR_calls w v)).
  split; [apply set_geR_steps|].
  split. { unfold parameters in C. congruence. }
  split; [congruence|]. split; [congruence|].
  split. { by rewrite H, St, Sk, Sc. }
  split. { by rewrite Ad, geR_calls_durations. }
  assert (length (armed (next_timer w) (clock w) (geR_calls w v))
          = length (geR_calls w v)) as El.
  { by rewrite <- (length_map timer_id), Ai, length_seq. }
  split. { by rewrite Ai, El. }
  split. { by rewrite G, Sl, Sk, Ai. }
  apply Forall_forall. intros t Ht.
  split. { by apply (proj1 (Forall_forall _ _) Adue). }
  assert ((timer_note t, timer_delay t) ∈ geR_calls w v) as Hc.
  { assert ((timer_note t, timer_delay t)
            ∈ map (fun t => (timer_note t, timer_delay t))
                  (armed (next_timer w) (clock w) (geR_calls w v))) as Hm.
    { apply list_elem_of_In, in_map_iff. exists t.
      by rewrite <- list_elem_of_In. }
    revert Hm. clear. generalize (next_timer w). 
    induction (geR_calls w v) as [|c l IH]; intros k.
    - intros H. by apply elem_of_nil in H.
    - rewrite armed_cons. cbn [map timer_note timer_delay].
      rewrite !elem_of_cons. intros [E|H]; [left; by destruct c|right; eauto]. }
  by apply geR_calls_notes in Hc.
Qed.

Lemma release_envelope_last ct d o :
  last (events (gain (release_envelope ct d o)))
    = Some (ExponentialRampToValueAtTime (1 # 10000) (ct + d / 1000)) ∧
  last (events (releaseP (envelopeProgress (release_envelope ct d o))))
    = Some (LinearRampToValueAtTime 0 (ct + d / 1000)).
Proof.
  unfold release_envelope, on_gain, on_releaseP, exponentialRampToValueAtTime,
    linearRampToValueAtTime, schedule.
  cbn [gain events with_gain with_progress envelopeProgress releaseP].
  by rewrite !last_snoc.
Qed.

Lemma foldl_alter_other {C} (F : C → SoundOscillator → SoundOscillator)
    (top : C → nat) (calls : list C) (ns : list SoundOscillator) (u : nat) :
  (∀ c, c ∈ calls → top c ≠ u) →
  foldl (fun ns c => alter (F c) (top c) ns) ns calls !! u = ns !! u.
Proof.
  revert ns. induction calls as [|c calls IH]; intros ns Hc; cbn [foldl]; [done|].
  rewrite IH by (intros c' Hc'; apply Hc; by right).
  apply list_lookup_alter_ne. apply Hc. by left.
Qed.

Lemma foldl_alter_length {C} (F : C → SoundOscillator → SoundOscillator)
    (top : C → nat) (calls : list C) (ns : list SoundOscillator) :
  length (foldl (fun ns c => alter (F c) (top c) ns) ns calls) = length ns.
Proof.
  revert ns. induction calls as [|c calls IH]; intros ns; cbn [foldl]; [done|].
  by rewrite IH, length_alter.
Qed.

(** The calls of [set geR] for one note are contiguous and end with the
    call computed from the top voice; no later call is for that note. *)
Lemma geR_calls_split w v n l u :
  js_get (noteOffList (synth w)) n = Some (l ++ [u]) →
  ∃ pre post,
    geR_calls w v = pre ++ (n, (v * release_progress w u)%Q) :: post ∧
    ∀ c, c ∈ post → fst c ≠ n ∧ c ∈ geR_calls w v.
Proof.
  intros Hn.
  assert (n ∈ getOffNoteIndexes w) as Hin.
  { unfold getOffNoteIndexes. apply list_elem_of_In, filter_In. split.
    - apply in_seq. unfold js_get in Hn.
      destruct (noteOffList (synth w) !! n) as [o|] eqn:E; [|done].
      apply lookup_lt_Some in E. lia.
    - apply checkNoteOff_true. destruct l; cbn in Hn; eauto. }
  assert (NoDup (getOffNoteIndexes w)) as Hnd.
  { unfold getOffNoteIndexes. apply NoDup_ListNoDup, List.NoDup_filter, seq_NoDup. }
  apply list_elem_of_split in Hin as (L1 & L2 & E).
  rewrite E in Hnd. apply NoDup_app in Hnd as (_ & _ & Hnd).
  apply NoDup_cons in Hnd as [Hn2 _].
  unfold geR_calls. rewrite E, flat_map_app. cbn [flat_map].
  unfold releasing at 2. rewrite Hn.
  change (default [] (Some (l ++ [u]))) with (l ++ [u]).
  rewrite map_app. cbn [map]. rewrite <- !app_assoc. cbn [app].
  eexists (_ ++ _), _. split; [by rewrite <- app_assoc|].
  intros c Hc. split.
  - apply list_elem_of_In, in_flat_map in Hc as (m & Hm & Hc).
    apply in_map_iff in Hc as (vid & <- & _). cbn.
    intros ->. apply Hn2. by apply list_elem_of_In.
  - rewrite ?elem_of_app, ?elem_of_cons. tauto.
Qed.

(** X11. In a well-formed registry [set geR = v] does retarget the voice
    on top of each releasing stack by its own progress: the last event on
    the gain of that voice is the ramp to the floor ending
    [v * progress] ms from now, and the last event on its release
    progress is the matching ramp to 0. *)
Theorem set_geR_retargets_top w v n l u w' :
  registry_wf w →
  js_get (noteOffList (synth w)) n = Some (l ++ [u]) →
  set_geR w v = Some w' →
  last (events (gain (deref w' u)))
    = Some (ExponentialRampToValueAtTime (1 # 10000)
              (currentTime w + v * release_progress w u / 1000)) ∧
  last (events (releaseP (envelopeProgress (deref w' u))))
    = Some (LinearRampToValueAtTime 0
              (currentTime w + v * release_progress w u / 1000)).
Proof.
  intros Hwf Hn H. rewrite set_geR_steps in H. injection H as <-.
  destruct (geR_start_fields w v) as (_ & _ & _ & Sn & _ & _ & Sc & _).
  destruct (release_steps_fields w (geR_start w v) (geR_calls w v))
    as (_ & _ & _ & _ & _ & _ & _ & _ & I).
  cbv zeta in I. unfold deref. rewrite I, Sn.
  assert (currentTime (geR_start w v) = currentTime w) as ->
    by (unfold currentTime; by rewrite Sc).
  destruct (geR_calls_split w v n l u Hn) as (pre & post & Es & Hpost).
  rewrite Es, foldl_app. cbn [foldl].
  set (G := fun (ns : list SoundOscillator) (c : nat * Q) =>
              alter (release_envelope (currentTime w) c.2) (releasing_top w c.1) ns).
  assert (releasing_top w n = u) as Etop.
  { unfold releasing_top, releasing. rewrite Hn.
    change (default [] (Some (l ++ [u]))) with (l ++ [u]).
    by rewrite last_snoc. }
  assert (u ∈ releasing w n) as Hu.
  { unfold releasing. rewrite Hn. apply elem_of_app. right. by left. }
  assert (u < length (nodes w)) as Hlt.
  { destruct Hwf as (_ & Hb & _).
    apply (proj1 (Forall_forall _ _) Hb). unfold registered.
    apply elem_of_app. right. apply elem_of_table_voices.
    exists n, (l ++ [u]). split; [done|]. apply elem_of_app. right. by left. }
  destruct (foldl G (nodes w) pre !! u) as [o|] eqn:Eo.
  2:{ apply lookup_ge_None in Eo. unfold G in Eo.
      rewrite foldl_alter_length in Eo. lia. }
  assert (foldl G (G (foldl G (nodes w) pre) (n, (v * release_progress w u)%Q)) post
            !! u
          = Some (release_envelope (currentTime w) (v * release_progress w u) o))
    as E.
  { unfold G at 1. rewrite foldl_alter_other.
    - unfold G at 1. cbn [fst snd]. rewrite Etop, list_lookup_alter_eq.
      by rewrite Eo.
    - intros c Hc. destruct (Hpost c Hc) as [Hne Hin]. destruct c as [m d].
      cbn [fst] in *. apply geR_calls_notes in Hin as (vid & Hvid & _).
      intros Em. destruct (registry_wf_exclusive w Hwf) as (_ & _ & Hx).
      apply (proj2 (Hx n m u (not_eq_sym Hne)) Hu).
      rewrite <- Em. unfold releasing_top.
      destruct (last (releasing w m)) as [x|] eqn:El.
      + apply last_Some in El as [l' ->]. apply elem_of_app. right. by left.
      + apply last_None in El. rewrite El in Hvid. by apply elem_of_nil in Hvid. }
  rewrite (list_lookup_total_correct _ _ _ E).
  apply release_envelope_last.
Qed.

Lemma set_geR_retargets_top_witness :
  let w := run init [NoteOn 60; NoteOn 60; NoteOff 60; Wait 270; NoteOff 60;
                     Render 1 (1 # 2) 0 0 (3 # 4); Render 0 (1 # 4) 0 (1 # 2) 1] in
  let w' := step w (SetGeR 2000) in
  registry_wf w ∧
  js_get (noteOffList (synth w)) 60 = Some ([1] ++ [0]) ∧
  set_geR w 2000 = Some w' ∧
  last (events (gain (deref w' 0)))
    = Some (ExponentialRampToValueAtTime (1 # 10000)
              (currentTime w + 2000 * release_progress w 0 / 1000)).
Proof.
  intros w w'.
  assert (registry_wf w) as H1
    by apply registry_wf_run, registry_wf_init.
  assert (js_get (noteOffList (synth w)) 60 = Some ([1] ++ [0])) as H2
    by (vm_compute; reflexivity).
  assert (set_geR w 2000 = Some w') as H3 by (vm_compute; reflexivity).
  split; [exact H1|]. split; [exact H2|]. split; [exact H3|].
  exact (proj1 (set_geR_retargets_top w 2000 60 [1] 0 w' H1 H2 H3)).
Defined.

(** ** The attack, decay and sustain setters *)

Lemma forEachHeld_deref f w0 w n v :
  registry_wf w → noteOnList (synth w0) = noteOnList (synth w) →
  nodes w0 = nodes w → v ∈ held w n →
  deref (forEachHeld f w0) v = f (deref w v).
Proof.
  intros (Hnd & Hb & _) Eon En Hv. unfold deref, forEachHeld.
  cbn [nodes with_nodes]. rewrite held_voices_table, Eon, En.
  apply elem_of_held in Hv.
  assert (v < length (nodes w)) as Hlt.
  { apply (proj1 (Forall_forall _ _) Hb). unfold registered.
    apply elem_of_app. by left. }
  apply lookup_lt_is_Some in Hlt as [o Ho].
  unfold registered in Hnd. apply NoDup_app in Hnd as (Hnd & _).
  apply list_lookup_total_correct.
  rewrite foldl_alter_lookup by done. rewrite decide_True by done.
  by rewrite Ho, (list_lookup_total_correct _ _ _ Ho).
Qed.

Lemma forEachHeld_other f w0 v :
  v ∉ table_voices (noteOnList (synth w0)) →
  nodes (forEachHeld f w0) !! v = nodes w0 !! v.
Proof.
  intros Hv. unfold forEachHeld. cbn [nodes with_nodes].
  rewrite held_voices_table.
  apply (foldl_alter_other (fun _ : nat => f) (fun vid => vid)).
  intros c Hc ->. by apply Hv.
Qed.

(** X12. [set geA = x] on a held voice whose attack progress reads [p]
    and whose decay progress reads [q], with [m = x * p]: the attack
    progress ends with a ramp to 0 at [m] ms from now, the decay
    progress with a ramp to 0 at [geD] ms from now, and the gain ends
    with the ramp to the sustain level, [geD + m] ms from now when
    [m > 0] and [geD * q + m] ms from now otherwise; when [m > 0] the
    gain also gets the attack ramp to 0.993 ending [m] ms from now. *)
Theorem set_geA_held_voice w x n v :
  registry_wf w → v ∈ held w n →
  let o := deref w v in
  let o' := deref (set_geA w x) v in
  let ct := currentTime w in
  let m := (x * value (attackP (envelopeProgress o)))%Q in
  let geD := _geD (synth w) in
  last (events (attackP (envelopeProgress o')))
    = Some (LinearRampToValueAtTime 0 (ct + m / 1000)) ∧
  last (events (decayP (envelopeProgress o')))
    = Some (LinearRampToValueAtTime 0 (ct + geD / 1000)) ∧
  last (events (gain o'))
    = Some (LinearRampToValueAtTime (_geS (synth w))
              (ct + ((if Qle_bool m 0
                      then geD * value (decayP (envelopeProgress o))
                      else geD) + m) / 1000)) ∧
  (Qle_bool m 0 = false →
   ExponentialRampToValueAtTime (993 # 1000) (ct + m / 1000)
     ∈ events (gain o')).
Proof.
  intros Hwf Hv o o' ct m geD. subst o'. unfold set_geA.
  cbv zeta.
  match goal with |- context [forEachHeld ?f ?w0] =>
    rewrite (forEachHeld_deref f w0 w n v Hwf eq_refl eq_refl Hv) end.
  fold o. change (currentTime (with_synth _ w)) with ct.
  unfold geA_retarget.
  set (m' := (x * value (attackP (envelopeProgress
               (on_decayP (cancelAndHold true ct)
                  (on_attackP (cancelAndHold true ct) o)))))%Q).
  change m' with m. clear m'.
  cbn [_geD _geS with_envelope].
  change (value (decayP (envelopeProgress
            (on_gain (cancelAndHold true ct)
               (on_decayP (linearRampToValueAtTime 0 (ct + _geD (synth w) / 1000))
                  (on_decayP (setValueAtTime 1 (ct + m / 1000))
                     (on_attackP (linearRampToValueAtTime 0 (ct + m / 1000))
                        (on_decayP (cancelAndHold true ct)
                           (on_attackP (cancelAndHold true ct) o)))))))))
    with (value (decayP (envelopeProgress o))).
  destruct (Qle_bool m 0);
    cbn [negb on_gain on_attackP on_decayP gain with_gain with_progress
         attack decay cancelAndHold attackP decayP envelopeProgress
         exponentialRampToValueAtTime linearRampToValueAtTime setValueAtTime
         schedule events value _geD _geS];
    rewrite ?last_snoc; (split; [done|]); (split; [done|]); (split; [done|]).
  - done.
  - intros _. rewrite !elem_of_app. left. left. right. by left.
Qed.

Lemma set_geA_held_voice_witness :
  let w := run init [NoteOn 60; Wait 50; Render 0 (1 # 2) (1 # 2) 1 1] in
  registry_wf w ∧ 0 ∈ held w 60 ∧
  last (events (attackP (envelopeProgress (deref (set_geA w 400) 0))))
    = Some (LinearRampToValueAtTime 0
              (currentTime w
               + 400 * value (attackP (envelopeProgress (deref w 0))) / 1000)).
Proof.
  intros w.
  assert (registry_wf w) as H1 by apply registry_wf_run, registry_wf_init.
  assert (0 ∈ held w 60) as H2 by (vm_compute; by left).
  split; [exact H1|]. split; [exact H2|].
  exact (proj1 (set_geA_held_voice w 400 60 0 H1 H2)).
Defined.

(** X13. [set geD = x] on a held voice whose attack progress reads [p]
    and whose decay progress reads [q]: nothing scheduled on the gain is
    cancelled; a hold at the current time and a ramp to the sustain level
    ending [x * q + geA * p] ms from now are appended. The decay progress
    ends with a ramp to 0 at [x * q] ms from now. *)
Theorem set_geD_held_voice w x n v :
  registry_wf w → v ∈ held w n →
  let o := deref w v in
  let o' := deref (set_geD w x) v in
  let ct := currentTime w in
  let p := value (attackP (envelopeProgress o)) in
  let q := value (decayP (envelopeProgress o)) in
  events (gain o')
    = events (gain o)
      ++ [LinearRampToValueAtTime (value (gain o)) ct;
          LinearRampToValueAtTime (_geS (synth w))
            (ct + (x * q + _geA (synth w) * p) / 1000)] ∧
  last (events (decayP (envelopeProgress o')))
    = Some (LinearRampToValueAtTime 0 (ct + x * q / 1000)) ∧
  attackP (envelopeProgress o') = attackP (envelopeProgress o) ∧
  releaseP (envelopeProgress o') = releaseP (envelopeProgress o).
Proof.
  intros Hwf Hv o o' ct p q. subst o'. unfold set_geD.
  cbv zeta.
  match goal with |- context [forEachHeld ?f ?w0] =>
    rewrite (forEachHeld_deref f w0 w n v Hwf eq_refl eq_refl Hv) end.
  fold o. change (currentTime (with_synth _ w)) with ct.
  unfold geD_retarget. fold p q.
  destruct (negb (Qle_bool p 0));
    cbn [on_gain on_attackP on_decayP gain with_gain with_progress
         decay cancelAndHold attackP decayP releaseP envelopeProgress
         linearRampToValueAtTime setValueAtTime
         schedule events value _geA _geS with_envelope];
    rewrite ?last_snoc, <- ?app_assoc; done.
Qed.

Lemma set_geD_held_voice_witness :
  let w := run init [NoteOn 60; Wait 50; Render 0 (1 # 2) (1 # 2) 1 1] in
  registry_wf w ∧ 0 ∈ held w 60 ∧
  last (events (decayP (envelopeProgress (deref (set_geD w 400) 0))))
    = Some (LinearRampToValueAtTime 0
              (currentTime w
               + 400 * value (decayP (envelopeProgress (deref w 0))) / 1000)).
Proof.
  intros w.
  assert (registry_wf w) as H1 by apply registry_wf_run, registry_wf_init.
  assert (0 ∈ held w 60) as H2 by (vm_compute; by left).
  split; [exact H1|]. split; [exact H2|].
  exact (proj1 (proj2 (set_geD_held_voice w 400 60 0 H1 H2))).
Defined.

(** X14. [set geS = x] on a held voice whose attack progress reads [p]
    and whose decay progress reads [q]: the progress trackers are not
    touched, and the gain ends with a ramp to the new sustain level [x],
    ending [geD * q + geA * p] ms from now when [p] is 0 and
    [geD + geA * p] ms from now otherwise. *)
Theorem set_geS_held_voice w x n v :
  registry_wf w → v ∈ held w n →
  let o := deref w v in
  let o' := deref (set_geS w x) v in
  let ct := currentTime w in
  let p := value (attackP (envelopeProgress o)) in
  let q := value (decayP (envelopeProgress o)) in
  let geA := _geA (synth w) in
  let geD := _geD (synth w) in
  envelopeProgress o' = envelopeProgress o ∧
  last (events (gain o'))
    = Some (LinearRampToValueAtTime x
              (ct + ((if Qeq_bool p 0 then geD * q else geD) + geA * p) / 1000)).
Proof.
  intros Hwf Hv o o' ct p q geA geD. subst o'. unfold set_geS.
  cbv zeta.
  match goal with |- context [forEachHeld ?f ?w0] =>
    rewrite (forEachHeld_deref f w0 w n v Hwf eq_refl eq_refl Hv) end.
  fold o. change (currentTime (with_synth _ w)) with ct.
  unfold geS_retarget. fold p q.
  destruct (Qeq_bool p 0);
    cbn [on_gain gain with_gain attack decay cancelAndHold envelopeProgress
         exponentialRampToValueAtTime linearRampToValueAtTime
         schedule events value _geA _geD _geS with_envelope];
    rewrite ?last_snoc; done.
Qed.

Lemma set_geS_held_voice_witness :
  let w := run init [NoteOn 60; Wait 50; Render 0 (1 # 2) (1 # 2) 1 1] in
  registry_wf w ∧ 0 ∈ held w 60 ∧
  envelopeProgress (deref (set_geS w (1 # 4)) 0) = envelopeProgress (deref w 0).
Proof.
  intros w.
  assert (registry_wf w) as H1 by apply registry_wf_run, registry_wf_init.
  assert (0 ∈ held w 60) as H2 by (vm_compute; by left).
  split; [exact H1|]. split; [exact H2|].
  exact (proj1 (set_geS_held_voice w (1 # 4) 60 0 H1 H2)).
Defined.

(** X15. The attack, decay and sustain setters store the new value and
    touch nothing but held voices: the tables, the timers and their
    list, the clock, and every voice that is not in the held table, the
    releasing voices among them, are as before. *)
Theorem envelope_setters_frame w x w' v :
  w' = set_geA w x ∨ w' = set_geD w x ∨ w' = set_geS w x →
  v ∉ table_voices (noteOnList (synth w)) →
  nodes w' !! v = nodes w !! v ∧
  noteOnList (synth w') = noteOnList (synth w) ∧
  noteOffList (synth w') = noteOffList (synth w) ∧
  timeOutList (synth w') = timeOutList (synth w) ∧
  timers w' = timers w ∧ next_timer w' = next_timer w ∧
  clock w' = clock w ∧ _geR (synth w') = _geR (synth w).
Proof.
  intros [->|[->| ->]] Hv;
    (split; [unfold set_geA, set_geD, set_geS; by rewrite forEachHeld_other|done]).
Qed.

Lemma envelope_setters_frame_witness :
  let w := run init [NoteOn 60; NoteOn 64; NoteOff 64; Wait 50] in
  let w' := set_geD w 300 in
  (w' = set_geA w 300 ∨ w' = set_geD w 300 ∨ w' = set_geS w 300) ∧
  (1 ∉ table_voices (noteOnList (synth w))) ∧
  nodes w' !! 1 = nodes w !! 1.
Proof.
  intros w w'.
  assert (w' = set_geA w 300 ∨ w' = set_geD w 300 ∨ w' = set_geS w 300) as H1
    by (right; left; reflexivity).
  assert (1 ∉ table_voices (noteOnList (synth w))) as H2.
  { vm_compute. intros H. apply list_elem_of_In in H.
    destruct H as [H|[]]. discriminate H. }
  split; [exact H1|]. split; [exact H2|].
  exact (proj1 (envelope_setters_frame w 300 w' 1 H1 H2)).
Defined.

(** ** Statistics *)

Lemma filter_seq_sorted (f : nat → bool) start len :
  StronglySorted lt (List.filter f (seq start len)).
Proof.
  revert start. induction len as [|len IH]; intros start; cbn [seq List.filter].
  - constructor.
  - destruct (f start); [|apply IH]. constructor; [apply IH|].
    apply Forall_forall. intros x Hx.
    apply list_elem_of_In, filter_In in Hx as [Hx _]. apply in_seq in Hx. lia.
Qed.

Lemma js_get_Some_lt {A} (a : js_array A) n x :
  js_get a n = Some x → n < length a.
Proof.
  unfold js_get. destruct (a !! n) as [o|] eqn:E; [|done].
  intros _. by apply lookup_lt_Some in E.
Qed.

(** X16. [getOnNoteIndexes()] lists exactly the notes whose held stack is
    not empty and [getOffNoteIndexes()] exactly the notes whose releasing
    stack is not empty, each in ascending order and without repetition;
    holes and emptied stacks are skipped. *)
Theorem note_indexes_spec w :
  (∀ n, n ∈ getOnNoteIndexes w ↔ held w n ≠ []) ∧
  (∀ n, n ∈ getOffNoteIndexes w ↔ releasing w n ≠ []) ∧
  StronglySorted lt (getOnNoteIndexes w) ∧
  StronglySorted lt (getOffNoteIndexes w).
Proof.
  split; [|split; [|split; apply filter_seq_sorted]].
  - intros n. unfold getOnNoteIndexes, held, checkNoteOn.
    rewrite list_elem_of_In, filter_In, in_seq.
    destruct (js_get (noteOnList (synth w)) n) as [[|x l]|] eqn:E; cbn.
    + split; [by intros [_ ?]|done].
    + apply js_get_Some_lt in E. split; [done|]. intros _. split; [lia|done].
    + split; [by intros [_ ?]|done].
  - intros n. unfold getOffNoteIndexes, releasing, checkNoteOff.
    rewrite list_elem_of_In, filter_In, in_seq.
    destruct (js_get (noteOffList (synth w)) n) as [[|x l]|] eqn:E; cbn.
    + split; [by intros [_ ?]|done].
    + apply js_get_Some_lt in E. split; [done|]. intros _. split; [lia|done].
    + split; [by intros [_ ?]|done].
Qed.

(** X17. [getAllOscillatorsOnNote(note)] is the empty array when the note
    has no voices, a one-element array when it has held voices only, and
    a two-element array otherwise, whose index 0 is a hole when the note
    has releasing voices only. A group that is present holds the note and
    the whole stack. *)
Theorem getAllOscillatorsOnNote_shape w n :
  getAllOscillatorsOnNote w n =
    match held w n, releasing w n with
    | [], [] => []
    | _ :: _, [] => [Some (mkGroup n (held w n))]
    | [], _ :: _ => [None; Some (mkGroup n (releasing w n))]
    | _ :: _, _ :: _ => [Some (mkGroup n (held w n));
                         Some (mkGroup n (releasing w n))]
    end.
Proof.
  unfold getAllOscillatorsOnNote, checkNoteOn, checkNoteOff, held, releasing.
  destruct (js_get (noteOnList (synth w)) n) as [[|x l]|],
           (js_get (noteOffList (synth w)) n) as [[|y k]|]; done.
Qed.

Lemma foldl_push_filter {A B} (p : A → bool) (g : A → B) (l : list A) (r : list B) :
  foldl (fun r i => if p i then r ++ [g i] else r) r l
  = r ++ map g (List.filter p l).
Proof.
  revert r. induction l as [|i l IH]; intros r; cbn [foldl List.filter map].
  - by rewrite app_nil_r.
  - rewrite IH. destruct (p i); [|done]. by rewrite <- app_assoc.
Qed.

Lemma sum_lengths_table (a : js_array (list nat)) :
  list_sum (map (fun n => length (default [] (js_get a n)))
                (List.filter (fun n => match js_get a n with
                                       | Some l => (0 <? length l)%nat
                                       | None => false end)
                             (seq 0 (length a))))
  = length (table_voices a).
Proof.
  induction a as [|s a IH] using rev_ind; [done|].
  rewrite length_app, Nat.add_comm. cbn [length Nat.add].
  rewrite seq_S, List.filter_app, map_app, list_sum_app, table_voices_app,
    length_app.
  f_equal.
  - rewrite <- IH. f_equal.
    assert (∀ i, i < length a → js_get (a ++ [s]) i = js_get a i) as Hget.
    { intros i Hi. unfold js_get. by rewrite lookup_app_l. }
    rewrite (List.filter_ext_in _
      (fun i => match js_get a i with
                | Some l => (0 <? length l)%nat | None => false end)).
    + apply map_ext_in. intros i [Hi _]%filter_In. apply in_seq in Hi.
      rewrite Hget; [done|lia].
    + intros i Hi. apply in_seq in Hi. rewrite Hget; [done|lia].
  - cbn [List.filter Nat.add].
    assert (js_get (a ++ [s]) (length a) = s) as E.
    { unfold js_get. rewrite lookup_app_r by lia. by rewrite Nat.sub_diag. }
    rewrite E. destruct s as [[|x l]|]; cbn; rewrite ?E; cbn;
      rewrite ?app_nil_r; lia.
Qed.

(** X18. The earlier revision's [getOnNoteInfo()] and [getOffNoteInfo()]
    return one record per note with held (releasing) voices, in
    ascending note order, each with the voice counts of that note; the
    held counts of [getOnNoteInfo()] add up to the number of held voices
    and the releasing counts of [getOffNoteInfo()] to the number of
    releasing voices. *)
Theorem note_info_lists w :
  getOnNoteInfo w
    = map (fun n => mkInfo (length (held w n)) (length (releasing w n)))
          (getOnNoteIndexes w) ∧
  getOffNoteInfo w
    = map (fun n => mkInfo (length (held w n)) (length (releasing w n)))
          (getOffNoteIndexes w) ∧
  list_sum (map voicesOn (getOnNoteInfo w))
    = length (table_voices (noteOnList (synth w))) ∧
  list_sum (map voicesReleasing (getOffNoteInfo w))
    = length (table_voices (noteOffList (synth w))).
Proof.
  assert (getOnNoteInfo w
          = map (fun n => mkInfo (length (held w n)) (length (releasing w n)))
                (getOnNoteIndexes w)) as E1.
  { unfold getOnNoteInfo. rewrite foldl_push_filter. cbn [app].
    apply map_ext. intros n. apply getNoteInfo_counts. }
  assert (getOffNoteInfo w
          = map (fun n => mkInfo (length (held w n)) (length (releasing w n)))
                (getOffNoteIndexes w)) as E2.
  { unfold getOffNoteInfo. rewrite foldl_push_filter. cbn [app].
    apply map_ext. intros n. apply getNoteInfo_counts. }
  split; [done|]. split; [done|]. rewrite E1, E2, !map_map.
  cbn [voicesOn voicesReleasing]. split.
  - rewrite <- sum_lengths_table. done.
  - rewrite <- sum_lengths_table. done.
Qed.

Lemma string_app_assoc (a b c : string) :
  ((a ++ b) ++ c = a ++ (b ++ c))%string.
Proof. induction a as [|x a IH]; cbn; [done|]. by rewrite IH. Qed.

Lemma string_app_empty (a : string) : (a ++ "" = a)%string.
Proof. induction a as [|x a IH]; cbn; [done|]. by rewrite IH. Qed.

(** X19. [logNotesSummary()] is the header, one block per note of
    0..127 that has held or releasing voices, in ascending order, and
    the footer. Notes above 127 are never listed, and every block
    prints the same two numbers: how many notes have held voices and how
    many notes have releasing voices. *)
Theorem logNotesSummary_blocks w :
  let block i :=
    (LF ++ "Note: " ++ number_to_string i ++ LF ++ "--------"
        ++ LF ++ "# of voices on: "
        ++ number_to_string (length (getOnNoteIndexes w))
        ++ LF ++ "# of voices releasing: "
        ++ number_to_string (length (getOffNoteIndexes w))
        ++ LF ++ "--------")%string in
  logNotesSummary w
  = ("--- Active Notes ---" ++ LF
     ++ foldr (fun i s => block i ++ s) ""
          (List.filter (fun i => checkNoteOn w i || checkNoteOff w i) (seq 0 128))
     ++ LF ++ LF ++ "--- End Summary ---")%string.
Proof.
  intros block. unfold logNotesSummary.
  assert (∀ l r, foldl (logNotesSummary_step w) r l
                 = (r ++ foldr (fun i s => block i ++ s) ""
                      (List.filter (fun i => checkNoteOn w i || checkNoteOff w i) l))%string)
    as H.
  { induction l as [|i l IH]; intros r; cbn [foldl List.filter foldr].
    - by rewrite string_app_empty.
    - rewrite IH. unfold logNotesSummary_step.
      destruct (checkNoteOn w i || checkNoteOff w i); [|done].
      cbn [foldr]. unfold block, logNoteInfo, getNoteStatInfo.
      cbn [voicesOn voicesReleasing]. by rewrite !string_app_assoc. }
  rewrite H. by rewrite !string_app_assoc.
Qed.

(** ** Insert effects *)

Lemma connect_effectList a t r : effectList (connect a t r) = effectList r.
Proof. unfold connect. by destruct (decide _). Qed.

Lemma elem_of_connect a t r e :
  e ∈ connections (connect a t r) ↔ e ∈ connections r ∨ e = (a, t).
Proof.
  unfold connect. destruct (decide ((a, t) ∈ connections r)) as [Hin|Hnin].
  - split; [by left|]. by intros [?| ->].
  - cbn [connections]. rewrite elem_of_app, list_elem_of_singleton. done.
Qed.

Lemma reconnectEffect_step_first r a b l :
  effectList r = a :: b :: l →
  reconnectEffect_step (length (effectList r)) r 1
  = Thrown (connect b (ToEffect a) r).
Proof.
  intros El. unfold reconnectEffect_step. rewrite El.
  cbn [lookup list_lookup Nat.sub]. rewrite connect_effectList, El.
  by rewrite lookup_ge_None_2.
Qed.

(** X20. [reconnectEffect(i)] in closed form. The loop never completes
    an iteration, because [effectList[l]] with [l] the length of the list
    is undefined: with two or more effects and [i] in range the method
    throws, after it has connected the second effect to the first (and,
    for [i = 0], the first effect to the master gain). It returns
    normally only with a single effect, or with [i] past the end and not
    0; on an empty list [reconnectEffect(0)] throws at once. The list
    itself never changes. *)
Theorem reconnectEffect_outcome r i :
  let r0 :=
    match effectList r with
    | a :: _ => if (i =? 0)%nat then connect a ToMaster r else r
    | [] => r
    end in
  reconnectEffect r i =
    match effectList r with
    | [] => if (i =? 0)%nat then Thrown r else Returned r
    | [a] => Returned r0
    | a :: b :: _ =>
        if (i <? length (effectList r))%nat
        then Thrown (connect b (ToEffect a) r0)
        else Returned r0
    end.
Proof.
  unfold reconnectEffect.
  destruct (effectList r) as [|a [|b l]] eqn:El; cbn [lookup list_lookup].
  - destruct i as [|i]; cbn; [done|]. by rewrite El.
  - destruct i as [|i]; cbn [Nat.eqb].
    + rewrite connect_effectList, El. done.
    + rewrite El. done.
  - destruct i as [|i]; cbn [Nat.eqb].
    + rewrite connect_effectList, El.
      change (0 <? length (a :: b :: l))%nat with true. cbv iota.
      change (length (a :: b :: l) - 1) with (S (length l)).
      cbn [seq forEachOutcome]. rewrite <- El at 1.
      rewrite <- (connect_effectList a ToMaster r) at 1.
      rewrite (reconnectEffect_step_first _ a b l); [done|].
      by rewrite connect_effectList.
    + rewrite El. destruct (S i <? length (a :: b :: l))%nat; [|done].
      change (length (a :: b :: l) - 1) with (S (length l)).
      cbn [seq forEachOutcome]. rewrite <- El at 1.
      by rewrite (reconnectEffect_step_first _ a b l).
Qed.

(** X21. [removeEffect(i)] with [i] inside the list returns normally: the
    list loses the entry at [i], every connection going out of the
    removed node is dropped and no other connection changes. Nothing is
    connected: the neighbours of the removed node are not rewired, and a
    connection into the removed node stays. *)
Theorem removeEffect_in_range r i a :
  effectList r !! i = Some a →
  ∃ r', removeEffect r i = Returned r' ∧
        effectList r' = delete i (effectList r) ∧
        length (effectList r') = length (effectList r) - 1 ∧
        ∀ b t, (b, t) ∈ connections r' ↔ (b, t) ∈ connections r ∧ b ≠ a.
Proof.
  intros Ha. unfold removeEffect. rewrite Ha.
  assert (i < length (effectList r)) as Hlt by by eapply lookup_lt_Some.
  assert ((0 <? length (effectList r))%nat = true) as ->
    by (apply Nat.ltb_lt; lia).
  eexists. split; [done|]. cbn [effectList connections disconnect].
  split; [done|]. split.
  - rewrite length_delete; [lia|]. by rewrite Ha.
  - intros b t. rewrite list_elem_of_In, filter_In, <- list_elem_of_In.
    cbn [fst]. rewrite negb_true_iff, Nat.eqb_neq. done.
Qed.

Lemma removeEffect_in_range_witness :
  let r := mkRack [7; 8; 9] [(8, ToEffect 7); (9, ToEffect 8); (7, ToMaster)] in
  effectList r !! 1 = Some 8 ∧
  removeEffect r 1 = Returned (mkRack [7; 9] [(9, ToEffect 8); (7, ToMaster)]).
Proof.
  intros r.
  assert (effectList r !! 1 = Some 8) as H1 by reflexivity.
  split; [exact H1|].
  destruct (removeEffect_in_range r 1 8 H1) as (r' & E & _).
  reflexivity.
Defined.

(** X22. [removeEffect(i)] with [i] past the end: on an empty list it
    only logs and returns; on a non-empty list it throws a TypeError,
    and nothing has changed. *)
Theorem removeEffect_past_end r i :
  length (effectList r) ≤ i →
  removeEffect r i
    = if decide (effectList r = []) then Returned r else Thrown r.
Proof.
  intros Hi. unfold removeEffect.
  destruct (effectList r) as [|x l] eqn:El; [done|].
  rewrite decide_False by done.
  assert ((0 <? length (x :: l))%nat = true) as -> by done.
  by rewrite lookup_ge_None_2.
Qed.

Lemma removeEffect_past_end_witness :
  let r := mkRack [7; 8] [(8, ToEffect 7); (7, ToMaster)] in
  length (effectList r) ≤ 5 ∧ removeEffect r 5 = Thrown r.
Proof.
  intros r.
  assert (length (effectList r) ≤ 5) as H1 by (cbn; lia).
  split; [exact H1|].
  exact (removeEffect_past_end r 5 H1).
Defined.

(** X23. Pushing an effect with [insertEffect] and removing it again by
    its index gives back the list as it was; the connections going out
    of that effect are dropped, also those it had before it was pushed. *)
Theorem insertEffect_removeEffect r a :
  removeEffect (insertEffect r a) (length (effectList r))
  = Returned (mkRack (effectList r) (connections (disconnect a r))).
Proof.
  unfold removeEffect, insertEffect. cbn [effectList connections disconnect].
  rewrite length_app. cbn [length].
  assert ((0 <? length (effectList r) + 1)%nat = true) as ->
    by (apply Nat.ltb_lt; lia).
  rewrite lookup_app_r, Nat.sub_diag by lia. cbn [lookup list_lookup].
  f_equal. f_equal.
  rewrite delete_middle. by rewrite app_nil_r.
Qed.

(** ** Timer bookkeeping while notes are played *)

Lemma run_timers_uncaught fuel deadline w :
  timers_fifo w → timers_exact w →
  uncaught (run_timers fuel deadline w) = uncaught w.
Proof.
  revert w. induction fuel as [|fuel IH]; intros w Hf He; cbn [run_timers]; [done|].
  destruct (timers w) as [|t ts] eqn:Et; [done|].
  rewrite next_due_sorted by (rewrite <- Et; apply Hf).
  destruct (Qle_bool (timer_due t) deadline); [|done].
  destruct (timers_fifo_fire w t ts Et Hf) as (w1 & E1 & _ & _ & Hf1).
  destruct (timers_exact_fire w t ts Et He) as (w1' & E1' & He1 & Hu & _).
  rewrite E1 in E1'. injection E1' as <-. rewrite E1.
  by rewrite IH.
Qed.

Lemma uncaught_run es :
  forallb is_play_event es = true → uncaught (run init es) = 0.
Proof.
  unfold run. induction es as [|e es IH] using rev_ind; intros Hes; [done|].
  rewrite forallb_app in Hes. apply andb_prop in Hes as [Hes He].
  rewrite foldl_app. cbn [foldl]. specialize (IH Hes).
  pose proof (timers_fifo_run es Hes) as Hf.
  destruct (timers_exact_run es Hes) as [Hx _]. unfold run in Hf, Hx.
  destruct e as [n|n| | | | | |dt| |p]; try discriminate He; cbn [step].
  - done.
  - destruct (checkNoteOn (foldl step init es) n) eqn:Ec.
    + apply checkNoteOn_true in Ec as (l & v & Ec).
      by rewrite (noteOff_eq _ _ _ _ Ec).
    + by rewrite noteOff_noop.
  - unfold wait. destruct (Qle_bool 0 dt); [|done]. cbn [uncaught].
    by rewrite run_timers_uncaught.
  - by destruct p.
Qed.

(** X24. While notes are only played and released, with time passing in
    between, the bookkeeping of the release timers is exact: [timeOutList]
    holds the ids of the pending timers, in the order in which they will
    fire; every timer is due within the release time; each note has as
    many pending timers as releasing voices; and no release callback has
    thrown. *)
Theorem timer_bookkeeping es :
  forallb is_note_event es = true →
  let w := run init es in
  timeOutList (synth w) = map timer_id (timers w) ∧
  StronglySorted (fun t u => (timer_due t <= timer_due u)%Q) (timers w) ∧
  Forall (fun t => (timer_due t <= clock w + 1080)%Q) (timers w) ∧
  (∀ n, length (List.filter (fun t => (timer_note t =? n)%nat) (timers w))
        = length (releasing w n)) ∧
  uncaught w = 0.
Proof.
  intros Hes w. apply note_events_play in Hes.
  destruct (timers_fifo_run es Hes) as (T1 & T2 & T3 & _).
  destruct (timers_exact_run es Hes) as [Hx Hr]. fold w in T1, T2, T3, Hx, Hr.
  rewrite Hr in T3.
  split; [done|]. split; [done|]. split; [done|]. split; [exact Hx|].
  by apply uncaught_run.
Qed.

Lemma timer_bookkeeping_witness :
  let es := [NoteOn 60; NoteOn 64; NoteOff 60; Wait 500; NoteOff 64; Wait 700] in
  forallb is_note_event es = true ∧
  timeOutList (synth (run init es)) = map timer_id (timers (run init es)).
Proof.
  intros es.
  assert (forallb is_note_event es = true) as H1 by reflexivity.
  split; [exact H1|].
  exact (proj1 (timer_bookkeeping es H1)).
Defined.

(** ** The plain setters *)

(** X25. The setters of the sound parameters ([voices], [detune],
    [oscType], [filterType], [filterFrequency], [filterBandwidth],
    [maxVolume]) only store their value: no existing voice, table or timer
    changes and the envelope parameters stay. The values are read by the
    next [noteOn], whose voice has [voices] oscillators of the new type
    spread by the new detune, and a filter and volume as set. *)
Theorem sound_setters_next_note w k d t ft ff fq mv n :
  let w1 :=
    set_maxVolume
      (set_filterBandwidth
         (set_filterFrequency
            (set_filterType (set_oscType (set_detune (set_voices w k) d) t) ft)
            ff) fq) mv in
  nodes w1 = nodes w ∧ timers w1 = timers w ∧
  noteOnList (synth w1) = noteOnList (synth w) ∧
  noteOffList (synth w1) = noteOffList (synth w) ∧
  timeOutList (synth w1) = timeOutList (synth w) ∧
  (_geA (synth w1), _geD (synth w1), _geS (synth w1), _geR (synth w1))
    = (_geA (synth w), _geD (synth w), _geS (synth w), _geR (synth w)) ∧
  ∃ o, nodes (noteOn w1 n) = nodes w ++ [o] ∧
       oscillators o
         = map (fun j => mkOsc t (noteFreq n) (detune_at d j) true true false)
               (seq 0 k) ∧
       filterNode o = mkFilter ft ff fq true ∧ maxOscVol o = mv.
Proof.
  intros w1. repeat (split; [done|]).
  destruct (noteOn_created w1 n) as (o & Ho & Eo).
  destruct (noteOn_nodes w1 n) as [o' Ho'].
  change (nodes w1) with (nodes w) in Ho, Ho'.
  rewrite Ho', lookup_app_r, Nat.sub_diag in Ho by lia.
  injection Ho as ->. exists o. split; [done|]. split; [exact Eo|].
  unfold noteOn in Ho'. cbn [nodes] in Ho'.
  apply app_inv_head in Ho'. injection Ho' as <-. done.
Qed.
